(** * Fill-Forms: log payload extraction and normalisation

    A shallow embedding of [fill_form.py]: the JSON sanitizer, the
    brace-balanced collector, the marker-guided extractor, the request and
    response payload resolvers, the field normaliser, the top-level
    processing step, the tables of the report and the search for the
    latest log, followed by the properties of the specification and by
    further properties of the code.

    Conventions of the embedding.
    - A Python [str] is a Rocq [string] holding its UTF-8 encoding.  Every
      character the program looks at (braces, quotes, backslash, control
      characters, the ASCII letters of the markers) is ASCII, and a UTF-8
      multi-byte sequence contains no ASCII byte, so substring tests,
      counting and the sanitizer scan agree on the two representations.
    - A Python value is a [pyval]; [PNone] is Python's [None], which is also
      what [json.loads] returns for the text [null].
    - An exception is an explicit [Raise] in the result type [exc]. *)

From Stdlib Require Import Strings.String Strings.Ascii Lists.List.
From Stdlib Require Import ZArith NArith Bool Arith Lia.
From Stdlib Require Import Numbers.DecimalString Sorting.Sorted.
Import ListNotations.

Local Open Scope list_scope.
Local Open Scope string_scope.

(** ** Characters and strings *)

Module Chars.

Definition code (c : ascii) : N := N_of_ascii c.

Definition LF : ascii := "010"%char.
Definition CR : ascii := "013"%char.
Definition TAB : ascii := "009"%char.
Definition ESC : ascii := "027"%char.
Definition SPACE : ascii := " "%char.
Definition BACKSLASH : ascii := "\"%char.
Definition DQUOTE : ascii := "034"%char.
Definition LBRACE : ascii := "{"%char.
Definition RBRACE : ascii := "}"%char.

(** [lo <= ord(c) <= hi], a regular-expression character range. *)
Definition in_range (lo hi : N) (c : ascii) : bool :=
  (lo <=? code c)%N && (code c <=? hi)%N.

(** [ord(c) < 32]. *)
Definition is_control (c : ascii) : bool := (code c <? 32)%N.

End Chars.
Import Chars.

(** One-character string. *)
Definition str1 (c : ascii) : string := String c EmptyString.

(** [needle in hay] on strings: substring test. *)
Fixpoint contains (needle hay : string) : bool :=
  String.prefix needle hay ||
  match hay with
  | EmptyString => false
  | String _ rest => contains needle rest
  end.

(** [c in s] for a single character. *)
Fixpoint has_char (c : ascii) (s : string) : bool :=
  match s with
  | EmptyString => false
  | String d rest => Ascii.eqb d c || has_char c rest
  end.

(** [s.count(c)] for a single character. *)
Fixpoint count_char (c : ascii) (s : string) : nat :=
  match s with
  | EmptyString => 0
  | String d rest => (if Ascii.eqb d c then 1 else 0) + count_char c rest
  end.

(** [s[n:]]. *)
Fixpoint drop_chars (n : nat) (s : string) : string :=
  match n, s with
  | S k, String _ rest => drop_chars k rest
  | _, _ => s
  end.

(** [s[:n]]. *)
Fixpoint take_chars (n : nat) (s : string) : string :=
  match n, s with
  | S k, String c rest => String c (take_chars k rest)
  | _, _ => EmptyString
  end.

(** Length of the longest prefix whose characters satisfy [p]. *)
Fixpoint span_len (p : ascii -> bool) (s : string) : nat :=
  match s with
  | String c rest => if p c then S (span_len p rest) else 0
  | EmptyString => 0
  end.

(** [sep.join(parts)]. *)
Fixpoint join (sep : string) (parts : list string) : string :=
  match parts with
  | [] => EmptyString
  | [p] => p
  | p :: rest => p ++ sep ++ join sep rest
  end.

(** ** Sanitizer: [sanitize_json_block] *)

(** The substitution [re.sub(r'\x1B[@-_][0-?]*[ -/]*[@-~]', '', block)].

    [ansi_tail s] is the number of characters after an ESC that belong to a
    match starting at that ESC, if there is one.  The three classes
    [0-?], [ -/] and [@-~] are pairwise disjoint, so the greedy runs are
    the only way to match: giving back a character of a run leaves a
    character of that run where a later class is expected
    ([ansi_tail_any_match], [ansi_tail_is_match]). *)
Definition ansi_tail (s : string) : option nat :=
  match s with
  | String c1 r1 =>
      if in_range 64 95 c1 then
        let n1 := span_len (in_range 48 63) r1 in
        let r2 := drop_chars n1 r1 in
        let n2 := span_len (in_range 32 47) r2 in
        match drop_chars n2 r2 with
        | String f _ => if in_range 64 126 f then Some (1 + n1 + n2 + 1) else None
        | EmptyString => None
        end
      else None
  | EmptyString => None
  end.

(** Leftmost non-overlapping matches are removed; [skip] counts the
    characters of the current match still to be dropped. *)
Fixpoint strip_ansi_from (skip : nat) (s : string) : string :=
  match s with
  | EmptyString => EmptyString
  | String c rest =>
      match skip with
      | S k => strip_ansi_from k rest
      | O =>
          if Ascii.eqb c ESC then
            match ansi_tail rest with
            | Some n => strip_ansi_from n rest
            | None => String c (strip_ansi_from 0 rest)
            end
          else String c (strip_ansi_from 0 rest)
      end
  end.

Definition strip_ansi (s : string) : string := strip_ansi_from 0 s.

(** The two flags of the scan loop. *)
Record scan_state : Type := ScanState { in_string : bool; escape_next : bool }.

Definition scan_init : scan_state := ScanState false false.

(** One iteration of [for ch in block]: the new flags and what is appended
    to [result]. *)
Definition scan_step (st : scan_state) (ch : ascii) : scan_state * string :=
  if escape_next st then
    (ScanState (in_string st) false, str1 ch)
  else if Ascii.eqb ch BACKSLASH then
    (ScanState (in_string st) true, str1 ch)
  else if Ascii.eqb ch DQUOTE then
    (ScanState (negb (in_string st)) false, str1 ch)
  else if in_string st then
    if Ascii.eqb ch LF then (st, String BACKSLASH (str1 "n"))
    else if Ascii.eqb ch CR then (st, String BACKSLASH (str1 "r"))
    else if is_control ch then (st, str1 SPACE)
    else (st, str1 ch)
  else
    if Ascii.eqb ch CR then (st, EmptyString)
    else if is_control ch && negb (Ascii.eqb ch LF || Ascii.eqb ch TAB)
    then (st, EmptyString)
    else (st, str1 ch).

(** The loop, from flags [st]: the characters appended to [result]. *)
Fixpoint scan (st : scan_state) (s : string) : string :=
  match s with
  | EmptyString => EmptyString
  | String ch rest =>
      let (st', out) := scan_step st ch in out ++ scan st' rest
  end.

(** The flags after the loop has consumed [s]. *)
Fixpoint scan_flags (st : scan_state) (s : string) : scan_state :=
  match s with
  | EmptyString => st
  | String ch rest => scan_flags (fst (scan_step st ch)) rest
  end.

Definition sanitize_json_block (block : string) : string :=
  scan scan_init (strip_ansi block).

(** ** Python values *)

(** A float as the decoder reads it: the decimal [(-1)^neg * m * 10^e] of
    the literal, before rounding, or one of the three constants. *)
Inductive pyfloat : Type :=
| FDec (neg : bool) (m : N) (e : Z)
| FNan
| FInf (neg : bool).

#[local] Set Warnings "-register-all".

Inductive pyval : Type :=
| PNone
| PBool (b : bool)
| PInt (z : Z)
| PFloat (f : pyfloat)
| PStr (s : string)
| PList (items : list pyval)
| PDict (entries : list (string * pyval)).

(** Exceptions the modelled code can raise. *)
Inductive pyexn : Type :=
| TypeError
| AttributeError
| IndexError
| KeyError
| ValueError (msg : string).

Inductive exc (A : Type) : Type :=
| Ok (a : A)
| Raise (e : pyexn).
Arguments Ok {A} a.
Arguments Raise {A} e.

Definition bind {A B : Type} (m : exc A) (k : A -> exc B) : exc B :=
  match m with
  | Ok a => k a
  | Raise e => Raise e
  end.

Notation "x <- m ;; k" := (bind m (fun x => k))
  (at level 61, m at next level, right associativity).

(** [try: m except Exception: d]. *)
Definition try_default {A : Type} (m : exc A) (d : A) : A :=
  match m with
  | Ok a => a
  | Raise _ => d
  end.

Module Dict.

(** Dictionaries keep insertion order; a key occurs once. *)
Definition t : Type := list (string * pyval).

Fixpoint get (k : string) (d : t) : option pyval :=
  match d with
  | [] => None
  | (k', v) :: rest => if String.eqb k' k then Some v else get k rest
  end.

Definition mem (k : string) (d : t) : bool :=
  match get k d with
  | Some _ => true
  | None => false
  end.

(** [d[k] = v]: replaces the value in place or appends a new entry. *)
Fixpoint set (k : string) (v : pyval) (d : t) : t :=
  match d with
  | [] => [(k, v)]
  | (k', v') :: rest =>
      if String.eqb k' k then (k', v) :: rest else (k', v') :: set k v rest
  end.

End Dict.

Definition is_none (v : pyval) : bool :=
  match v with
  | PNone => true
  | _ => false
  end.

Definition is_dict (v : pyval) : bool :=
  match v with
  | PDict _ => true
  | _ => false
  end.

(** Whether the literal rounds to a float other than zero: the smallest
    positive double is [2^-1074], and round-half-even sends everything up to
    and including [2^-1075] to zero. *)
Definition float_nonzero (f : pyfloat) : bool :=
  match f with
  | FDec _ m e =>
      if (m =? 0)%N then false
      else if (0 <=? e)%Z then true
      else (10 ^ (- e) <? Z.of_N m * 2 ^ 1075)%Z
  | FNan => true
  | FInf _ => true
  end.

(** Python truth value, as used by [if x], [x or y], [x and y], [not x]. *)
Definition truthy (v : pyval) : bool :=
  match v with
  | PNone => false
  | PBool b => b
  | PInt z => negb (z =? 0)%Z
  | PFloat f => float_nonzero f
  | PStr s => negb (String.eqb s EmptyString)
  | PList l => match l with [] => false | _ => true end
  | PDict d => match d with [] => false | _ => true end
  end.

(** [a or b]. *)
Definition py_or (a b : pyval) : pyval := if truthy a then a else b.

(** [k in obj] for a string [k]: key lookup on a mapping, element
    comparison on a list, substring test on a string, [TypeError] on the
    rest. *)
Definition py_in (k : string) (obj : pyval) : exc bool :=
  match obj with
  | PDict d => Ok (Dict.mem k d)
  | PList l =>
      Ok (existsb (fun v => match v with PStr s => String.eqb s k | _ => false end) l)
  | PStr s => Ok (contains k s)
  | _ => Raise TypeError
  end.

(** ** The decoder: [json.loads]

    [json.loads] is Python's standard decoder, called with its default
    options.  It is modelled as a lexer followed by a recursive-descent
    parser over the tokens.  The lexer reads maximal runs of literal
    characters as one word; two values are never adjacent in the grammar, so
    this accepts the same texts as matching each literal by prefix.  The
    limits of the interpreter (recursion depth, length of an integer
    literal) are not modelled. *)

Module Json.

Inductive token : Type :=
| TLBrace | TRBrace | TLBrack | TRBrack | TColon | TComma
| TValue (v : pyval).

Definition is_digit (c : ascii) : bool := in_range 48 57 c.

Definition is_space (c : ascii) : bool :=
  Ascii.eqb c SPACE || Ascii.eqb c TAB || Ascii.eqb c LF || Ascii.eqb c CR.

(** Characters of the literals [null], [true], [false], [NaN], [Infinity]
    and of numbers. *)
Definition is_word_char (c : ascii) : bool :=
  is_digit c || in_range 65 90 c || in_range 97 122 c
  || Ascii.eqb c "-" || Ascii.eqb c "+" || Ascii.eqb c ".".

Definition digit_val (c : ascii) : N := (code c - 48)%N.

Fixpoint digits_val (acc : N) (s : string) : N :=
  match s with
  | EmptyString => acc
  | String c rest => digits_val (10 * acc + digit_val c)%N rest
  end.

(** Splits off the longest prefix of digits. *)
Definition span_digits (s : string) : string * string :=
  let n := span_len is_digit s in (take_chars n s, drop_chars n s).

(** The exponent part (e or E, an optional sign, at least one digit), read
    to the end of the word. *)
Definition read_exponent (s : string) : option Z :=
  match s with
  | String c rest =>
      if Ascii.eqb c "e" || Ascii.eqb c "E" then
        let '(neg, body) :=
          match rest with
          | String sg r' =>
              if Ascii.eqb sg "-" then (true, r')
              else if Ascii.eqb sg "+" then (false, r')
              else (false, rest)
          | EmptyString => (false, rest)
          end in
        let '(ds, tl) := span_digits body in
        match ds, tl with
        | String _ _, EmptyString =>
            let v := Z.of_N (digits_val 0 ds) in
            Some (if neg then (- v)%Z else v)
        | _, _ => None
        end
      else None
  | EmptyString => None
  end.

(** A whole word as a number: an optional minus sign, an integer part
    without a leading zero (or the single digit 0), an optional fraction (a
    dot and at least one digit), an optional exponent.  An [int] when it has
    neither fraction nor exponent, a [float] otherwise. *)
Definition read_number (w : string) : option pyval :=
  let '(neg, body) :=
    match w with
    | String c rest => if Ascii.eqb c "-" then (true, rest) else (false, w)
    | EmptyString => (false, w)
    end in
  let '(ip, r1) := span_digits body in
  let int_ok :=
    match ip with
    | EmptyString => false
    | String d EmptyString => true
    | String d _ => negb (Ascii.eqb d "0")
    end in
  if negb int_ok then None
  else
    let '(fp, r2) :=
      match r1 with
      | String c rest =>
          if Ascii.eqb c "." then
            let '(ds, tl) := span_digits rest in (Some ds, tl)
          else (None, r1)
      | EmptyString => (None, r1)
      end in
    match fp with
    | Some EmptyString => None
    | _ =>
        let frac := match fp with Some ds => ds | None => EmptyString end in
        let mant := digits_val 0 (ip ++ frac) in
        let scale := Z.of_nat (String.length frac) in
        match r2 with
        | EmptyString =>
            match fp with
            | None =>
                Some (PInt (if neg then (- Z.of_N mant)%Z else Z.of_N mant))
            | Some _ => Some (PFloat (FDec neg mant (- scale)))
            end
        | _ =>
            match read_exponent r2 with
            | Some ex => Some (PFloat (FDec neg mant (ex - scale)))
            | None => None
            end
        end
    end.

Definition read_word (w : string) : option pyval :=
  if String.eqb w "null" then Some PNone
  else if String.eqb w "true" then Some (PBool true)
  else if String.eqb w "false" then Some (PBool false)
  else if String.eqb w "NaN" then Some (PFloat FNan)
  else if String.eqb w "Infinity" then Some (PFloat (FInf false))
  else if String.eqb w "-Infinity" then Some (PFloat (FInf true))
  else read_number w.

Definition hex_val (c : ascii) : option N :=
  if is_digit c then Some (code c - 48)%N
  else if in_range 97 102 c then Some (code c - 87)%N
  else if in_range 65 70 c then Some (code c - 55)%N
  else None.

Definition byte (n : N) : ascii := ascii_of_N (n mod 256).

(** UTF-8 encoding of a code point (a lone surrogate is written with the
    three-byte pattern). *)
Definition utf8 (cp : N) : string :=
  if (cp <? 128)%N then str1 (byte cp)
  else if (cp <? 2048)%N then
    String (byte (192 + cp / 64)) (str1 (byte (128 + cp mod 64)))
  else if (cp <? 65536)%N then
    String (byte (224 + cp / 4096))
      (String (byte (128 + (cp / 64) mod 64)) (str1 (byte (128 + cp mod 64))))
  else
    String (byte (240 + cp / 262144))
      (String (byte (128 + (cp / 4096) mod 64))
         (String (byte (128 + (cp / 64) mod 64)) (str1 (byte (128 + cp mod 64))))).

Definition is_high_surrogate (cp : N) : bool := (55296 <=? cp)%N && (cp <=? 56319)%N.
Definition is_low_surrogate (cp : N) : bool := (56320 <=? cp)%N && (cp <=? 57343)%N.

(** Where the lexer is: between tokens, inside a word, inside a string
    literal ([hi] is a high surrogate waiting for its low half), after a
    backslash, inside the four hex digits of a [\u] escape. *)
Inductive lex_mode : Type :=
| LDefault
| LWord (w : string)
| LStr (acc : string) (hi : option N)
| LEsc (acc : string) (hi : option N)
| LHex (acc : string) (hi : option N) (todo : nat) (v : N).

Definition flush (acc : string) (hi : option N) : string :=
  match hi with
  | Some h => acc ++ utf8 h
  | None => acc
  end.

Definition simple_escape (c : ascii) : option ascii :=
  if Ascii.eqb c DQUOTE then Some DQUOTE
  else if Ascii.eqb c BACKSLASH then Some BACKSLASH
  else if Ascii.eqb c "/" then Some "/"%char
  else if Ascii.eqb c "b" then Some "008"%char
  else if Ascii.eqb c "f" then Some "012"%char
  else if Ascii.eqb c "n" then Some LF
  else if Ascii.eqb c "r" then Some CR
  else if Ascii.eqb c "t" then Some TAB
  else None.

(** A completed [\uXXXX] escape with value [cp]. *)
Definition end_unicode (acc : string) (hi : option N) (cp : N) : lex_mode :=
  match hi with
  | Some h =>
      if is_low_surrogate cp then
        LStr (acc ++ utf8 (65536 + (h - 55296) * 1024 + (cp - 56320))) None
      else if is_high_surrogate cp then LStr (acc ++ utf8 h) (Some cp)
      else LStr (acc ++ utf8 h ++ utf8 cp) None
  | None =>
      if is_high_surrogate cp then LStr acc (Some cp)
      else LStr (acc ++ utf8 cp) None
  end.

(** A character read between tokens; [toks] is the reversed output. *)
Definition lex_default (toks : list token) (c : ascii)
  : option (lex_mode * list token) :=
  if is_space c then Some (LDefault, toks)
  else if Ascii.eqb c "{" then Some (LDefault, TLBrace :: toks)
  else if Ascii.eqb c "}" then Some (LDefault, TRBrace :: toks)
  else if Ascii.eqb c "[" then Some (LDefault, TLBrack :: toks)
  else if Ascii.eqb c "]" then Some (LDefault, TRBrack :: toks)
  else if Ascii.eqb c ":" then Some (LDefault, TColon :: toks)
  else if Ascii.eqb c "," then Some (LDefault, TComma :: toks)
  else if Ascii.eqb c DQUOTE then Some (LStr EmptyString None, toks)
  else if is_word_char c then Some (LWord (str1 c), toks)
  else None.

Definition lex_step (mode : lex_mode) (toks : list token) (c : ascii)
  : option (lex_mode * list token) :=
  match mode with
  | LDefault => lex_default toks c
  | LWord w =>
      if is_word_char c then Some (LWord (w ++ str1 c), toks)
      else
        match read_word w with
        | Some v => lex_default (TValue v :: toks) c
        | None => None
        end
  | LStr acc hi =>
      if Ascii.eqb c DQUOTE then Some (LDefault, TValue (PStr (flush acc hi)) :: toks)
      else if Ascii.eqb c BACKSLASH then Some (LEsc acc hi, toks)
      else if is_control c then None
      else Some (LStr (flush acc hi ++ str1 c) None, toks)
  | LEsc acc hi =>
      if Ascii.eqb c "u" then Some (LHex acc hi 4 0%N, toks)
      else
        match simple_escape c with
        | Some d => Some (LStr (flush acc hi ++ str1 d) None, toks)
        | None => None
        end
  | LHex acc hi todo v =>
      match hex_val c with
      | Some d =>
          let v' := (16 * v + d)%N in
          match todo with
          | S (S k) => Some (LHex acc hi (S k) v', toks)
          | _ => Some (end_unicode acc hi v', toks)
          end
      | None => None
      end
  end.

Fixpoint lex_from (mode : lex_mode) (toks : list token) (s : string)
  : option (list token) :=
  match s with
  | EmptyString =>
      match mode with
      | LDefault => Some (rev toks)
      | LWord w =>
          match read_word w with
          | Some v => Some (rev (TValue v :: toks))
          | None => None
          end
      | _ => None
      end
  | String c rest =>
      match lex_step mode toks c with
      | Some (mode', toks') => lex_from mode' toks' rest
      | None => None
      end
  end.

Definition lex (s : string) : option (list token) := lex_from LDefault [] s.

(** The parser.  Python's decoder recurses once per nesting level; here the
    recursion is bounded by [fuel], which [loads] sets from the number of
    tokens.  A repeated key keeps its first position and its last value, as
    [dict(pairs)] does. *)
Fixpoint parse_value (fuel : nat) (ts : list token) : option (pyval * list token) :=
  match fuel with
  | O => None
  | S f =>
      match ts with
      | TValue v :: r => Some (v, r)
      | TLBrack :: TRBrack :: r => Some (PList [], r)
      | TLBrack :: r => parse_elems f [] r
      | TLBrace :: TRBrace :: r => Some (PDict [], r)
      | TLBrace :: r => parse_members f [] r
      | _ => None
      end
  end
with parse_elems (fuel : nat) (acc : list pyval) (ts : list token)
  : option (pyval * list token) :=
  match fuel with
  | O => None
  | S f =>
      match parse_value f ts with
      | Some (v, TComma :: r) => parse_elems f (acc ++ [v])%list r
      | Some (v, TRBrack :: r) => Some (PList (acc ++ [v])%list, r)
      | _ => None
      end
  end
with parse_members (fuel : nat) (acc : Dict.t) (ts : list token)
  : option (pyval * list token) :=
  match fuel with
  | O => None
  | S f =>
      match ts with
      | TValue (PStr k) :: TColon :: r =>
          match parse_value f r with
          | Some (v, TComma :: r') => parse_members f (Dict.set k v acc) r'
          | Some (v, TRBrace :: r') => Some (PDict (Dict.set k v acc), r')
          | _ => None
          end
      | _ => None
      end
  end.

(** [json.loads(s)]: [None] stands for a raised decoding error. *)
Definition loads (s : string) : option pyval :=
  match lex s with
  | Some ts =>
      match parse_value (2 * List.length ts + 2) ts with
      | Some (v, []) => Some v
      | _ => None
      end
  | None => None
  end.

End Json.

(** ** Brace-balanced collector: [collect_json_from_line_list] *)

(** Python's one-character whitespace in the ASCII range: tab to carriage
    return, the four separators 28 to 31, and the space. *)
Definition is_py_space (c : ascii) : bool :=
  in_range 9 13 c || in_range 28 31 c || Ascii.eqb c SPACE.

(** The UTF-8 encodings of the other whitespace characters of [str.lstrip]:
    U+0085 and U+00A0 on two bytes; U+1680, U+2000 to U+200A, U+2028,
    U+2029, U+202F, U+205F and U+3000 on three. *)
Definition is_py_space2 (a b : ascii) : bool :=
  (code a =? 194)%N && ((code b =? 133)%N || (code b =? 160)%N).

Definition is_py_space3 (a b c : ascii) : bool :=
  ((code a =? 225)%N && (code b =? 154)%N && (code c =? 128)%N)
  || ((code a =? 226)%N && (code b =? 128)%N
      && (in_range 128 138 c || in_range 168 169 c || (code c =? 175)%N))
  || ((code a =? 226)%N && (code b =? 129)%N && (code c =? 159)%N)
  || ((code a =? 227)%N && (code b =? 128)%N && (code c =? 128)%N).

(** [s.lstrip()]. *)
Fixpoint lstrip (s : string) : string :=
  match s with
  | EmptyString => EmptyString
  | String a r1 =>
      if is_py_space a then lstrip r1
      else
        match r1 with
        | EmptyString => s
        | String b r2 =>
            if is_py_space2 a b then lstrip r2
            else
              match r2 with
              | EmptyString => s
              | String c r3 => if is_py_space3 a b c then lstrip r3 else s
              end
        end
  end.

(** [s.startswith(c)] for a single character. *)
Definition starts_with_char (c : ascii) (s : string) : bool :=
  match s with
  | String d _ => Ascii.eqb d c
  | EmptyString => false
  end.

(** The first loop, over [lines[start_index:]]: the stripped first line that
    starts with a brace, and the lines after it. *)
Fixpoint find_json_start (ls : list string) : option (string * list string) :=
  match ls with
  | [] => None
  | l :: rest =>
      let stripped := lstrip l in
      if starts_with_char LBRACE stripped then Some (stripped, rest)
      else find_json_start rest
  end.

(** The second loop: [brace_count], [collected] and [started] are its three
    variables; the result is [raw_block] when the balance returns to zero,
    [None] when the lines run out first. *)
Fixpoint accumulate (brace_count : Z) (collected : list string) (started : bool)
    (ls : list string) : option string :=
  match ls with
  | [] => None
  | line :: rest =>
      let collected' := (collected ++ [line])%list in
      let brace_count' :=
        (brace_count + Z.of_nat (count_char LBRACE line)
                     - Z.of_nat (count_char RBRACE line))%Z in
      let started' := started || has_char LBRACE line in
      if started' && (brace_count' =? 0)%Z
      then Some (join (str1 LF) collected')
      else accumulate brace_count' collected' started' rest
  end.

(** The candidate block the collector assembles, if it assembles one. *)
Definition collect_block (lines : list string) (start_index : nat) : option string :=
  match find_json_start (skipn start_index lines) with
  | None => None
  | Some (first_line, rest) => accumulate 0 [] false (first_line :: rest)
  end.

(** The collector: [PNone] when no block is found and when decoding fails
    (the exception is caught and reported on the console). *)
Definition collect_json_from_line_list (lines : list string) (start_index : nat)
  : pyval :=
  match collect_block lines start_index with
  | None => PNone
  | Some raw_block =>
      match Json.loads (sanitize_json_block raw_block) with
      | Some v => v
      | None => PNone
      end
  end.

(** ** Marker locator and extractor: [extract_json_after_marker] *)

(** [line[line.index(c):]], the line from its first [c] on. *)
Fixpoint from_first (c : ascii) (line : string) : string :=
  match line with
  | EmptyString => EmptyString
  | String d rest => if Ascii.eqb d c then line else from_first c rest
  end.

(** The indices [i], from [base] on, of the lines that satisfy [p]. *)
Fixpoint indices_from (p : string -> bool) (base : nat) (lines : list string)
  : list nat :=
  match lines with
  | [] => []
  | l :: rest =>
      if p l then base :: indices_from p (S base) rest
      else indices_from p (S base) rest
  end.

Definition matching_indices (p : string -> bool) (lines : list string) : list nat :=
  indices_from p 0 lines.

(** What is collected for the match at line [i]: from the first brace of
    the line itself when it has one, from the next line otherwise. *)
Definition object_at (lines : list string) (i : nat) : pyval :=
  match nth_error lines i with
  | Some line =>
      if has_char LBRACE line then
        collect_json_from_line_list (from_first LBRACE line :: skipn (S i) lines) 0
      else collect_json_from_line_list lines (S i)
  | None => PNone
  end.

(** [all(k in obj for k in require_keys)]. *)
Fixpoint has_all_keys (require_keys : list string) (obj : pyval) : exc bool :=
  match require_keys with
  | [] => Ok true
  | k :: rest =>
      b <- py_in k obj ;;
      if b then has_all_keys rest obj else Ok false
  end.

(** The loop [for i in indices]. *)
Fixpoint first_acceptable (lines : list string) (require_keys : list string)
    (indices : list nat) : exc pyval :=
  match indices with
  | [] => Ok PNone
  | i :: rest =>
      let obj := object_at lines i in
      if is_none obj then first_acceptable lines require_keys rest
      else
        match require_keys with
        | [] => Ok obj
        | _ =>
            ok <- has_all_keys require_keys obj ;;
            if ok then Ok obj else first_acceptable lines require_keys rest
        end
  end.

(** [require_keys] is the empty list when the argument is left out: both
    are false for [if require_keys]. *)
Definition extract_json_after_marker (lines : list string) (marker : string)
    (require_keys : list string) (first : bool) : exc pyval :=
  let indices := matching_indices (contains marker) lines in
  match indices with
  | [] => Ok PNone
  | _ => first_acceptable lines require_keys (if first then indices else rev indices)
  end.

(** [json_contains_carrier_groups]. *)
Fixpoint json_contains_carrier_groups (obj : pyval) : bool :=
  match obj with
  | PDict d =>
      Dict.mem "carrierGroups" d ||
      (fix any_value (es : list (string * pyval)) : bool :=
         match es with
         | [] => false
         | (_, v) :: rest => json_contains_carrier_groups v || any_value rest
         end) d
  | PList l =>
      (fix any_item (vs : list pyval) : bool :=
         match vs with
         | [] => false
         | v :: rest => json_contains_carrier_groups v || any_item rest
         end) l
  | _ => false
  end.

(** ** Payload resolver: the two halves of [parse_log_file] *)

(** The line boundaries of [str.splitlines]: line feed, vertical tab, form
    feed, carriage return and the separators 28 to 30 on one byte; U+0085
    on two; U+2028 and U+2029 on three. *)
Definition is_line_break (c : ascii) : bool :=
  in_range 10 13 c || in_range 28 30 c.

Definition is_line_break2 (a b : ascii) : bool :=
  (code a =? 194)%N && (code b =? 133)%N.

Definition is_line_break3 (a b c : ascii) : bool :=
  (code a =? 226)%N && (code b =? 128)%N && in_range 168 169 c.

(** [text.splitlines()]; [current] is the line being read.  A carriage
    return followed by a line feed is one boundary, and a text that ends
    with a boundary has no empty last line. *)
Fixpoint splitlines_from (current : string) (text : string) : list string :=
  match text with
  | EmptyString =>
      match current with
      | EmptyString => []
      | _ => [current]
      end
  | String a r1 =>
      if Ascii.eqb a CR then
        match r1 with
        | String b r2 =>
            if Ascii.eqb b LF then current :: splitlines_from EmptyString r2
            else current :: splitlines_from EmptyString r1
        | EmptyString => current :: splitlines_from EmptyString r1
        end
      else if is_line_break a then current :: splitlines_from EmptyString r1
      else
        match r1 with
        | String b r2 =>
            if is_line_break2 a b then current :: splitlines_from EmptyString r2
            else
              match r2 with
              | String c r3 =>
                  if is_line_break3 a b c
                  then current :: splitlines_from EmptyString r3
                  else splitlines_from (current ++ str1 a) r1
              | EmptyString => splitlines_from (current ++ str1 a) r1
              end
        | EmptyString => splitlines_from (current ++ str1 a) r1
        end
  end.

Definition splitlines (text : string) : list string :=
  splitlines_from EmptyString text.

(** [s.lower()].  Only the ASCII letters are mapped.  The results are only
    searched for, or compared with, ASCII words, and of the characters
    outside ASCII only two lower to something that holds an ASCII letter:
    U+212A gives k, which no such word holds, and U+0130 gives i followed by
    U+0307, where every such word has a letter after its i. *)
Definition lower_char (c : ascii) : ascii :=
  if in_range 65 90 c then ascii_of_N (code c + 32) else c.

Fixpoint lower (s : string) : string :=
  match s with
  | EmptyString => EmptyString
  | String c rest => String (lower_char c) (lower rest)
  end.

(** The guard [if x is None: x = next]. *)
Definition if_none (current : pyval) (next : exc pyval) : exc pyval :=
  if is_none current then next else Ok current.

(** A sequence of such guarded assignments to one variable, whose value is
    [current] before the first. *)
Fixpoint try_in_order (current : pyval) (strategies : list (exc pyval)) : exc pyval :=
  match strategies with
  | [] => Ok current
  | next :: rest => r <- if_none current next ;; try_in_order r rest
  end.

(** *** Request side *)

Inductive request_tier : Type :=
| ReqShopify | ReqBigCommerce | ReqGraphQL | ReqTag | ReqGeneric.

Definition generic_request_line (line : string) : bool :=
  contains "Converted" line && contains "request to" line
  && negb (contains "shopify" (lower line))
  && negb (contains "bigcommerce" (lower line)).

(** The condition [obj and "cart" in obj and "destination" in obj]. *)
Definition generic_request_ok (obj : pyval) : exc bool :=
  if truthy obj then
    c <- py_in "cart" obj ;;
    if c then py_in "destination" obj else Ok false
  else Ok false.

(** The loop of the generic strategy over the lines that satisfy the
    condition on the line. *)
Fixpoint generic_request (lines : list string) (indices : list nat) : exc pyval :=
  match indices with
  | [] => Ok PNone
  | i :: rest =>
      ok <- generic_request_ok (object_at lines i) ;;
      if ok then Ok (object_at lines i) else generic_request lines rest
  end.

Definition request_strategy (t : request_tier) (lines : list string) : exc pyval :=
  match t with
  | ReqShopify =>
      extract_json_after_marker lines "Converted shopify request to"
        ["cart"; "destination"] true
  | ReqBigCommerce =>
      extract_json_after_marker lines "Converted bigcommerce request to"
        ["cart"; "destination"] true
  | ReqGraphQL =>
      extract_json_after_marker lines "REST Request after GraphQL Unmarshalling"
        ["cart"] true
  | ReqTag =>
      extract_json_after_marker lines "[REQUEST]:" ["cart"] true
  | ReqGeneric =>
      generic_request lines (matching_indices generic_request_line lines)
  end.

Definition request_error : pyexn :=
  ValueError "Could not extract request JSON from this log.".

Definition request_tiers : list request_tier :=
  [ReqShopify; ReqBigCommerce; ReqGraphQL; ReqTag; ReqGeneric].

(** [request_json = None], the five guarded strategies, and the final test. *)
Definition resolve_request (lines : list string) : exc pyval :=
  request_json <-
    try_in_order PNone (map (fun t => request_strategy t lines) request_tiers) ;;
  if is_none request_json then Raise request_error else Ok request_json.

(** *** Response side *)

Inductive response_tier : Type :=
| RespShopify | RespBigCommerce | RespGraphQL | RespTag | RespGeneric.

(** [if response_json and not json_contains_carrier_groups(response_json):
    response_json = None]. *)
Definition keep_if_carrier_groups (response_json : pyval) : pyval :=
  if truthy response_json && negb (json_contains_carrier_groups response_json)
  then PNone else response_json.

Definition adapted_response (lines : list string) (marker : string) (first : bool)
  : exc pyval :=
  r <- extract_json_after_marker lines marker [] first ;;
  Ok (keep_if_carrier_groups r).

Definition generic_response_line (line : string) : bool :=
  contains "Adapting the following rate response to" line
  && negb (contains "shopify response" (lower line)
           || contains "bigcommerce response" (lower line)).

Fixpoint generic_response (lines : list string) (indices : list nat) : pyval :=
  match indices with
  | [] => PNone
  | i :: rest =>
      let obj := object_at lines i in
      if truthy obj && json_contains_carrier_groups obj then obj
      else generic_response lines rest
  end.

Definition shopify_response_marker : string :=
  "Adapting the following rate response to shopify response".

Definition response_strategy (t : response_tier) (lines : list string) : exc pyval :=
  match t with
  | RespShopify => adapted_response lines shopify_response_marker false
  | RespBigCommerce =>
      adapted_response lines
        "Adapting the following rate response to bigcommerce response" false
  | RespGraphQL =>
      adapted_response lines "REST Response before GraphQL Marshalling" true
  | RespTag => adapted_response lines "[RESPONSE]:" true
  | RespGeneric =>
      Ok (generic_response lines (matching_indices generic_response_line lines))
  end.

Definition response_error : pyexn :=
  ValueError "Could not extract response JSON from this log.".

Definition response_tiers : list response_tier :=
  [RespShopify; RespBigCommerce; RespGraphQL; RespTag; RespGeneric].

(** [response_json = None], the five guarded strategies, and the final
    test. *)
Definition resolve_response (lines : list string) : exc pyval :=
  response_json <-
    try_in_order PNone (map (fun t => response_strategy t lines) response_tiers) ;;
  if is_none response_json then Raise response_error else Ok response_json.

(** The pair [(request_json, response_json)] that [parse_log_file] hands to
    [extract_fields]. *)
Definition resolve_payloads (lines : list string) : exc (pyval * pyval) :=
  request_json <- resolve_request lines ;;
  response_json <- resolve_response lines ;;
  Ok (request_json, response_json).

(** ** Field normaliser: [extract_fields] *)

(** [obj.get(k, default)]: only a dictionary has the method. *)
Definition py_get (obj : pyval) (k : string) (default : pyval) : exc pyval :=
  match obj with
  | PDict d =>
      Ok (match Dict.get k d with Some v => v | None => default end)
  | _ => Raise AttributeError
  end.

(** [d.get(k, default)] on a value known to be a dictionary. *)
Definition get_or (d : Dict.t) (k : string) (default : pyval) : pyval :=
  match Dict.get k d with
  | Some v => v
  | None => default
  end.

Fixpoint chars_of (s : string) : list pyval :=
  match s with
  | EmptyString => []
  | String c rest => PStr (str1 c) :: chars_of rest
  end.

(** The items of [for x in v]: the elements of a list, the keys of a
    dictionary, the characters of a string; the other values are not
    iterable.  (No code below distinguishes the characters of a string
    from one another.) *)
Definition py_iter (v : pyval) : exc (list pyval) :=
  match v with
  | PList l => Ok l
  | PDict d => Ok (map (fun kv => PStr (fst kv)) d)
  | PStr s => Ok (chars_of s)
  | _ => Raise TypeError
  end.

(** [v.lower()]: only a string has the method. *)
Definition py_lower (v : pyval) : exc string :=
  match v with
  | PStr s => Ok (lower s)
  | _ => Raise AttributeError
  end.

(** [obj[k]] for a string key. *)
Definition subscript_key (obj : pyval) (k : string) : exc pyval :=
  match obj with
  | PDict d =>
      match Dict.get k d with
      | Some v => Ok v
      | None => Raise KeyError
      end
  | _ => Raise TypeError
  end.

(** [obj[0]].  For a string this is its first character; the code that
    follows only has use for a dictionary there. *)
Definition subscript_zero (obj : pyval) : exc pyval :=
  match obj with
  | PList (x :: _) => Ok x
  | PList [] => Raise IndexError
  | PStr (String c _) => Ok (PStr (str1 c))
  | PStr EmptyString => Raise IndexError
  | PDict _ => Raise KeyError
  | _ => Raise TypeError
  end.

Record cart_item : Type := CartItem {
  product : pyval;
  qty : pyval;
  weight : pyval;
  value : pyval;
  shipping_group : pyval;
  dim_group : pyval;
  dimensions : string
}.

Record method_entry : Type := MethodEntry {
  carrier : pyval;
  service_name : pyval;
  base : pyval;
  final : pyval;
  handling : pyval;
  negotiated : pyval;
  address_type : pyval;
  flat_rules : pyval;
  change_rules : pyval;
  packing : pyval;
  blocked_reasons : pyval;
  error_message : pyval
}.

Record summary : Type := Summary {
  ship_from : pyval;
  ship_to : pyval;
  cart : list cart_item;
  methods : list method_entry
}.

(** The five variables the attribute loop assigns. *)
Record attr_vars : Type := AttrVars {
  v_length : pyval;
  v_width : pyval;
  v_height : pyval;
  v_shipping_group : pyval;
  v_dim_group : pyval
}.

Definition attr_init : attr_vars :=
  AttrVars PNone PNone PNone (PStr "N/A") (PStr "N/A").

(** What a loop has appended to [methods], and the exception that stopped
    it, if one did: the entries appended before an exception stay in the
    list. *)
Definition run : Type := (list method_entry * option pyexn)%type.

Definition then_run (first : run) (next : run) : run :=
  match first with
  | (es, Some e) => (es, Some e)
  | (es, None) => ((es ++ fst next)%list, snd next)
  end.

(** [pick_shipments]. *)
Fixpoint pick_shipments (sources : list pyval) : pyval :=
  match sources with
  | [] => PList []
  | src :: rest =>
      match src with
      | PDict d =>
          match Dict.get "shipments" d with
          | Some (PList (x :: l)) => PList (x :: l)
          | _ => pick_shipments rest
          end
      | _ => pick_shipments rest
      end
  end.

Section FieldNormalizer.

(** The text [str(v)] of a float, a list or a dictionary, which the model
    leaves open. *)
Variable repr_other : pyval -> string.

(** [str(v)], also the text an f-string puts for [v]. *)
Definition py_str (v : pyval) : string :=
  match v with
  | PStr s => s
  | PNone => "None"
  | PBool true => "True"
  | PBool false => "False"
  | PInt z => NilZero.string_of_int (Z.to_int z)
  | _ => repr_other v
  end.

(** The value of the attribute: [values], joined, when it is a non-empty
    list and the joined text is not empty; [value] otherwise. *)
Definition attr_value (vals val : pyval) : pyval :=
  match vals with
  | PList (x :: l) =>
      py_or (PStr (join ", " (map py_str (filter (fun v => negb (is_none v)) (x :: l)))))
            val
  | _ => val
  end.

Definition name_in (name : string) (names : list string) : bool :=
  existsb (String.eqb name) names.

(** One iteration of [for attr in item.get("attributes", [])]. *)
Definition attr_step (st : attr_vars) (attr : pyval) : exc attr_vars :=
  n <- py_get attr "name" PNone ;;
  name <- py_lower (py_or n (PStr "")) ;;
  vals <- py_get attr "values" PNone ;;
  val0 <- py_get attr "value" PNone ;;
  let val := attr_value vals val0 in
  Ok (if String.eqb name "shipperhq_shipping_group" then
        AttrVars (v_length st) (v_width st) (v_height st)
                 (py_or val (PStr "N/A")) (v_dim_group st)
      else if String.eqb name "shipperhq_dim_group" then
        AttrVars (v_length st) (v_width st) (v_height st)
                 (v_shipping_group st) (py_or val (PStr "N/A"))
      else if name_in name ["ship_length"; "shipperhq_length"; "length"] then
        AttrVars val (v_width st) (v_height st)
                 (v_shipping_group st) (v_dim_group st)
      else if name_in name ["ship_width"; "shipperhq_width"; "width"] then
        AttrVars (v_length st) val (v_height st)
                 (v_shipping_group st) (v_dim_group st)
      else if name_in name ["ship_height"; "shipperhq_height"; "height"] then
        AttrVars (v_length st) (v_width st) val
                 (v_shipping_group st) (v_dim_group st)
      else st).

Fixpoint attr_loop (st : attr_vars) (attrs : list pyval) : exc attr_vars :=
  match attrs with
  | [] => Ok st
  | a :: rest => st' <- attr_step st a ;; attr_loop st' rest
  end.

(** The resolved attribute values of a cart item. *)
Definition resolve_attributes (item : pyval) : exc attr_vars :=
  attrs <- py_get item "attributes" (PList []) ;;
  attr_list <- py_iter attrs ;;
  attr_loop attr_init attr_list.

Definition render_dimensions (st : attr_vars) : string :=
  if truthy (v_length st) && truthy (v_width st) && truthy (v_height st)
  then py_str (v_length st) ++ "x" ++ py_str (v_width st) ++ "x" ++ py_str (v_height st)
  else "N/A".

(** The body of [for item in ...]: the record appended to [cart_items]. *)
Definition normalize_item (item : pyval) : exc cart_item :=
  st <- resolve_attributes item ;;
  sku <- py_get item "sku" PNone ;;
  q <- py_get item "qty" PNone ;;
  w <- py_get item "weight" PNone ;;
  total <- py_get item "rowTotal" PNone ;;
  Ok (CartItem sku q w total (v_shipping_group st) (v_dim_group st)
        (render_dimensions st)).

(** The loop stops at the first exception and keeps what it has appended. *)
Fixpoint cart_loop (items : list pyval) : list cart_item :=
  match items with
  | [] => []
  | item :: rest =>
      match normalize_item item with
      | Ok ci => ci :: cart_loop rest
      | Raise _ => []
      end
  end.

Definition extract_cart (request_json : pyval) : list cart_item :=
  match (c <- py_get request_json "cart" (PDict []) ;;
         items <- py_get c "items" (PList []) ;;
         py_iter items) with
  | Ok items => cart_loop items
  | Raise _ => []
  end.

End FieldNormalizer.

(** The entry appended for one rate [r] of [carrier]. *)
Definition rate_entry (carrier_json : pyval) (carrier_name : pyval) (r : Dict.t)
  : exc method_entry :=
  o <- py_get (py_or (get_or r "selectedOptions" PNone) (PDict [])) "options" PNone ;;
  let options := py_or o (PList []) in
  addr <- match options with
          | PList (opt :: _) => py_get opt "value" PNone
          | _ => Ok PNone
          end ;;
  let shipments := pick_shipments [PDict r; carrier_json] in
  Ok (MethodEntry carrier_name
        (get_or r "name" PNone)
        (get_or r "origShippingPrice" (get_or r "totalCharges" PNone))
        (get_or r "shippingPrice" PNone)
        (get_or r "handlingFee" PNone)
        (get_or r "negotiatedRate" (PBool false))
        addr
        (get_or r "flatRulesApplied" (PList []))
        (get_or r "changeRulesApplied" (PList []))
        shipments
        (PList [])
        (PStr "")).

(** The loop [for r in rates]. *)
Fixpoint rates_loop (carrier_json : pyval) (carrier_name : pyval) (rates : list pyval)
  : run :=
  match rates with
  | [] => ([], None)
  | PDict r :: rest =>
      match rate_entry carrier_json carrier_name r with
      | Ok e => then_run ([e], None) (rates_loop carrier_json carrier_name rest)
      | Raise x => ([], Some x)
      end
  | _ :: rest => rates_loop carrier_json carrier_name rest
  end.

(** The values [prevent] and [err_msg] of the branch [if not rates]. *)
Definition prevent_rules (c : Dict.t) : pyval :=
  py_or (get_or c "preventRulesApplied" PNone) (PList []).

Definition carrier_error_message (c : Dict.t) : exc pyval :=
  let err := py_or (get_or c "error" PNone) (PDict []) in
  internal <- py_get err "internalErrorMessage" PNone ;;
  external <- py_get err "externalErrorMessage" PNone ;;
  Ok (py_or internal (py_or external (PStr ""))).

(** The entry appended for a carrier without rates. *)
Definition blocked_entry (c : Dict.t) (carrier_name prevent err_msg : pyval)
  : method_entry :=
  MethodEntry carrier_name
    (py_or (get_or c "carrierTitle" PNone) carrier_name)
    PNone PNone PNone
    (get_or c "negotiatedRate" (PBool false))
    PNone (PList []) (PList [])
    (pick_shipments [PDict c])
    prevent err_msg.

Definition no_rates_run (c : Dict.t) (carrier_name : pyval) : run :=
  let prevent := prevent_rules c in
  match carrier_error_message c with
  | Ok err_msg =>
      if truthy prevent || truthy err_msg
      then ([blocked_entry c carrier_name prevent err_msg], None)
      else ([], None)
  | Raise x => ([], Some x)
  end.

Definition carrier_display_name (c : Dict.t) : pyval :=
  py_or (get_or c "carrierName" PNone)
        (py_or (get_or c "carrierTitle" PNone) (PStr "Unknown Carrier")).

(** The body of [for carrier in group.get("carrierRates", [])]. *)
Definition carrier_run (carrier_json : pyval) : run :=
  match carrier_json with
  | PDict c =>
      let carrier_name := carrier_display_name c in
      let rates := py_or (get_or c "rates" PNone) (PList []) in
      match py_iter rates with
      | Ok rs =>
          then_run (rates_loop carrier_json carrier_name rs)
                   (if truthy rates then ([], None) else no_rates_run c carrier_name)
      | Raise x => ([], Some x)
      end
  | _ => ([], None)
  end.

Fixpoint carriers_loop (carriers : list pyval) : run :=
  match carriers with
  | [] => ([], None)
  | c :: rest => then_run (carrier_run c) (carriers_loop rest)
  end.

(** The body of [for group in response_json.get("carrierGroups", [])]. *)
Definition group_run (group : pyval) : run :=
  match group with
  | PDict g =>
      match py_iter (get_or g "carrierRates" (PList [])) with
      | Ok cs => carriers_loop cs
      | Raise x => ([], Some x)
      end
  | _ => ([], None)
  end.

Fixpoint groups_loop (groups : list pyval) : run :=
  match groups with
  | [] => ([], None)
  | g :: rest => then_run (group_run g) (groups_loop rest)
  end.

Definition extract_methods (response_json : pyval) : list method_entry :=
  match (cg <- py_get response_json "carrierGroups" (PList []) ;; py_iter cg) with
  | Ok groups => fst (groups_loop groups)
  | Raise _ => []
  end.

Definition extract_ship_from (response_json : pyval) : pyval :=
  try_default
    (cg <- subscript_key response_json "carrierGroups" ;;
     g <- subscript_zero cg ;;
     detail <- subscript_key g "carrierGroupDetail" ;;
     subscript_key detail "originAddress")
    (PDict []).

Definition extract_ship_to (request_json : pyval) : pyval :=
  try_default (subscript_key request_json "destination") (PDict []).

Section Processing.

Variable repr_other : pyval -> string.

Definition extract_fields (request_json response_json : pyval) : summary :=
  Summary (extract_ship_from response_json)
          (extract_ship_to request_json)
          (extract_cart repr_other request_json)
          (extract_methods response_json).

(** [parse_log_file], from the text read from the file on. *)
Definition parse_log_file (text : string) : exc summary :=
  let lines := splitlines text in
  payloads <- resolve_payloads lines ;;
  Ok (extract_fields (fst payloads) (snd payloads)).

(** *** The processing step of the main block

    The report renderer is an external collaborator: [generate_report] is
    any function from summaries to report texts that may raise.  [out_path]
    is the path of the report file, built from the directory of the log and
    the current time. *)
Variable generate_report : summary -> exc string.
Variable out_path : string.

(** What the run leaves behind: the exit status of the process, the file it
    wrote, and the exception it reported on the console. *)
Record outcome : Type := Outcome {
  exit_code : Z;
  written : option (string * string);
  reported : option pyexn
}.

(** The [try] block and its handler; a script that runs to its end exits
    with status 0. *)
Definition process_log (text : string) : outcome :=
  match (s <- parse_log_file text ;; generate_report s) with
  | Ok report => Outcome 0 (Some (out_path, report)) None
  | Raise e => Outcome 1 None (Some e)
  end.

End Processing.

(** ** Report tables: [build_table] *)

(** [len(s)]: the number of code points of the text, which the model holds
    as UTF-8; every byte but a continuation byte (10xxxxxx) starts one. *)
Fixpoint py_len (s : string) : nat :=
  match s with
  | EmptyString => 0
  | String c rest => (if in_range 128 191 c then 0 else 1) + py_len rest
  end.

(** [c * n]. *)
Fixpoint repeat_char (c : ascii) (n : nat) : string :=
  match n with
  | 0 => EmptyString
  | S k => String c (repeat_char c k)
  end.

(** [s.ljust(w)]. *)
Definition ljust (s : string) (w : nat) : string :=
  s ++ repeat_char SPACE (w - py_len s).

(** [widths[i] = max(widths[i], n)]. *)
Fixpoint widen (widths : list nat) (i n : nat) : exc (list nat) :=
  match widths, i with
  | [], _ => Raise IndexError
  | w :: ws, 0 => Ok (Nat.max w n :: ws)
  | w :: ws, S j => ws' <- widen ws j n ;; Ok (w :: ws')
  end.

Section Tables.

Variable repr_other : pyval -> string.

(** [for i, c in enumerate(r)], from the index [i] on. *)
Fixpoint widen_row (widths : list nat) (i : nat) (cells : list pyval)
  : exc (list nat) :=
  match cells with
  | [] => Ok widths
  | c :: rest =>
      ws <- widen widths i (py_len (py_str repr_other c)) ;;
      widen_row ws (S i) rest
  end.

(** [for r in rows]. *)
Fixpoint widen_rows (widths : list nat) (rows : list (list pyval))
  : exc (list nat) :=
  match rows with
  | [] => Ok widths
  | r :: rest => ws <- widen_row widths 0 r ;; widen_rows ws rest
  end.

(** The cells [s.ljust(widths[i]) for i, s in enumerate(cells)], from the
    index [i] on. *)
Fixpoint pad_cells (widths : list nat) (i : nat) (cells : list string)
  : exc (list string) :=
  match cells with
  | [] => Ok []
  | s :: rest =>
      match nth_error widths i with
      | Some w => padded <- pad_cells widths (S i) rest ;; Ok (ljust s w :: padded)
      | None => Raise IndexError
      end
  end.

(** The lines appended by the second [for r in rows]. *)
Fixpoint row_lines (widths : list nat) (rows : list (list pyval))
  : exc (list string) :=
  match rows with
  | [] => Ok []
  | r :: rest =>
      cells <- pad_cells widths 0 (map (py_str repr_other) r) ;;
      lines <- row_lines widths rest ;;
      Ok (join " | " cells :: lines)
  end.

(** The lines of the table that [build_table] joins. *)
Definition table_lines (headers : list string) (rows : list (list pyval))
  : exc (list string) :=
  widths <- widen_rows (map py_len headers) rows ;;
  header_cells <- pad_cells widths 0 headers ;;
  let header_line := join " | " header_cells in
  let separator := join "-+-" (map (repeat_char "-") widths) in
  lines <- row_lines widths rows ;;
  Ok (header_line :: separator :: lines).

Definition build_table (headers : list string) (rows : list (list pyval))
  : exc string :=
  match rows with
  | [] => Ok "(no data)"
  | _ :: _ => lines <- table_lines headers rows ;; Ok (join (str1 LF) lines)
  end.

End Tables.

(** ** Log search: [find_latest_shipperws_log] *)

(** [s.endswith(suffix)]. *)
Fixpoint ends_with (suffix s : string) : bool :=
  String.eqb suffix s ||
  match s with
  | EmptyString => false
  | String _ rest => ends_with suffix rest
  end.

(** [os.path.join(a, b)] of [posixpath]. *)
Definition path_join (a b : string) : string :=
  if String.prefix "/" b then b
  else if String.eqb a "" || ends_with "/" a then a ++ b
  else a ++ "/" ++ b.

(** A bucket holds pairs [(mtime, path)].  A modification time is a float
    that is neither NaN nor infinite, hence a whole number of units of
    2^-1074 s; the model holds that number, and floats compare as these
    numbers do. *)
Definition bucket : Type := list (Z * string).

(** Where [x] goes in a list in descending order of times: before the first
    pair that is not newer. *)
Fixpoint insert_desc (x : Z * string) (l : bucket) : bucket :=
  match l with
  | [] => [x]
  | y :: rest => if (fst x <? fst y)%Z then y :: insert_desc x rest else x :: l
  end.

(** [bucket.sort(key=lambda t: t[0], reverse=True)]: the sort is stable,
    also in reverse, so pairs of the same time keep their order; there is
    one such list, which insertion from the right builds. *)
Definition sort_desc (l : bucket) : bucket := fold_right insert_desc [] l.

(** [for bucket in ...: if bucket: bucket.sort(...); return bucket[0][1]],
    and [return None] after the loop. *)
Fixpoint first_bucket (buckets : list bucket) : option string :=
  match buckets with
  | [] => None
  | [] :: rest => first_bucket rest
  | b :: _ => option_map snd (hd_error (sort_desc b))
  end.

Section LogSearch.

(** The file system: [os_walk top] is the list of the directories
    [os.walk(top)] visits, each with the names of its files, in the order
    of the walk (empty when [top] is no directory); [getmtime path] is
    [None] when [os.path.getmtime] raises OSError. *)
Variable os_walk : string -> list (string * list string).
Variable getmtime : string -> option Z.

Variable token : string.

(** The body of [for name in files], on the pair of buckets
    [(preferred, fallback)]. *)
Definition scan_file (root : string) (b : bucket * bucket) (name : string)
  : bucket * bucket :=
  if negb (contains token name) || negb (contains "shipperws" name)
     || negb (ends_with ".log" name)
  then b
  else
    let path := path_join root name in
    match getmtime path with
    | None => b
    | Some mtime =>
        if ends_with ".shipperws.log" name
        then ((fst b ++ [(mtime, path)])%list, snd b)
        else (fst b, (snd b ++ [(mtime, path)])%list)
    end.

(** The body of [for root, _, files in os.walk(logs_root)]. *)
Definition scan_dir (b : bucket * bucket) (entry : string * list string)
  : bucket * bucket :=
  fold_left (scan_file (fst entry)) (snd entry) b.

Definition find_latest_shipperws_log (base_dir : string) : option string :=
  let logs_root := path_join base_dir "logs" in
  let b := fold_left scan_dir (os_walk logs_root) ([], []) in
  first_bucket [fst b; snd b].

(** What the loop makes of the files, as a function of them: the pair a
    file adds to the preferred bucket ([pref] true) or to the other one. *)
Definition file_entries (pref : bool) (root name : string) : bucket :=
  if contains token name && contains "shipperws" name && ends_with ".log" name
     && Bool.eqb (ends_with ".shipperws.log" name) pref
  then match getmtime (path_join root name) with
       | Some mtime => [(mtime, path_join root name)]
       | None => []
       end
  else [].

(** The pairs of the files of a walk, in its order. *)
Definition walk_entries (pref : bool) (walk : list (string * list string)) : bucket :=
  flat_map (fun entry => flat_map (file_entries pref (fst entry)) (snd entry)) walk.

End LogSearch.

(** ** Notions of the specification *)

(** What the specification says the sanitizer does with a control
    character that does not follow an unconsumed backslash: inside a string
    literal the escape of a newline or of a carriage return, a space for the
    others; outside, the character itself for newline and tab, nothing for
    the others. *)
Definition control_rewrite (inside : bool) (ch : ascii) : string :=
  if inside then
    if Ascii.eqb ch LF then String BACKSLASH (str1 "n")
    else if Ascii.eqb ch CR then String BACKSLASH (str1 "r")
    else str1 SPACE
  else
    if Ascii.eqb ch LF || Ascii.eqb ch TAB then str1 ch
    else EmptyString.

(** Every character of [s] satisfies [p]. *)
Fixpoint all_chars (p : ascii -> bool) (s : string) : bool :=
  match s with
  | EmptyString => true
  | String c rest => p c && all_chars p rest
  end.

(** Lexical brace balance of a text. *)
Definition brace_balance (s : string) : Z :=
  (Z.of_nat (count_char LBRACE s) - Z.of_nat (count_char RBRACE s))%Z.

(** The first character that is not whitespace. *)
Definition first_non_space (s : string) : option ascii :=
  match lstrip s with
  | String c _ => Some c
  | EmptyString => None
  end.

(** The first object, in the order of [indices], that [accept] takes;
    [None] when there is none. *)
Fixpoint pick (accept : pyval -> bool) (lines : list string) (indices : list nat)
  : pyval :=
  match indices with
  | [] => PNone
  | i :: rest =>
      if accept (object_at lines i) then object_at lines i
      else pick accept lines rest
  end.

(** A mapping that holds every key of [keys] at its top level. *)
Definition has_keys (keys : list string) (obj : pyval) : bool :=
  match obj with
  | PDict d => forallb (fun k => Dict.mem k d) keys
  | _ => false
  end.

(** The request tiers of the specification: the line that announces a
    payload of the tier, the keys the payload must hold, and the rank of the
    tier (a smaller rank is a higher priority). *)
Definition request_marker_line (t : request_tier) (line : string) : bool :=
  match t with
  | ReqShopify => contains "Converted shopify request to" line
  | ReqBigCommerce => contains "Converted bigcommerce request to" line
  | ReqGraphQL => contains "REST Request after GraphQL Unmarshalling" line
  | ReqTag => contains "[REQUEST]:" line
  | ReqGeneric => generic_request_line line
  end.

Definition request_keys (t : request_tier) : list string :=
  match t with
  | ReqShopify | ReqBigCommerce | ReqGeneric => ["cart"; "destination"]
  | ReqGraphQL | ReqTag => ["cart"]
  end.

Definition request_rank (t : request_tier) : nat :=
  match t with
  | ReqShopify => 1
  | ReqBigCommerce => 2
  | ReqGraphQL => 3
  | ReqTag => 4
  | ReqGeneric => 5
  end.

(** The well-formed marker and JSON pairs of a tier, in file order: the
    index of each line that carries the marker of the tier and is followed
    by an object that decodes to a mapping with the keys of the tier,
    together with that object. *)
Definition request_pairs (t : request_tier) (lines : list string)
  : list (nat * pyval) :=
  flat_map
    (fun i =>
       if has_keys (request_keys t) (object_at lines i)
       then [(i, object_at lines i)] else [])
    (matching_indices (request_marker_line t) lines).

(** A marker and JSON pair as the text of the log has it, whatever the
    collector makes of it: line [i] is a text that holds the marker of the
    tier followed by a text that, continued by the [k] next lines, is a
    JSON document of a mapping [p] with the keys of the tier. *)
Definition textual_pair (t : request_tier) (lines : list string) (i : nat)
    (p : pyval) : Prop :=
  exists pre body k,
    nth_error lines i = Some (pre ++ body)
    /\ request_marker_line t pre = true
    /\ Json.loads (join (str1 LF) (body :: firstn k (skipn (S i) lines))) = Some p
    /\ has_keys (request_keys t) p = true.

(** The latest match of [marker] whose block decodes. *)
Definition latest_decoded (lines : list string) (marker : string) : pyval :=
  pick (fun obj => negb (is_none obj)) lines
       (rev (matching_indices (contains marker) lines)).

(** Response tier 1 as the claim words it: the matches are tried latest
    first, one that lacks [carrierGroups] is passed over, and the first one
    that holds it is selected. *)
Definition claimed_shopify_response (lines : list string) : pyval :=
  pick json_contains_carrier_groups lines
       (rev (matching_indices (contains shopify_response_marker) lines)).

(** The error message the specification attaches to a carrier: the internal
    message of its error object, else the external one, else the empty
    text. *)
Definition claimed_error_message (c : Dict.t) : pyval :=
  match get_or c "error" PNone with
  | PDict e =>
      py_or (get_or e "internalErrorMessage" PNone)
            (py_or (get_or e "externalErrorMessage" PNone) (PStr ""))
  | _ => PStr ""
  end.

(** *** Sample inputs

    Sample texts are written with an apostrophe where the text has a double
    quote. *)
Fixpoint dquoted (s : string) : string :=
  match s with
  | EmptyString => EmptyString
  | String c rest =>
      String (if Ascii.eqb c "'" then DQUOTE else c) (dquoted rest)
  end.

(** A log whose first line is a tier 4 request and whose later lines are a
    tier 2 request spread over three lines, followed by a response. *)
Definition sample_log : list string :=
  map dquoted
    [ "12:00:01 [REQUEST]: {'cart': {'items': []}}";
      "12:00:02 Converted bigcommerce request to";
      "   {'cart': {'items': [{'sku': 'A1'}]},";
      "    'destination': {'city': 'Reno'}}";
      "12:00:03 [RESPONSE]: {'carrierGroups': [{'carrierRates': []}]}" ].

(** A log with two shopify responses: the earlier one holds
    [carrierGroups], the later one does not. *)
Definition two_responses_log : list string :=
  map dquoted
    [ "12:00:01 [REQUEST]: {'cart': {'items': []}}";
      "12:00:02 Adapting the following rate response to shopify response {'carrierGroups': []}";
      "12:00:03 Adapting the following rate response to shopify response {'status': 'partial'}" ].

(** A log whose only response is the empty object. *)
Definition empty_response_log : list string :=
  map dquoted
    [ "12:00:01 [REQUEST]: {'cart': {'items': []}}";
      "12:00:02 Adapting the following rate response to shopify response {}" ].

(** A log with one request of tier 4 and one of tier 1, the latter with a
    closing brace inside a string literal. *)
Definition brace_in_string_log : list string :=
  map dquoted
    [ "12:00:01 [REQUEST]: {'cart': {'items': []}}";
      "12:00:02 Converted shopify request to {'cart': {'note': '}'}, 'destination': {'city': 'Reno'}}" ].

(** The text of a log without any payload. *)
Definition noise_text : string :=
  "12:00:01 service started" ++ String CR (String LF "12:00:02 nothing to report")
  ++ str1 LF.

(** The request and the response of the example of the specification. *)
Definition example_request : string :=
  dquoted "{'cart':{'items':[{'sku':'A1','qty':2,'attributes':[{'name':'ship_length','value':'10'},{'name':'ship_width','value':'5'},{'name':'ship_height','value':'3'}]}]},'destination':{'city':'Reno'}}".

Definition example_response : string :=
  dquoted "{'carrierGroups':[{'carrierGroupDetail':{'originAddress':{'city':'Boise'}},'carrierRates':[{'carrierName':'UPS','rates':[{'name':'Ground','shippingPrice':12.5}]}]}]}".

(** A carrier without rates that is blocked by a rule and reports an
    error, and one with neither. *)
Definition blocked_carrier : Dict.t :=
  [ ("carrierName", PStr "UPS");
    ("rates", PList []);
    ("preventRulesApplied", PList [PStr "No PO boxes"]);
    ("error", PDict [("externalErrorMessage", PStr "Service unavailable")]) ].

Definition silent_carrier : Dict.t :=
  [ ("carrierName", PStr "UPS"); ("rates", PList []);
    ("preventRulesApplied", PList []) ].

(** A response with one carrier group that holds the carriers [cs]. *)
Definition response_of_carriers (cs : list pyval) : pyval :=
  PDict [("carrierGroups", PList [PDict [("carrierRates", PList cs)]])].

(** A carrier whose rates are a number, and a carrier without rates that is
    blocked by a rule and whose error is a text. *)
Definition failing_carrier : Dict.t :=
  [ ("carrierName", PStr "FedEx"); ("rates", PInt 5) ].

Definition text_error_carrier : Dict.t :=
  [ ("carrierName", PStr "UPS");
    ("rates", PList []);
    ("preventRulesApplied", PList [PStr "No PO boxes"]);
    ("error", PStr "boom") ].

(** A text with a control character inside a string literal and a
    carriage return outside. *)
Definition sample_block : string :=
  dquoted "{'a': 'x" ++ String TAB (dquoted "y'," ++ String CR (String LF (dquoted " 'b': 1}"))).

(** A string literal that holds an ANSI colour sequence. *)
Definition coloured_literal : string :=
  String DQUOTE (String ESC ("[0m" ++ str1 DQUOTE)).

(** *** Notions of the further properties *)

(** [s] has no raw control character where JSON forbids one: scanning from
    flags [st], a control character only stands right after a backslash,
    or is a newline or a tab outside a string literal. *)
Fixpoint json_safe (st : scan_state) (s : string) : bool :=
  match s with
  | EmptyString => true
  | String ch rest =>
      (escape_next st || negb (is_control ch)
       || (negb (in_string st) && (Ascii.eqb ch LF || Ascii.eqb ch TAB)))
      && json_safe (fst (scan_step st ch)) rest
  end.

(** [f] applied to every character. *)
Fixpoint map_chars (f : ascii -> ascii) (s : string) : string :=
  match s with
  | EmptyString => EmptyString
  | String c rest => String (f c) (map_chars f rest)
  end.

(** What a character of a string literal decodes to after sanitization. *)
Definition soften (c : ascii) : ascii :=
  if Ascii.eqb c LF || Ascii.eqb c CR then c
  else if is_control c then SPACE else c.

(** A line that does not start a JSON object: its first character after
    the leading whitespace is not an opening brace. *)
Definition no_json_start (line : string) : Prop :=
  starts_with_char LBRACE (lstrip line) = false.

(** The block made of the stripped line [l] and the [k] lines after it. *)
Definition block_of (l : string) (rest : list string) (k : nat) : string :=
  join (str1 LF) (lstrip l :: firstn k rest).

(** A [carrierGroups] key is reachable in a value: the value is a
    dictionary with that key, or a dictionary one of whose values reaches
    it, or a list one of whose items reaches it. *)
Inductive reaches_carrier_groups : pyval -> Prop :=
| ReachHere (d : Dict.t) :
    Dict.mem "carrierGroups" d = true -> reaches_carrier_groups (PDict d)
| ReachValue (d : Dict.t) (k : string) (v : pyval) :
    In (k, v) d -> reaches_carrier_groups v -> reaches_carrier_groups (PDict d)
| ReachItem (l : list pyval) (v : pyval) :
    In v l -> reaches_carrier_groups v -> reaches_carrier_groups (PList l).

(** The rank of a response tier in the order of the resolver. *)
Definition response_rank (t : response_tier) : nat :=
  match t with
  | RespShopify => 1
  | RespBigCommerce => 2
  | RespGraphQL => 3
  | RespTag => 4
  | RespGeneric => 5
  end.

(** The number of dictionaries in a list of values. *)
Definition count_dicts (vs : list pyval) : nat :=
  List.length (filter is_dict vs).

(** The widths [ws], each raised to the length at its position in [ns],
    as one row of cells of these lengths raises them. *)
Fixpoint zip_max (ws ns : list nat) : list nat :=
  match ws, ns with
  | w :: ws', n :: ns' => Nat.max w n :: zip_max ws' ns'
  | _, [] => ws
  | [], _ => []
  end.

(** The length of a line of a table with these column widths. *)
Definition line_length (widths : list nat) : nat :=
  list_sum widths + 3 * pred (List.length widths).

(** The lengths of the texts of the cells of a row. *)
Definition cell_lengths (repr_other : pyval -> string) (r : list pyval) : list nat :=
  map (fun c => py_len (py_str repr_other c)) r.

(** The widths after the first loop of [build_table], when no row is too
    long. *)
Fixpoint column_widths (repr_other : pyval -> string) (ws : list nat)
    (rows : list (list pyval)) : list nat :=
  match rows with
  | [] => ws
  | r :: rest => column_widths repr_other (zip_max ws (cell_lengths repr_other r)) rest
  end.

(** A sample file system: two logs of the same time that bear the vendor
    suffix, in two directories, and a newer log that does not. *)
Definition sample_walk (top : string) : list (string * list string) :=
  if String.eqb top "/srv/logs"
  then [("/srv/logs", ["tok1.shipperws.log"; "tok1.shipperws.debug.log"; "tok2.txt"]);
        ("/srv/logs/old", ["tok1.shipperws.log"])]
  else [].

Definition sample_mtime (path : string) : option Z :=
  if String.eqb path "/srv/logs/tok1.shipperws.log" then Some 10%Z
  else if String.eqb path "/srv/logs/tok1.shipperws.debug.log" then Some 30%Z
  else if String.eqb path "/srv/logs/old/tok1.shipperws.log" then Some 10%Z
  else None.

(** * Properties *)

(** Case analysis on the scrutinee of a match. *)
Ltac break_match :=
  match goal with
  | |- context [match ?x with _ => _ end] => destruct x eqn:?
  | H : context [match ?x with _ => _ end] |- _ => destruct x eqn:?
  end.


(** ** Strings *)

Lemma append_nil_r (s : string) : s ++ EmptyString = s.
Proof. induction s as [|c s IH]; simpl; [reflexivity | now rewrite IH]. Qed.

Lemma append_assoc (s t u : string) : (s ++ t) ++ u = s ++ (t ++ u).
Proof. induction s as [|c s IH]; simpl; [reflexivity | now rewrite IH]. Qed.

Lemma count_char_app (c : ascii) (s t : string) :
  count_char c (s ++ t) = count_char c s + count_char c t.
Proof.
  induction s as [|d s IH]; simpl; [reflexivity|].
  rewrite IH. lia.
Qed.

Lemma has_char_app (c : ascii) (s t : string) :
  has_char c (s ++ t) = has_char c s || has_char c t.
Proof.
  induction s as [|d s IH]; simpl; [reflexivity|].
  now rewrite IH, orb_assoc.
Qed.

Lemma has_char_count (c : ascii) (s : string) :
  has_char c s = true <-> 0 < count_char c s.
Proof.
  induction s as [|d s IH]; simpl.
  - split; [discriminate | lia].
  - destruct (Ascii.eqb d c); simpl; [split; [lia | reflexivity] | exact IH].
Qed.

Lemma has_char_false_count (c : ascii) (s : string) :
  has_char c s = false <-> count_char c s = 0.
Proof.
  destruct (has_char c s) eqn:E.
  - apply has_char_count in E. split; [discriminate | lia].
  - split; [intros _ | reflexivity].
    destruct (count_char c s) eqn:C; [reflexivity|].
    assert (H : 0 < count_char c s) by lia.
    apply has_char_count in H. congruence.
Qed.

(** ** Sanitizer *)

Lemma scan_app (s t : string) : forall st,
  scan st (s ++ t) = scan st s ++ scan (scan_flags st s) t.
Proof.
  induction s as [|c s IH]; intros st; simpl; [reflexivity|].
  destruct (scan_step st c) as [st' out]; simpl.
  now rewrite IH, append_assoc.
Qed.

Lemma scan_flags_app (s t : string) : forall st,
  scan_flags st (s ++ t) = scan_flags (scan_flags st s) t.
Proof. induction s as [|c s IH]; intros st; simpl; [reflexivity | apply IH]. Qed.

(** A control character that does not follow a backslash leaves the flags
    as they are and is rewritten as the specification says. *)
Lemma scan_step_control (st : scan_state) (ch : ascii) :
  escape_next st = false -> is_control ch = true ->
  scan_step st ch = (st, control_rewrite (in_string st) ch).
Proof.
  intros He Hc. unfold scan_step, control_rewrite. rewrite He.
  destruct (Ascii.eqb ch BACKSLASH) eqn:Eb.
  { apply Ascii.eqb_eq in Eb. subst ch. discriminate Hc. }
  destruct (Ascii.eqb ch DQUOTE) eqn:Eq.
  { apply Ascii.eqb_eq in Eq. subst ch. discriminate Hc. }
  destruct (in_string st).
  - destruct (Ascii.eqb ch LF); [reflexivity|].
    destruct (Ascii.eqb ch CR); [reflexivity|].
    now rewrite Hc.
  - destruct (Ascii.eqb ch CR) eqn:Er.
    + apply Ascii.eqb_eq in Er. subst ch. reflexivity.
    + rewrite Hc. simpl. now destruct (Ascii.eqb ch LF || Ascii.eqb ch TAB).
Qed.

(** The shapes of what one iteration appends. *)
Lemma scan_step_cases (st st' : scan_state) (ch : ascii) (out : string) :
  scan_step st ch = (st', out) ->
  out = str1 ch
  \/ (out = EmptyString /\ st' = st)
  \/ (st = ScanState true false /\ st' = st
      /\ (out = String BACKSLASH (str1 "n") \/ out = String BACKSLASH (str1 "r")
          \/ out = str1 SPACE)).
Proof.
  destruct st as [ins esc]. unfold scan_step. simpl.
  destruct esc; [intros [= <- <-]; now left|].
  destruct (Ascii.eqb ch BACKSLASH); [intros [= <- <-]; now left|].
  destruct (Ascii.eqb ch DQUOTE); [intros [= <- <-]; now left|].
  destruct ins.
  - destruct (Ascii.eqb ch LF); [intros [= <- <-]; right; right; auto|].
    destruct (Ascii.eqb ch CR); [intros [= <- <-]; right; right; auto|].
    destruct (is_control ch); intros [= <- <-]; [right; right; auto | now left].
  - destruct (Ascii.eqb ch CR); [intros [= <- <-]; right; left; auto|].
    destruct (is_control ch && negb (Ascii.eqb ch LF || Ascii.eqb ch TAB));
      intros [= <- <-]; [right; left; auto | now left].
Qed.

(** Scanning what one iteration appended gives it back, with the same
    flags. *)
Lemma scan_step_fixed (st st' : scan_state) (ch : ascii) (out : string) :
  scan_step st ch = (st', out) ->
  scan st out = out /\ scan_flags st out = st'.
Proof.
  intros E. destruct (scan_step_cases _ _ _ _ E) as [H | [[H1 H2] | (Hs & H2 & H3)]].
  - subst out. simpl. rewrite E. simpl. split; reflexivity.
  - subst. now split.
  - subst st st'. destruct H3 as [H | [H | H]]; subst out; now split.
Qed.

(** The scan loop is idempotent from any flags. *)
Lemma scan_idempotent (s : string) : forall st,
  scan st (scan st s) = scan st s /\ scan_flags st (scan st s) = scan_flags st s.
Proof.
  induction s as [|c s IH]; intros st; simpl; [now split|].
  destruct (scan_step st c) as [st' out] eqn:E. simpl.
  destruct (scan_step_fixed _ _ _ _ E) as [H1 H2].
  destruct (IH st') as [I1 I2].
  rewrite scan_app, scan_flags_app, H1, H2. now rewrite I1, I2.
Qed.

Lemma ansi_free_strip (s : string) :
  has_char ESC s = false -> strip_ansi s = s.
Proof.
  unfold strip_ansi. induction s as [|c s IH]; simpl; [reflexivity|].
  intros H. apply orb_false_iff in H as [Hc Hs].
  rewrite Hc. now rewrite IH.
Qed.

Lemma scan_keeps_esc_free (s : string) : forall st,
  has_char ESC s = false -> has_char ESC (scan st s) = false.
Proof.
  induction s as [|c s IH]; intros st; simpl; [reflexivity|].
  intros H. apply orb_false_iff in H as [Hc Hs].
  destruct (scan_step st c) as [st' out] eqn:E.
  rewrite has_char_app, (IH st' Hs), orb_false_r.
  destruct (scan_step_cases _ _ _ _ E) as [H | [[H _] | (_ & _ & [H | [H | H]])]];
    subst out; simpl; try reflexivity.
  now rewrite Hc.
Qed.

(** *** The ANSI pattern *)

Lemma in_range_disjoint (lo1 hi1 lo2 hi2 : N) (c : ascii) :
  (hi1 < lo2)%N -> in_range lo2 hi2 c = true -> in_range lo1 hi1 c = false.
Proof.
  unfold in_range. intros Hlt H. apply andb_true_iff in H as [H1 _].
  apply N.leb_le in H1. apply andb_false_iff. right. apply N.leb_gt. lia.
Qed.

Lemma in_range_disjoint_below (lo1 hi1 lo2 hi2 : N) (c : ascii) :
  (hi2 < lo1)%N -> in_range lo2 hi2 c = true -> in_range lo1 hi1 c = false.
Proof.
  unfold in_range. intros Hlt H. apply andb_true_iff in H as [_ H2].
  apply N.leb_le in H2. apply andb_false_iff. left. apply N.leb_gt. lia.
Qed.

Lemma span_len_run (p : ascii -> bool) (run rest : string) :
  all_chars p run = true ->
  match rest with String c _ => p c = false | EmptyString => True end ->
  span_len p (run ++ rest) = String.length run.
Proof.
  intros Hr Hn. induction run as [|c run IH]; simpl.
  - destruct rest as [|c rest']; [reflexivity|]. simpl. now rewrite Hn.
  - simpl in Hr. apply andb_true_iff in Hr as [Hc Hr]. rewrite Hc. now rewrite IH.
Qed.

Lemma drop_chars_app (a b : string) : drop_chars (String.length a) (a ++ b) = b.
Proof. induction a as [|c a IH]; simpl; [now destruct b | exact IH]. Qed.

(** However the pattern matches at an ESC, with whatever numbers of
    parameter and intermediate characters, the match is the one
    [ansi_tail] reports. *)
Lemma ansi_tail_any_match (c1 f : ascii) (params inters tail : string) :
  in_range 64 95 c1 = true ->
  all_chars (in_range 48 63) params = true ->
  all_chars (in_range 32 47) inters = true ->
  in_range 64 126 f = true ->
  ansi_tail (String c1 (params ++ inters ++ String f tail))
  = Some (1 + String.length params + String.length inters + 1).
Proof.
  intros H1 Hp Hi Hf. unfold ansi_tail. rewrite H1.
  assert (Hf1 : in_range 48 63 f = false)
    by (apply (in_range_disjoint _ _ 64 126); [reflexivity | exact Hf]).
  assert (Hf2 : in_range 32 47 f = false)
    by (apply (in_range_disjoint _ _ 64 126); [reflexivity | exact Hf]).
  rewrite (span_len_run _ params (inters ++ String f tail) Hp).
  - cbv zeta. rewrite drop_chars_app.
    rewrite (span_len_run _ inters (String f tail) Hi Hf2).
    rewrite drop_chars_app. now rewrite Hf.
  - destruct inters as [|c inters']; simpl; [exact Hf1|].
    simpl in Hi. apply andb_true_iff in Hi as [Hc _].
    apply (in_range_disjoint_below _ _ 32 47); [reflexivity | exact Hc].
Qed.

Lemma span_split (p : ascii -> bool) (s : string) :
  s = take_chars (span_len p s) s ++ drop_chars (span_len p s) s
  /\ all_chars p (take_chars (span_len p s) s) = true.
Proof.
  induction s as [|c s [IH1 IH2]]; simpl; [now split|].
  destruct (p c) eqn:E; simpl; [|now split].
  rewrite E, IH2. split; [now rewrite <- IH1 | reflexivity].
Qed.

Lemma take_chars_length (p : ascii -> bool) (s : string) :
  String.length (take_chars (span_len p s) s) = span_len p s.
Proof.
  induction s as [|c s IH]; simpl; [reflexivity|].
  destruct (p c); simpl; [now rewrite IH | reflexivity].
Qed.

(** What [ansi_tail] reports is a match of the pattern. *)
Lemma ansi_tail_is_match (s : string) (n : nat) :
  ansi_tail s = Some n ->
  exists c1 params inters f tail,
    s = String c1 (params ++ inters ++ String f tail)
    /\ in_range 64 95 c1 = true
    /\ all_chars (in_range 48 63) params = true
    /\ all_chars (in_range 32 47) inters = true
    /\ in_range 64 126 f = true
    /\ n = 1 + String.length params + String.length inters + 1.
Proof.
  unfold ansi_tail. destruct s as [|c1 r1]; [discriminate|].
  destruct (in_range 64 95 c1) eqn:H1; [|discriminate]. cbv zeta.
  destruct (span_split (in_range 48 63) r1) as [S1 A1].
  set (n1 := span_len (in_range 48 63) r1) in *.
  destruct (span_split (in_range 32 47) (drop_chars n1 r1)) as [S2 A2].
  set (n2 := span_len (in_range 32 47) (drop_chars n1 r1)) in *.
  destruct (drop_chars n2 (drop_chars n1 r1)) as [|f tail] eqn:D; [discriminate|].
  destruct (in_range 64 126 f) eqn:Hf; [|discriminate].
  intros [= <-].
  exists c1, (take_chars n1 r1), (take_chars n2 (drop_chars n1 r1)), f, tail.
  repeat split; try assumption.
  - now rewrite <- S2, <- S1.
  - subst n1 n2. now rewrite !take_chars_length.
Qed.

(** On a text without an ESC character the sanitizer is idempotent. *)
Lemma sanitize_idempotent_esc_free (t : string) :
  has_char ESC t = false ->
  sanitize_json_block (sanitize_json_block t) = sanitize_json_block t.
Proof.
  intros H. unfold sanitize_json_block.
  rewrite (ansi_free_strip t H).
  rewrite (ansi_free_strip _ (scan_keeps_esc_free t scan_init H)).
  apply scan_idempotent.
Qed.

(** ** Decoder *)

Lemma lex_step_esc (mode : Json.lex_mode) (toks : list Json.token) :
  Json.lex_step mode toks ESC = None.
Proof.
  destruct mode as [|w|acc hi|acc hi|acc hi k v]; simpl; try reflexivity.
  now destruct (Json.read_word w).
Qed.

(** A text the lexer accepts has no ESC character. *)
Lemma lex_esc_free (s : string) : forall mode toks ts,
  Json.lex_from mode toks s = Some ts -> has_char ESC s = false.
Proof.
  induction s as [|c s IH]; intros mode toks ts; simpl; [reflexivity|].
  destruct (Ascii.eqb c ESC) eqn:E.
  - apply Ascii.eqb_eq in E. subst c. now rewrite lex_step_esc.
  - destruct (Json.lex_step mode toks c) as [[mode' toks']|]; [|discriminate].
    simpl. apply IH.
Qed.

Lemma loads_esc_free (s : string) (v : pyval) :
  Json.loads s = Some v -> has_char ESC s = false.
Proof.
  unfold Json.loads, Json.lex.
  destruct (Json.lex_from Json.LDefault [] s) as [ts|] eqn:E; [|discriminate].
  intros _. exact (lex_esc_free _ _ _ _ E).
Qed.

Lemma lex_default_grows (toks toks' : list Json.token) (c : ascii) (mode' : Json.lex_mode) :
  Json.lex_default toks c = Some (mode', toks') ->
  exists new, toks' = (new ++ toks)%list.
Proof.
  unfold Json.lex_default.
  repeat (break_match; [intros [= <- <-]; first [now exists [] | eexists [_]; reflexivity]|]).
  discriminate.
Qed.

Lemma lex_step_grows (mode mode' : Json.lex_mode) (toks toks' : list Json.token) (c : ascii) :
  Json.lex_step mode toks c = Some (mode', toks') ->
  exists new, toks' = (new ++ toks)%list.
Proof.
  destruct mode as [|w|acc hi|acc hi|acc hi k v]; simpl.
  - apply lex_default_grows.
  - destruct (Json.is_word_char c); [intros [= <- <-]; now exists []|].
    destruct (Json.read_word w) as [x|]; [|discriminate].
    intros H. apply lex_default_grows in H as [new ->].
    exists (new ++ [Json.TValue x])%list. now rewrite <- app_assoc.
  - repeat (break_match; try discriminate); intros [= <- <-];
      first [now exists [] | eexists [_]; reflexivity].
  - repeat (break_match; try discriminate); intros [= <- <-]; now exists [].
  - repeat (break_match; try discriminate); intros [= <- <-]; now exists [].
Qed.

(** The tokens already produced stay at the front of the lexer's result. *)
Lemma lex_from_prefix (s : string) : forall mode toks ts,
  Json.lex_from mode toks s = Some ts ->
  exists extra, ts = (rev toks ++ extra)%list.
Proof.
  induction s as [|c s IH]; intros mode toks ts; simpl.
  - destruct mode; try discriminate.
    + intros [= <-]. exists []. now rewrite app_nil_r.
    + destruct (Json.read_word w); [|discriminate].
      intros [= <-]. simpl. now eexists.
  - destruct (Json.lex_step mode toks c) as [[mode' toks']|] eqn:E; [|discriminate].
    intros H. apply IH in H as [extra ->].
    apply lex_step_grows in E as [new ->].
    rewrite rev_app_distr, <- app_assoc. now eexists.
Qed.

Lemma parse_members_dict (fuel : nat) : forall acc ts v r,
  Json.parse_members fuel acc ts = Some (v, r) -> is_dict v = true.
Proof.
  induction fuel as [|f IH]; intros acc ts v r; simpl; [discriminate|].
  repeat (break_match; try discriminate); subst;
    first [ intros [= <- <-]; reflexivity | apply IH ].
Qed.

(** A text whose first character is an opening brace decodes to a
    dictionary, if it decodes. *)
Lemma loads_brace_dict (t : string) (v : pyval) :
  Json.loads (String LBRACE t) = Some v -> is_dict v = true.
Proof.
  unfold Json.loads, Json.lex. simpl Json.lex_from.
  destruct (Json.lex_from Json.LDefault [Json.TLBrace] t) as [ts|] eqn:E; [|discriminate].
  apply lex_from_prefix in E as [extra ->]. simpl rev. simpl app.
  set (fuel := 2 * List.length (Json.TLBrace :: extra) + 2).
  destruct fuel as [|f]; simpl; [discriminate|].
  destruct extra as [|tk r]; [|destruct tk]; simpl;
    try (destruct (Json.parse_members f [] _) as [[w r']|] eqn:P; [|discriminate];
         destruct r'; [|discriminate]; intros [= <-];
         exact (parse_members_dict _ _ _ _ _ P)).
  destruct r; [|discriminate]. intros [= <-]. reflexivity.
Qed.

(** *** The fuel of the parser *)

Module JsonFuel.
Import Json.

Lemma parse_value_eq (f : nat) (ts : list token) :
  parse_value (S f) ts =
  match ts with
  | TValue v :: r => Some (v, r)
  | TLBrack :: TRBrack :: r => Some (PList [], r)
  | TLBrack :: r => parse_elems f [] r
  | TLBrace :: TRBrace :: r => Some (PDict [], r)
  | TLBrace :: r => parse_members f [] r
  | _ => None
  end.
Proof. reflexivity. Qed.

Lemma parse_elems_eq (f : nat) (acc : list pyval) (ts : list token) :
  parse_elems (S f) acc ts =
  match parse_value f ts with
  | Some (v, TComma :: r) => parse_elems f (acc ++ [v]) r
  | Some (v, TRBrack :: r) => Some (PList (acc ++ [v]), r)
  | _ => None
  end.
Proof. reflexivity. Qed.

Lemma parse_members_eq (f : nat) (acc : Dict.t) (ts : list token) :
  parse_members (S f) acc ts =
  match ts with
  | TValue (PStr k) :: TColon :: r =>
      match parse_value f r with
      | Some (v, TComma :: r') => parse_members f (Dict.set k v acc) r'
      | Some (v, TRBrace :: r') => Some (PDict (Dict.set k v acc), r')
      | _ => None
      end
  | _ => None
  end.
Proof. reflexivity. Qed.

Lemma parse_fuel_step (f : nat) :
  (forall ts r, parse_value f ts = Some r -> parse_value (S f) ts = Some r)
  /\ (forall acc ts r, parse_elems f acc ts = Some r -> parse_elems (S f) acc ts = Some r)
  /\ (forall acc ts r, parse_members f acc ts = Some r -> parse_members (S f) acc ts = Some r).
Proof.
  induction f as [|f (IHv & IHe & IHm)]; [repeat split; discriminate|].
  split; [|split].
  - intros ts r. rewrite !parse_value_eq.
    destruct ts as [|tk ts']; [exact (fun H => H)|].
    destruct tk; try exact (fun H => H);
      (destruct ts' as [|tk' ts'']; [first [apply IHm | apply IHe]|];
       destruct tk'; first [exact (fun H => H) | apply IHm | apply IHe]).
  - intros acc ts r. rewrite (parse_elems_eq (S f)), (parse_elems_eq f).
    destruct (parse_value f ts) as [[v rest]|] eqn:E; [|discriminate].
    rewrite (IHv _ _ E).
    destruct rest as [|tk rest']; [exact (fun H => H)|].
    destruct tk; first [exact (fun H => H) | apply IHe].
  - intros acc ts r. rewrite (parse_members_eq (S f)), (parse_members_eq f).
    destruct ts as [|tk ts']; [exact (fun H => H)|].
    destruct tk as [| | | | | |k]; try exact (fun H => H).
    destruct k; try exact (fun H => H).
    destruct ts' as [|tk' ts'']; [exact (fun H => H)|].
    destruct tk'; try exact (fun H => H).
    destruct (parse_value f ts'') as [[v rest]|] eqn:E; [|discriminate].
    rewrite (IHv _ _ E).
    destruct rest as [|tk rest']; [exact (fun H => H)|].
    destruct tk; first [exact (fun H => H) | apply IHm].
Qed.

Lemma parse_value_mono (f f' : nat) (ts : list token) (r : pyval * list token) :
  f <= f' -> parse_value f ts = Some r -> parse_value f' ts = Some r.
Proof.
  induction 1 as [|f' _ IH]; [exact (fun H => H)|].
  intros H. now apply (proj1 (parse_fuel_step f')), IH.
Qed.

Lemma parse_elems_mono (f f' : nat) (acc : list pyval) (ts : list token)
    (r : pyval * list token) :
  f <= f' -> parse_elems f acc ts = Some r -> parse_elems f' acc ts = Some r.
Proof.
  induction 1 as [|f' _ IH]; [exact (fun H => H)|].
  intros H. now apply (proj1 (proj2 (parse_fuel_step f'))), IH.
Qed.

Lemma parse_members_mono (f f' : nat) (acc : Dict.t) (ts : list token)
    (r : pyval * list token) :
  f <= f' -> parse_members f acc ts = Some r -> parse_members f' acc ts = Some r.
Proof.
  induction 1 as [|f' _ IH]; [exact (fun H => H)|].
  intros H. now apply (proj2 (proj2 (parse_fuel_step f'))), IH.
Qed.

(** A successful parse consumes at least one token, and as much fuel as
    tokens consumed is enough for it. *)
Lemma parse_fuel_bound (f : nat) :
  (forall ts v r, parse_value f ts = Some (v, r) ->
     List.length r < List.length ts
     /\ parse_value (List.length ts - List.length r) ts = Some (v, r))
  /\ (forall acc ts v r, parse_elems f acc ts = Some (v, r) ->
     List.length r < List.length ts
     /\ parse_elems (List.length ts - List.length r) acc ts = Some (v, r))
  /\ (forall acc ts v r, parse_members f acc ts = Some (v, r) ->
     List.length r < List.length ts
     /\ parse_members (List.length ts - List.length r) acc ts = Some (v, r)).
Proof.
  induction f as [|f (IHv & IHe & IHm)]; [repeat split; discriminate|].
  split; [|split].
  - intros ts v r. rewrite parse_value_eq.
    destruct ts as [|tk ts']; [discriminate|].
    assert (He : forall rest, parse_elems f [] rest = Some (v, r) ->
              parse_value (S (List.length rest - List.length r)) (TLBrack :: rest)
              = parse_elems (List.length rest - List.length r) [] rest ->
              List.length r < List.length (TLBrack :: rest)
              /\ parse_value (List.length (TLBrack :: rest) - List.length r)
                   (TLBrack :: rest) = Some (v, r)).
    { intros rest H E. destruct (IHe _ _ _ _ H) as [Hl Hp]. simpl List.length.
      split; [lia|]. replace (S (List.length rest) - List.length r)
        with (S (List.length rest - List.length r)) by lia. now rewrite E. }
    assert (Hm : forall rest, parse_members f [] rest = Some (v, r) ->
              parse_value (S (List.length rest - List.length r)) (TLBrace :: rest)
              = parse_members (List.length rest - List.length r) [] rest ->
              List.length r < List.length (TLBrace :: rest)
              /\ parse_value (List.length (TLBrace :: rest) - List.length r)
                   (TLBrace :: rest) = Some (v, r)).
    { intros rest H E. destruct (IHm _ _ _ _ H) as [Hl Hp]. simpl List.length.
      split; [lia|]. replace (S (List.length rest) - List.length r)
        with (S (List.length rest - List.length r)) by lia. now rewrite E. }
    destruct tk; try discriminate.
    + destruct ts' as [|tk' ts'']; [intros H; now apply Hm|].
      destruct tk'; try (intros H; now apply Hm).
      intros [= <- <-]. simpl List.length. split; [lia|].
      replace (S (S (List.length ts'')) - List.length ts'') with 2 by lia. reflexivity.
    + destruct ts' as [|tk' ts'']; [intros H; now apply He|].
      destruct tk'; try (intros H; now apply He).
      intros [= <- <-]. simpl List.length. split; [lia|].
      replace (S (S (List.length ts'')) - List.length ts'') with 2 by lia. reflexivity.
    + intros [= <- <-]. simpl List.length. split; [lia|].
      replace (S (List.length ts') - List.length ts') with 1 by lia. reflexivity.
  - intros acc ts v r. rewrite parse_elems_eq.
    destruct (parse_value f ts) as [[v1 rest]|] eqn:E; [|discriminate].
    destruct (IHv _ _ _ E) as [Hl Hp].
    destruct rest as [|tk rest']; [discriminate|].
    destruct tk; try discriminate.
    + intros [= <- <-]. simpl List.length in *. split; [lia|].
      replace (List.length ts - List.length rest')
        with (S (List.length ts - S (List.length rest'))) by lia.
      rewrite parse_elems_eq, Hp. reflexivity.
    + intros H. destruct (IHe _ _ _ _ H) as [Hl2 Hp2]. simpl List.length in *.
      split; [lia|].
      replace (List.length ts - List.length r)
        with (S (List.length ts - List.length r - 1)) by lia.
      rewrite parse_elems_eq.
      rewrite (parse_value_mono (List.length ts - S (List.length rest'))
                 (List.length ts - List.length r - 1) ts (v1, TComma :: rest'));
        [|lia|exact Hp].
      apply (parse_elems_mono (List.length rest' - List.length r)); [lia | exact Hp2].
  - intros acc ts v r. rewrite parse_members_eq.
    destruct ts as [|tk ts']; [discriminate|].
    destruct tk as [| | | | | |k]; try discriminate.
    destruct k; try discriminate.
    destruct ts' as [|tk' ts'']; [discriminate|].
    destruct tk'; try discriminate.
    destruct (parse_value f ts'') as [[v1 rest]|] eqn:E; [|discriminate].
    destruct (IHv _ _ _ E) as [Hl Hp].
    destruct rest as [|tk rest']; [discriminate|].
    destruct tk; try discriminate.
    + intros [= <- <-]. simpl List.length in *. split; [lia|].
      replace (S (S (List.length ts'')) - List.length rest')
        with (S (S (S (List.length ts'' - S (List.length rest'))))) by lia.
      rewrite parse_members_eq.
      rewrite (parse_value_mono (List.length ts'' - S (List.length rest'))
                 (S (S (List.length ts'' - S (List.length rest')))) ts''
                 (v1, TRBrace :: rest'));
        [reflexivity | lia | exact Hp].
    + intros H. destruct (IHm _ _ _ _ H) as [Hl2 Hp2]. simpl List.length in *.
      split; [lia|].
      replace (S (S (List.length ts'')) - List.length r)
        with (S (S (S (List.length ts'')) - List.length r - 1)) by lia.
      rewrite parse_members_eq.
      rewrite (parse_value_mono (List.length ts'' - S (List.length rest'))
                 (S (S (List.length ts'')) - List.length r - 1) ts''
                 (v1, TComma :: rest')); [|lia|exact Hp].
      apply (parse_members_mono (List.length rest' - List.length r)); [lia | exact Hp2].
Qed.

(** The fuel [loads] gives the parser never runs out: a parse that
    succeeds with some fuel succeeds with that of [loads]. *)
Lemma loads_fuel_adequate (s : string) (ts : list token) (f : nat) (v : pyval) :
  lex s = Some ts -> parse_value f ts = Some (v, []) -> loads s = Some v.
Proof.
  intros Hl Hp. unfold loads. rewrite Hl.
  destruct (proj1 (parse_fuel_bound f) _ _ _ Hp) as [_ Hb].
  rewrite (parse_value_mono (List.length ts - 0) (2 * List.length ts + 2) ts (v, []));
    [reflexivity | lia | exact Hb].
Qed.

End JsonFuel.

(** ** Collector *)

Lemma list_sum_snoc (l : list nat) (n : nat) :
  list_sum (l ++ [n])%list = list_sum l + n.
Proof. rewrite list_sum_app. simpl. lia. Qed.

Lemma count_char_join (c : ascii) (parts : list string) :
  Ascii.eqb LF c = false ->
  count_char c (join (str1 LF) parts) = list_sum (map (count_char c) parts).
Proof.
  intros Hc. induction parts as [|p rest IH]; [reflexivity|].
  destruct rest as [|p' rest'].
  - simpl. lia.
  - change (join (str1 LF) (p :: p' :: rest'))
      with (p ++ str1 LF ++ join (str1 LF) (p' :: rest')).
    assert (Hsep : count_char c (str1 LF) = 0).
    { unfold str1. cbn [count_char]. now rewrite Hc. }
    rewrite !count_char_app, IH, Hsep. reflexivity.
Qed.

Lemma join_head (sep : string) (c : ascii) (s : string) (rest : list string) :
  exists t, join sep (String c s :: rest) = String c t.
Proof. destruct rest; simpl; eexists; reflexivity. Qed.

Lemma has_char_pos (c : ascii) (s : string) :
  has_char c s = (0 <? count_char c s)%nat.
Proof.
  destruct (has_char c s) eqn:E.
  - apply has_char_count in E. symmetry. now apply Nat.ltb_lt.
  - apply has_char_false_count in E. now rewrite E.
Qed.

(** The second loop: its variables are the counts over what is collected,
    and a block it returns is made of the collected lines followed by a
    non-empty prefix of the remaining ones. *)
Lemma accumulate_sound (ls : list string) : forall bc collected started b,
  bc = (Z.of_nat (list_sum (map (count_char LBRACE) collected))
        - Z.of_nat (list_sum (map (count_char RBRACE) collected)))%Z ->
  started = (0 <? list_sum (map (count_char LBRACE) collected))%nat ->
  accumulate bc collected started ls = Some b ->
  (exists k, b = join (str1 LF) (collected ++ firstn (S k) ls)%list)
  /\ brace_balance b = 0%Z
  /\ 0 < count_char LBRACE b.
Proof.
  induction ls as [|line rest IH]; intros bc collected started b Hbc Hst; simpl;
    [discriminate|].
  set (bc' := (bc + Z.of_nat (count_char LBRACE line)
               - Z.of_nat (count_char RBRACE line))%Z).
  set (st' := started || has_char LBRACE line).
  assert (Hbc' : bc' = (Z.of_nat (list_sum (map (count_char LBRACE) (collected ++ [line])%list))
        - Z.of_nat (list_sum (map (count_char RBRACE) (collected ++ [line])%list)))%Z).
  { subst bc' bc. rewrite !map_app, !list_sum_app. simpl. lia. }
  assert (Hst' : st' = (0 <? list_sum (map (count_char LBRACE) (collected ++ [line])%list))%nat).
  { subst st' started. rewrite map_app, list_sum_app, has_char_pos. simpl.
    rewrite Nat.add_0_r.
    destruct (list_sum (map (count_char LBRACE) collected)), (count_char LBRACE line);
      reflexivity. }
  destruct (st' && (bc' =? 0)%Z) eqn:E.
  - intros [= <-]. apply andb_true_iff in E as [E1 E2].
    apply Z.eqb_eq in E2.
    split; [exists 0; reflexivity|].
    unfold brace_balance.
    rewrite !count_char_join by reflexivity.
    split; [lia|].
    rewrite Hst' in E1. now apply Nat.ltb_lt in E1.
  - intros H. destruct (IH _ _ _ _ Hbc' Hst' H) as ([k Hk] & Hb & Hc).
    split; [|now split].
    exists (S k). rewrite Hk, <- app_assoc. reflexivity.
Qed.

Lemma find_json_start_head (ls : list string) (first : string) (rest : list string) :
  find_json_start ls = Some (first, rest) ->
  exists t, first = String LBRACE t.
Proof.
  induction ls as [|l ls' IH]; simpl; [discriminate|].
  destruct (starts_with_char LBRACE (lstrip l)) eqn:E; [|exact IH].
  intros [= <- <-]. destruct (lstrip l) as [|d t]; [discriminate|].
  simpl in E. apply Ascii.eqb_eq in E. subst d. now exists t.
Qed.

(** Every block the collector assembles starts with an opening brace. *)
Lemma collect_block_head (lines : list string) (start_index : nat) (b : string) :
  collect_block lines start_index = Some b -> exists t, b = String LBRACE t.
Proof.
  unfold collect_block.
  destruct (find_json_start (skipn start_index lines)) as [[first rest]|] eqn:F;
    [|discriminate].
  destruct (find_json_start_head _ _ _ F) as [t ->].
  intros H. apply accumulate_sound in H as ([k ->] & _); [|reflexivity..].
  simpl app. apply join_head.
Qed.

Lemma lstrip_brace (t : string) : lstrip (String LBRACE t) = String LBRACE t.
Proof. destruct t as [|b [|c r]]; reflexivity. Qed.

Lemma sanitize_head_brace (t : string) :
  exists t', sanitize_json_block (String LBRACE t) = String LBRACE t'.
Proof. unfold sanitize_json_block, strip_ansi. simpl. eexists. reflexivity. Qed.

(** The collector returns [None] or a dictionary. *)
Lemma collect_none_or_dict (lines : list string) (start_index : nat) :
  collect_json_from_line_list lines start_index = PNone
  \/ is_dict (collect_json_from_line_list lines start_index) = true.
Proof.
  unfold collect_json_from_line_list.
  destruct (collect_block lines start_index) as [b|] eqn:B; [|now left].
  destruct (collect_block_head _ _ _ B) as [t ->].
  destruct (sanitize_head_brace t) as [t' ->].
  destruct (Json.loads (String LBRACE t')) as [v|] eqn:L; [|now left].
  right. exact (loads_brace_dict _ _ L).
Qed.

Lemma object_at_none_or_dict (lines : list string) (i : nat) :
  object_at lines i = PNone \/ is_dict (object_at lines i) = true.
Proof.
  unfold object_at. destruct (nth_error lines i) as [line|]; [|now left].
  destruct (has_char LBRACE line); apply collect_none_or_dict.
Qed.

(** ** Extractor *)

Lemma dict_or_none_cases (v : pyval) :
  v = PNone \/ is_dict v = true -> v = PNone \/ exists d, v = PDict d.
Proof.
  intros [H | H]; [now left|]. destruct v; try discriminate. right. now eexists.
Qed.

Lemma has_all_keys_dict (keys : list string) (d : Dict.t) :
  has_all_keys keys (PDict d) = Ok (forallb (fun k => Dict.mem k d) keys).
Proof.
  induction keys as [|k ks IH]; simpl; [reflexivity|].
  destruct (Dict.mem k d); simpl; [exact IH | reflexivity].
Qed.

Lemma pick_none_or_dict (accept : pyval -> bool) (lines : list string)
    (indices : list nat) :
  pick accept lines indices = PNone \/ is_dict (pick accept lines indices) = true.
Proof.
  induction indices as [|i rest IH]; simpl; [now left|].
  destruct (accept (object_at lines i)); [apply object_at_none_or_dict | exact IH].
Qed.

(** With required keys, the loop returns the first object that is a mapping
    with those keys, and never raises. *)
Lemma first_acceptable_keys (lines : list string) (keys : list string)
    (indices : list nat) :
  keys <> [] ->
  first_acceptable lines keys indices = Ok (pick (has_keys keys) lines indices).
Proof.
  intros Hk. induction indices as [|i rest IH]; simpl; [reflexivity|].
  destruct (dict_or_none_cases _ (object_at_none_or_dict lines i)) as [-> | [d ->]].
  - simpl. exact IH.
  - simpl. destruct keys as [|k ks]; [contradiction|].
    rewrite has_all_keys_dict. simpl.
    destruct (Dict.mem k d && forallb _ ks); [reflexivity | exact IH].
Qed.

(** Without required keys, it returns the first object that decodes. *)
Lemma first_acceptable_any (lines : list string) (indices : list nat) :
  first_acceptable lines [] indices
  = Ok (pick (fun obj => negb (is_none obj)) lines indices).
Proof.
  induction indices as [|i rest IH]; simpl; [reflexivity|].
  destruct (is_none (object_at lines i)); simpl; [exact IH | reflexivity].
Qed.

Lemma extract_with_keys (lines : list string) (marker : string) (keys : list string)
    (first : bool) :
  keys <> [] ->
  extract_json_after_marker lines marker keys first
  = Ok (pick (has_keys keys) lines
          (if first then matching_indices (contains marker) lines
           else rev (matching_indices (contains marker) lines))).
Proof.
  intros Hk. unfold extract_json_after_marker.
  destruct (matching_indices (contains marker) lines) eqn:E.
  - now destruct first.
  - now apply first_acceptable_keys.
Qed.

Lemma extract_without_keys (lines : list string) (marker : string) (first : bool) :
  extract_json_after_marker lines marker [] first
  = Ok (pick (fun obj => negb (is_none obj)) lines
          (if first then matching_indices (contains marker) lines
           else rev (matching_indices (contains marker) lines))).
Proof.
  unfold extract_json_after_marker.
  destruct (matching_indices (contains marker) lines) eqn:E.
  - now destruct first.
  - apply first_acceptable_any.
Qed.

Lemma generic_request_pick (lines : list string) (indices : list nat) :
  generic_request lines indices
  = Ok (pick (has_keys ["cart"; "destination"]) lines indices).
Proof.
  induction indices as [|i rest IH]; simpl; [reflexivity|].
  destruct (dict_or_none_cases _ (object_at_none_or_dict lines i)) as [-> | [d ->]].
  - simpl. exact IH.
  - unfold generic_request_ok. simpl.
    destruct d as [|e d']; simpl; [exact IH|].
    destruct (Dict.mem "cart" (e :: d')); simpl; [|exact IH].
    destruct (Dict.mem "destination" (e :: d')); simpl; [reflexivity | exact IH].
Qed.

(** ** Resolver *)

(** The head of the pairs of a tier, as a value. *)
Lemma pick_pairs (keys : list string) (lines : list string) (indices : list nat) :
  pick (has_keys keys) lines indices
  = match flat_map (fun i => if has_keys keys (object_at lines i)
                             then [(i, object_at lines i)] else []) indices with
    | [] => PNone
    | (_, p) :: _ => p
    end.
Proof.
  induction indices as [|i rest IH]; simpl; [reflexivity|].
  destruct (has_keys keys (object_at lines i)); simpl; [reflexivity | exact IH].
Qed.

(** Every request strategy returns the payload of the first well-formed
    pair of its tier, [None] when the tier has none; it never raises. *)
Lemma request_strategy_pairs (t : request_tier) (lines : list string) :
  request_strategy t lines
  = Ok match request_pairs t lines with
       | [] => PNone
       | (_, p) :: _ => p
       end.
Proof.
  unfold request_pairs. rewrite <- pick_pairs.
  destruct t; simpl;
    first [apply (extract_with_keys _ _ _ true); discriminate
          | apply generic_request_pick].
Qed.

Lemma request_pairs_keys (t : request_tier) (lines : list string) (i : nat) (p : pyval) :
  In (i, p) (request_pairs t lines) -> has_keys (request_keys t) p = true.
Proof.
  unfold request_pairs. intros H. apply in_flat_map in H as (j & _ & H).
  destruct (has_keys (request_keys t) (object_at lines j)) eqn:E; [|contradiction].
  destruct H as [[= <- <-] | []]. exact E.
Qed.

Lemma has_keys_not_none (keys : list string) (p : pyval) :
  has_keys keys p = true -> is_none p = false.
Proof. destruct p; simpl; congruence. Qed.

Lemma response_strategy_total (t : response_tier) (lines : list string) :
  exists v, response_strategy t lines = Ok v.
Proof.
  destruct t; simpl; unfold adapted_response;
    try (rewrite extract_without_keys; simpl); eexists; reflexivity.
Qed.

(** Once the variable holds a value, the remaining strategies are skipped. *)
Lemma try_in_order_found (current : pyval) (strategies : list (exc pyval)) :
  is_none current = false -> try_in_order current strategies = Ok current.
Proof.
  intros H. induction strategies as [|s rest IH]; simpl; [reflexivity|].
  unfold if_none. rewrite H. simpl. exact IH.
Qed.

(** Strategies that do not raise: the outcome is the first value that is
    not [None], if there is one. *)
Lemma try_in_order_total (strategies : list (exc pyval)) :
  Forall (fun s => exists v, s = Ok v) strategies ->
  exists r, try_in_order PNone strategies = Ok r
            /\ (is_none r = true -> Forall (fun s => s = Ok PNone) strategies)
            /\ (is_none r = false -> In (Ok r) strategies).
Proof.
  induction 1 as [|s rest [v ->] _ IH]; simpl.
  - exists PNone. repeat split; [constructor | discriminate].
  - destruct (is_none v) eqn:E.
    + destruct v; try discriminate.
      destruct IH as (r & -> & H1 & H2). exists r. repeat split.
      * intros Hr. constructor; [reflexivity | now apply H1].
      * intros Hr. right. now apply H2.
    + rewrite (try_in_order_found v rest E). exists v. repeat split.
      * congruence.
      * intros _. now left.
Qed.

Lemma try_in_order_none_head (rest : list (exc pyval)) :
  try_in_order PNone (Ok PNone :: rest) = try_in_order PNone rest.
Proof. reflexivity. Qed.

Lemma try_in_order_first (p : pyval) (rest : list (exc pyval)) :
  is_none p = false -> try_in_order PNone (Ok p :: rest) = Ok p.
Proof. intros H. simpl. now apply try_in_order_found. Qed.

Lemma try_in_order_all_none (strategies : list (exc pyval)) :
  Forall (fun s => s = Ok PNone) strategies ->
  try_in_order PNone strategies = Ok PNone.
Proof. induction 1 as [|s rest -> _ IH]; simpl; [reflexivity | exact IH]. Qed.

Lemma request_strategies_total (lines : list string) :
  Forall (fun s => exists v, s = Ok v)
         (map (fun t => request_strategy t lines) request_tiers).
Proof.
  apply Forall_forall. intros s H. apply in_map_iff in H as (t & <- & _).
  rewrite request_strategy_pairs. now eexists.
Qed.

Lemma response_strategies_total (lines : list string) :
  Forall (fun s => exists v, s = Ok v)
         (map (fun t => response_strategy t lines) response_tiers).
Proof.
  apply Forall_forall. intros s H. apply in_map_iff in H as (t & <- & _).
  apply response_strategy_total.
Qed.

(** The request side ends with a value other than [None] or with the
    request error. *)
Lemma resolve_request_cases (lines : list string) :
  (exists r t, resolve_request lines = Ok r /\ is_none r = false
               /\ request_strategy t lines = Ok r)
  \/ resolve_request lines = Raise request_error.
Proof.
  unfold resolve_request.
  destruct (try_in_order_total _ (request_strategies_total lines)) as (r & -> & _ & H).
  simpl. destruct (is_none r) eqn:E; [now right|]. left.
  destruct (proj1 (in_map_iff _ _ _) (H eq_refl)) as (t & Ht & _).
  exists r, t. auto.
Qed.

(** * The claims *)

(** ** Sanitizer *)

(** C5. On every text that is valid JSON source, that is, every text the
    decoder accepts, the sanitizer is idempotent: applying it twice gives
    the same text as applying it once. *)
Theorem sanitize_idempotent_on_json (t : string) (v : pyval) :
  Json.loads t = Some v ->
  sanitize_json_block (sanitize_json_block t) = sanitize_json_block t.
Proof.
  intros H. apply sanitize_idempotent_esc_free. exact (loads_esc_free t v H).
Qed.

Lemma sanitize_idempotent_on_json_witness :
  let t := dquoted "{'a': [1, 'x y']," ++ String CR (String LF (dquoted " 'b': null}")) in
  Json.loads t = Some (PDict [("a", PList [PInt 1; PStr "x y"]); ("b", PNone)])
  /\ sanitize_json_block (sanitize_json_block t) = sanitize_json_block t.
Proof.
  intros t. split; [vm_compute; reflexivity|].
  apply (sanitize_idempotent_on_json t
           (PDict [("a", PList [PInt 1; PStr "x y"]); ("b", PNone)])).
  vm_compute. reflexivity.
Defined.

(** C6, as amended.  Take any input text and any position of the text that
    remains once the ANSI sequences are stripped, the text the scan loop
    runs over; let the character there be a control character (code point
    below 32) that does not follow an unconsumed backslash.  Inside a string
    literal the sanitizer writes backslash-n for a newline, backslash-r for
    a carriage return and one space for any other such character; outside,
    it keeps a newline or a tab and drops every other one, the carriage
    return included.  The text before the position and the text after it
    are scanned as if the character were not there. *)
Theorem sanitize_control_positions (block pre post : string) (ch : ascii) :
  strip_ansi block = pre ++ String ch post ->
  escape_next (scan_flags scan_init pre) = false ->
  is_control ch = true ->
  sanitize_json_block block
  = scan scan_init pre
    ++ control_rewrite (in_string (scan_flags scan_init pre)) ch
    ++ scan (scan_flags scan_init pre) post.
Proof.
  intros Hb He Hc. unfold sanitize_json_block. rewrite Hb, scan_app.
  simpl scan at 2. now rewrite (scan_step_control _ _ He Hc).
Qed.

Lemma sanitize_control_positions_witness :
  let pre := dquoted "{'a': 'x" in
  let post := dquoted "y'," ++ String CR (String LF (dquoted " 'b': 1}")) in
  strip_ansi sample_block = pre ++ String TAB post
  /\ in_string (scan_flags scan_init pre) = true
  /\ sanitize_json_block sample_block
     = scan scan_init pre ++ str1 SPACE ++ scan (scan_flags scan_init pre) post.
Proof.
  intros pre post. split; [reflexivity|]. split; [reflexivity|].
  apply (sanitize_control_positions sample_block pre post TAB); reflexivity.
Defined.

(** C6, as stated, fails where the control character opens an ANSI
    sequence: the ESC inside the string literal of [coloured_literal] does
    not follow a backslash and has code point 27, yet it is removed with its
    sequence instead of being replaced by a space. *)
Lemma sanitize_escape_in_literal_not_spaced :
  let pre := str1 DQUOTE in
  let post := "[0m" ++ str1 DQUOTE in
  coloured_literal = pre ++ String ESC post
  /\ in_string (scan_flags scan_init pre) = true
  /\ escape_next (scan_flags scan_init pre) = false
  /\ is_control ESC = true
  /\ sanitize_json_block coloured_literal = String DQUOTE (str1 DQUOTE)
  /\ ~ (exists rest,
          sanitize_json_block coloured_literal
          = scan scan_init pre ++ control_rewrite true ESC ++ rest).
Proof.
  repeat split. intros [rest H]. vm_compute in H. discriminate H.
Qed.

(** ** Collector *)

(** C7. Whatever the line list and the start index, a candidate block that
    the collector assembles has lexical brace balance zero, has an opening
    brace as its first character that is not whitespace, and contains at
    least one opening brace. *)
Theorem collector_block_balanced (lines : list string) (start_index : nat) (b : string) :
  collect_block lines start_index = Some b ->
  brace_balance b = 0%Z
  /\ first_non_space b = Some LBRACE
  /\ 0 < count_char LBRACE b.
Proof.
  intros H. destruct (collect_block_head _ _ _ H) as [t Ht].
  unfold collect_block in H.
  destruct (find_json_start (skipn start_index lines)) as [[first rest]|];
    [|discriminate].
  apply accumulate_sound in H as (_ & Hb & Hc); [|reflexivity..].
  repeat split; [exact Hb | | exact Hc].
  unfold first_non_space. now rewrite Ht, lstrip_brace.
Qed.

Lemma collector_block_balanced_witness :
  exists b, collect_block sample_log 1 = Some b
            /\ brace_balance b = 0%Z
            /\ first_non_space b = Some LBRACE
            /\ 0 < count_char LBRACE b.
Proof.
  eexists. split; [vm_compute; reflexivity|].
  apply (collector_block_balanced sample_log 1). vm_compute. reflexivity.
Defined.

(** C10. Whatever the line list and the start index, a value other than
    [None] that the collector returns is a dictionary; so is a value other
    than [None] that the extractor returns, and the extractor never raises;
    and wherever the required-keys filter is evaluated, on the object
    collected after a match, it is a key lookup on a dictionary. *)
Theorem collector_returns_mapping (lines : list string) (start_index : nat)
    (marker : string) (require_keys : list string) (first : bool) :
  (collect_json_from_line_list lines start_index <> PNone ->
   is_dict (collect_json_from_line_list lines start_index) = true)
  /\ (exists v, extract_json_after_marker lines marker require_keys first = Ok v
                /\ (v <> PNone -> is_dict v = true))
  /\ (forall i, object_at lines i <> PNone ->
        exists d, object_at lines i = PDict d
                  /\ has_all_keys require_keys (object_at lines i)
                     = Ok (forallb (fun k => Dict.mem k d) require_keys)).
Proof.
  split; [|split].
  - destruct (collect_none_or_dict lines start_index) as [H | H]; [contradiction | auto].
  - destruct require_keys as [|k ks].
    + rewrite extract_without_keys. eexists. split; [reflexivity|].
      intros Hv.
      match goal with
      | |- is_dict (pick ?a ?l ?ix) = true =>
          destruct (pick_none_or_dict a l ix) as [H | H]; [contradiction | exact H]
      end.
    + rewrite extract_with_keys by discriminate. eexists. split; [reflexivity|].
      intros Hv.
      match goal with
      | |- is_dict (pick ?a ?l ?ix) = true =>
          destruct (pick_none_or_dict a l ix) as [H | H]; [contradiction | exact H]
      end.
  - intros i Hi.
    destruct (dict_or_none_cases _ (object_at_none_or_dict lines i)) as [H | [d H]];
      [contradiction|].
    exists d. rewrite H. split; [reflexivity | apply has_all_keys_dict].
Qed.

Lemma collector_returns_mapping_witness :
  collect_json_from_line_list sample_log 1 <> PNone
  /\ is_dict (collect_json_from_line_list sample_log 1) = true
  /\ extract_json_after_marker sample_log "[REQUEST]:" ["cart"] true
     = Ok (PDict [("cart", PDict [("items", PList [])])]).
Proof.
  assert (H : collect_json_from_line_list sample_log 1 <> PNone)
    by (vm_compute; discriminate).
  split; [exact H|]. split.
  - exact (proj1 (collector_returns_mapping sample_log 1 "[REQUEST]:" ["cart"] true) H).
  - vm_compute. reflexivity.
Defined.

(** ** Resolver *)

(** C1, as amended.  Take a log text in which some request tier has exactly
    one marker and JSON pair that the collector reads as well-formed (a line
    with the marker of the tier, such that the block collected by brace
    counting from the first brace of the line, or else from the first later
    line that starts with a brace, decodes to a mapping with the keys the
    tier requires) and no tier of higher priority has any.  The request
    resolver selects the payload of that tier, whatever the tiers of lower
    priority hold and wherever their markers stand in the file. *)
Theorem resolver_prefers_highest_tier (lines : list string) (t : request_tier)
    (i : nat) (p : pyval) :
  request_pairs t lines = [(i, p)] ->
  (forall t', request_rank t' < request_rank t -> request_pairs t' lines = []) ->
  resolve_request lines = Ok p.
Proof.
  intros Hp Hhi.
  assert (Hn : is_none p = false).
  { apply (has_keys_not_none (request_keys t)), (request_pairs_keys t lines i).
    rewrite Hp. now left. }
  unfold resolve_request, request_tiers. cbn [map].
  rewrite !request_strategy_pairs.
  destruct t;
    rewrite ?(Hhi ReqShopify), ?(Hhi ReqBigCommerce), ?(Hhi ReqGraphQL), ?(Hhi ReqTag)
      by (simpl; lia);
    rewrite Hp; cbv beta iota;
    rewrite ?try_in_order_none_head, (try_in_order_first p _ Hn);
    cbn [bind]; now rewrite Hn.
Qed.

Lemma resolver_prefers_highest_tier_witness :
  let p := PDict [("cart", PDict [("items", PList [PDict [("sku", PStr "A1")]])]);
                  ("destination", PDict [("city", PStr "Reno")])] in
  request_pairs ReqTag sample_log = [(0, PDict [("cart", PDict [("items", PList [])])])]
  /\ request_pairs ReqBigCommerce sample_log = [(1, p)]
  /\ resolve_request sample_log = Ok p.
Proof.
  intros p. split; [vm_compute; reflexivity|]. split; [vm_compute; reflexivity|].
  apply (resolver_prefers_highest_tier sample_log ReqBigCommerce 1 p).
  - vm_compute. reflexivity.
  - intros t' Ht'. destruct t'; simpl in Ht'; try lia. vm_compute. reflexivity.
Defined.

(** C1, as stated, fails on [brace_in_string_log]: its second line is a
    well-formed pair of tier 1, the marker followed by a JSON document of a
    mapping with both keys, and the only line with that marker; its first
    line is the only pair of tier 4.  A closing brace inside a string
    literal of the tier 1 document throws the brace count off, the collector
    assembles no block for it, and the resolver selects the payload of
    tier 4. *)
Lemma resolver_misses_brace_in_string :
  let p1 := PDict [("cart", PDict [("note", PStr "}")]);
                   ("destination", PDict [("city", PStr "Reno")])] in
  let p4 := PDict [("cart", PDict [("items", PList [])])] in
  textual_pair ReqShopify brace_in_string_log 1 p1
  /\ matching_indices (request_marker_line ReqShopify) brace_in_string_log = [1]
  /\ request_pairs ReqShopify brace_in_string_log = []
  /\ request_pairs ReqTag brace_in_string_log = [(0, p4)]
  /\ resolve_request brace_in_string_log = Ok p4
  /\ p4 <> p1.
Proof.
  intros p1 p4. split; [|repeat split; try (vm_compute; reflexivity); discriminate].
  exists (dquoted "12:00:02 Converted shopify request to "),
         (dquoted "{'cart': {'note': '}'}, 'destination': {'city': 'Reno'}}"), 0.
  repeat split; vm_compute; reflexivity.
Qed.

(** C2, as amended.  Within response tier 1 the matches of the marker are
    tried latest first and the tier stops at the first one whose block
    decodes.  If that payload is not the empty object, the tier selects it
    when it deeply contains [carrierGroups] and yields no match otherwise,
    without a look at the earlier matches of the marker; the resolver then
    falls through to the next tier. *)
Theorem shopify_response_latest_only (lines : list string) :
  latest_decoded lines shopify_response_marker <> PDict [] ->
  response_strategy RespShopify lines
  = Ok (if json_contains_carrier_groups (latest_decoded lines shopify_response_marker)
        then latest_decoded lines shopify_response_marker
        else PNone).
Proof.
  intros Hne. simpl. unfold adapted_response.
  rewrite extract_without_keys. simpl bind.
  fold (latest_decoded lines shopify_response_marker).
  destruct (dict_or_none_cases _
              (pick_none_or_dict (fun obj => negb (is_none obj)) lines
                 (rev (matching_indices (contains shopify_response_marker) lines))))
    as [H | [d H]]; fold (latest_decoded lines shopify_response_marker) in H;
    rewrite H in *.
  - reflexivity.
  - unfold keep_if_carrier_groups.
    destruct d as [|e d']; [contradiction|].
    cbn [truthy andb].
    now destruct (json_contains_carrier_groups (PDict (e :: d'))).
Qed.

Lemma shopify_response_latest_only_witness :
  latest_decoded two_responses_log shopify_response_marker
  = PDict [("status", PStr "partial")]
  /\ response_strategy RespShopify two_responses_log = Ok PNone.
Proof.
  split; [vm_compute; reflexivity|].
  assert (H : latest_decoded two_responses_log shopify_response_marker <> PDict [])
    by (vm_compute; discriminate).
  exact (shopify_response_latest_only two_responses_log H).
Defined.

(** C2, as stated, fails on [two_responses_log]: latest first, the first
    match whose payload deeply contains [carrierGroups] is the one of the
    second line, which the claim has the tier select; the tier yields no
    match, and with no other response in the log the resolver gives up. *)
Lemma shopify_response_no_second_look :
  claimed_shopify_response two_responses_log = PDict [("carrierGroups", PList [])]
  /\ response_strategy RespShopify two_responses_log = Ok PNone
  /\ response_strategy RespShopify two_responses_log
     <> Ok (claimed_shopify_response two_responses_log)
  /\ resolve_response two_responses_log = Raise response_error.
Proof. repeat split; vm_compute; try reflexivity. discriminate. Qed.

(** C3, at a failing input.  On [empty_response_log] the resolver returns,
    and the response payload it returns is the empty object, which holds no
    [carrierGroups] key at any depth. *)
Theorem empty_response_is_accepted :
  resolve_payloads empty_response_log
  = Ok (PDict [("cart", PDict [("items", PList [])])], PDict [])
  /\ json_contains_carrier_groups (PDict []) = false.
Proof. split; vm_compute; reflexivity. Qed.

(** The part of the invariant that holds: a resolved request payload is a
    dictionary with the key [cart]. *)
Lemma resolved_request_has_cart (lines : list string) (r : pyval) :
  resolve_request lines = Ok r -> has_keys ["cart"] r = true.
Proof.
  intros H. destruct (resolve_request_cases lines) as [(r' & t & H1 & Hn & Ht) | H1];
    [|congruence].
  rewrite H1 in H. injection H as <-.
  rewrite request_strategy_pairs in Ht. injection Ht as Ht.
  destruct (request_pairs t lines) as [|[i p] rest] eqn:E; [now subst r'|].
  subst p. assert (Hk : has_keys (request_keys t) r' = true).
  { apply (request_pairs_keys t lines i). rewrite E. now left. }
  destruct r'; try discriminate. simpl in *.
  destruct t; simpl in Hk; apply andb_true_iff in Hk as [Hk _]; now rewrite Hk.
Qed.

(** A resolved response payload is the empty object or deeply contains
    [carrierGroups]. *)
Lemma resolved_response_shape (lines : list string) (r : pyval) :
  resolve_response lines = Ok r ->
  r = PDict [] \/ json_contains_carrier_groups r = true.
Proof.
  unfold resolve_response.
  destruct (try_in_order_total _ (response_strategies_total lines)) as (v & -> & _ & Hin).
  simpl. destruct (is_none v) eqn:E; [discriminate|]. intros [= <-].
  destruct (proj1 (in_map_iff _ _ _) (Hin eq_refl)) as (t & Ht & _).
  assert (Hkeep : forall x, v = keep_if_carrier_groups x ->
                  x = PNone \/ is_dict x = true ->
                  v = PDict [] \/ json_contains_carrier_groups v = true).
  { intros x -> Hx. unfold keep_if_carrier_groups in *.
    destruct (dict_or_none_cases _ Hx) as [-> | [d ->]]; [discriminate E|].
    destruct d as [|e d']; [now left|]. cbn [truthy andb] in *.
    destruct (json_contains_carrier_groups (PDict (e :: d'))) eqn:C;
      [now right | discriminate E]. }
  destruct t; simpl in Ht; unfold adapted_response in Ht;
    try (rewrite extract_without_keys in Ht; injection Ht as Ht;
         eapply Hkeep; [symmetry; exact Ht | apply pick_none_or_dict]).
  injection Ht as Ht. right. clear Hin Hkeep.
  induction (matching_indices generic_response_line lines) as [|i rest IH];
    simpl in Ht; [subst v; discriminate E|].
  destruct (truthy (object_at lines i) && json_contains_carrier_groups (object_at lines i))
    eqn:C; [|exact (IH Ht)].
  subst v. now apply andb_true_iff in C.
Qed.

(** ** Processing *)

(** The part of the claim on exhausted strategies that holds: if every
    request strategy yields [None] on the lines of the log, or every
    response strategy does, [parse_log_file] raises the extraction error
    with its message, no report file is written, and the process exits with
    status 1. *)
Lemma exhausted_strategies_abort (repr_other : pyval -> string)
    (generate_report : summary -> exc string) (out_path : string)
    (text : string) :
  (forall t, request_strategy t (splitlines text) = Ok PNone)
  \/ (forall t, response_strategy t (splitlines text) = Ok PNone) ->
  exists msg,
    (msg = "Could not extract request JSON from this log."
     \/ msg = "Could not extract response JSON from this log.")
    /\ parse_log_file repr_other text = Raise (ValueError msg)
    /\ process_log repr_other generate_report out_path text
       = Outcome 1 None (Some (ValueError msg)).
Proof.
  intros H. set (lines := splitlines text) in *.
  assert (Hr : exists msg,
             (msg = "Could not extract request JSON from this log."
              \/ msg = "Could not extract response JSON from this log.")
             /\ resolve_payloads lines = Raise (ValueError msg)).
  { unfold resolve_payloads.
    destruct (resolve_request_cases lines) as [(r & t & Hreq & Hn & Ht) | Hreq].
    - destruct H as [H | H]; [rewrite H in Ht; injection Ht as <-; discriminate Hn|].
      eexists. split; [right; reflexivity|].
      rewrite Hreq. cbn [bind]. unfold resolve_response.
      rewrite try_in_order_all_none; [reflexivity|].
      apply Forall_forall. intros s Hs. apply in_map_iff in Hs as (t' & <- & _).
      apply H.
    - eexists. split; [left; reflexivity|]. now rewrite Hreq. }
  destruct Hr as (msg & Hmsg & Hr). exists msg. split; [exact Hmsg|].
  unfold process_log, parse_log_file. fold lines. rewrite Hr. split; reflexivity.
Qed.

Lemma exhausted_strategies_abort_witness :
  splitlines noise_text = ["12:00:01 service started"; "12:00:02 nothing to report"]
  /\ (forall t, request_strategy t (splitlines noise_text) = Ok PNone)
  /\ exists msg,
       (msg = "Could not extract request JSON from this log."
        \/ msg = "Could not extract response JSON from this log.")
       /\ parse_log_file (fun _ => EmptyString) noise_text = Raise (ValueError msg)
       /\ process_log (fun _ => EmptyString) (fun _ => Ok "report") "rate_analysis.txt"
            noise_text
          = Outcome 1 None (Some (ValueError msg)).
Proof.
  assert (H : forall t, request_strategy t (splitlines noise_text) = Ok PNone)
    by (intros t; destruct t; vm_compute; reflexivity).
  split; [vm_compute; reflexivity|]. split; [exact H|].
  exact (exhausted_strategies_abort (fun _ => EmptyString) (fun _ => Ok "report")
           "rate_analysis.txt" noise_text (or_introl H)).
Defined.

(** C4, at a failing input.  On [empty_response_log] every response
    strategy fails: none yields a payload that holds [carrierGroups] at any
    depth (the first yields the empty object, the others [None]).  Yet
    [parse_log_file] raises nothing and returns a summary, the report is
    written and the process exits with status 0. *)
Theorem exhausted_response_still_reports (repr_other : pyval -> string)
    (out_path report : string) :
  (forall t, exists v, response_strategy t empty_response_log = Ok v
                       /\ json_contains_carrier_groups v = false)
  /\ splitlines (join (str1 LF) empty_response_log) = empty_response_log
  /\ parse_log_file repr_other (join (str1 LF) empty_response_log)
     = Ok (Summary (PDict []) (PDict []) [] [])
  /\ process_log repr_other (fun _ => Ok report) out_path
       (join (str1 LF) empty_response_log)
     = Outcome 0 (Some (out_path, report)) None.
Proof.
  split; [|split; [|split]].
  - intros t. destruct t; eexists; split; vm_compute; reflexivity.
  - vm_compute. reflexivity.
  - vm_compute. reflexivity.
  - vm_compute. reflexivity.
Qed.

(** ** Field normaliser *)

Lemma cart_loop_in (repr_other : pyval -> string) (items : list pyval) (ci : cart_item) :
  In ci (cart_loop repr_other items) ->
  exists item, In item items /\ normalize_item repr_other item = Ok ci.
Proof.
  induction items as [|it rest IH]; simpl; [contradiction|].
  destruct (normalize_item repr_other it) as [c|] eqn:E; [|contradiction].
  intros [<- | H].
  - exists it. auto.
  - destruct (IH H) as (item & Hin & Hn). exists item. auto.
Qed.

Lemma normalize_item_dimensions (repr_other : pyval -> string) (item : pyval)
    (ci : cart_item) :
  normalize_item repr_other item = Ok ci ->
  exists st, resolve_attributes repr_other item = Ok st
             /\ dimensions ci = render_dimensions repr_other st.
Proof.
  unfold normalize_item.
  destruct (resolve_attributes repr_other item) as [st|]; [|discriminate].
  cbn [bind]. destruct item; simpl; try discriminate.
  intros [= <-]. exists st. auto.
Qed.

(** The rendered text of three dimensions is never the sentinel: it holds
    the letter x. *)
Lemma rendered_not_sentinel (a b c : string) :
  a ++ "x" ++ b ++ "x" ++ c <> "N/A".
Proof.
  intros H. assert (E : has_char "x" (a ++ "x" ++ b ++ "x" ++ c) = true).
  { rewrite has_char_app. simpl. now rewrite orb_true_r. }
  rewrite H in E. discriminate E.
Qed.

(** C8. For every cart item the normaliser produces, the [dimensions]
    field is the sentinel N/A exactly when one of the resolved length,
    width and height is missing or falsy; otherwise it is the length, the
    letter x, the width, the letter x and the height, concatenated. *)
Theorem cart_dimensions (repr_other : pyval -> string) (request_json : pyval)
    (ci : cart_item) :
  In ci (extract_cart repr_other request_json) ->
  exists item st,
    normalize_item repr_other item = Ok ci
    /\ resolve_attributes repr_other item = Ok st
    /\ (dimensions ci = "N/A" <->
        truthy (v_length st) = false \/ truthy (v_width st) = false
        \/ truthy (v_height st) = false)
    /\ (truthy (v_length st) = true -> truthy (v_width st) = true ->
        truthy (v_height st) = true ->
        dimensions ci
        = py_str repr_other (v_length st) ++ "x" ++ py_str repr_other (v_width st)
          ++ "x" ++ py_str repr_other (v_height st)).
Proof.
  unfold extract_cart. intros H.
  destruct (c <- py_get request_json "cart" (PDict []) ;;
            items <- py_get c "items" (PList []) ;; py_iter items) as [items|];
    [|contradiction].
  apply cart_loop_in in H as (item & _ & Hn).
  destruct (normalize_item_dimensions _ _ _ Hn) as (st & Hst & Hd).
  exists item, st. split; [exact Hn|]. split; [exact Hst|].
  rewrite Hd. unfold render_dimensions.
  destruct (truthy (v_length st)), (truthy (v_width st)), (truthy (v_height st));
    simpl; split;
    try (split; [intros _; auto | reflexivity]);
    try (intros; discriminate);
    try (intros; reflexivity).
  split.
  - intros E. now apply rendered_not_sentinel in E.
  - intros [E | [E | E]]; discriminate E.
Qed.

Lemma cart_dimensions_witness :
  let ci := CartItem (PStr "A1") (PInt 2) PNone PNone (PStr "N/A") (PStr "N/A") "10x5x3" in
  option_map (extract_cart (fun _ => EmptyString)) (Json.loads example_request)
  = Some [ci]
  /\ exists item st,
       normalize_item (fun _ => EmptyString) item = Ok ci
       /\ resolve_attributes (fun _ => EmptyString) item = Ok st
       /\ (dimensions ci = "N/A" <->
           truthy (v_length st) = false \/ truthy (v_width st) = false
           \/ truthy (v_height st) = false)
       /\ (truthy (v_length st) = true -> truthy (v_width st) = true ->
           truthy (v_height st) = true ->
           dimensions ci
           = py_str (fun _ => EmptyString) (v_length st) ++ "x"
             ++ py_str (fun _ => EmptyString) (v_width st)
             ++ "x" ++ py_str (fun _ => EmptyString) (v_height st)).
Proof.
  intros ci. split; [vm_compute; reflexivity|].
  destruct (Json.loads example_request) as [request_json|] eqn:E;
    [|vm_compute in E; discriminate E].
  apply (cart_dimensions (fun _ => EmptyString) request_json ci).
  vm_compute in E. injection E as <-. vm_compute. now left.
Defined.

(** When no carrier of a group stops the loop, the entries of the group are
    those of its carriers, in order. *)
Lemma carriers_loop_complete (carriers : list pyval) :
  Forall (fun c => snd (carrier_run c) = None) carriers ->
  carriers_loop carriers = (flat_map (fun c => fst (carrier_run c)) carriers, None).
Proof.
  induction 1 as [|c rest Hc _ IH]; simpl; [reflexivity|].
  rewrite IH. destruct (carrier_run c) as [es fail]. simpl in Hc. subst fail.
  reflexivity.
Qed.

Lemma carrier_error_message_claimed (c : Dict.t) :
  truthy (get_or c "error" PNone) = false \/ is_dict (get_or c "error" PNone) = true ->
  carrier_error_message c = Ok (claimed_error_message c).
Proof.
  unfold carrier_error_message, claimed_error_message.
  destruct (get_or c "error" PNone) as [|b|z|f|s|l|e] eqn:E; intros [H | H];
    try discriminate H; unfold py_or; rewrite ?H; try reflexivity.
  - destruct e; [reflexivity | discriminate H].
  - destruct e; reflexivity.
Qed.

(** The run of a carrier without rates whose error, if it has one, is an
    object. *)
Lemma carrier_run_without_rates (c : Dict.t) :
  truthy (get_or c "rates" PNone) = false ->
  truthy (get_or c "error" PNone) = false \/ is_dict (get_or c "error" PNone) = true ->
  carrier_run (PDict c)
  = if truthy (get_or c "preventRulesApplied" PNone) || truthy (claimed_error_message c)
    then ([blocked_entry c (carrier_display_name c)
             (py_or (get_or c "preventRulesApplied" PNone) (PList []))
             (claimed_error_message c)], None)
    else ([], None).
Proof.
  intros Hrates Herr.
  set (prevent := get_or c "preventRulesApplied" PNone).
  set (message := claimed_error_message c).
  assert (Hr : py_or (get_or c "rates" PNone) (PList []) = PList [])
    by (unfold py_or; now rewrite Hrates).
  assert (Hp : truthy (py_or prevent (PList [])) = truthy prevent)
    by (unfold py_or; now destruct (truthy prevent) eqn:T).
  unfold carrier_run. cbv zeta. rewrite Hr. cbn [py_iter rates_loop truthy then_run].
  unfold no_rates_run. cbv zeta.
  rewrite (carrier_error_message_claimed c Herr).
  unfold prevent_rules. fold prevent. fold message. rewrite Hp.
  now destruct (truthy prevent || truthy message).
Qed.

(** A loop that nothing stops before [x] goes on with [x]. *)
Lemma carriers_loop_reaches (pre post : list pyval) (x : pyval) :
  Forall (fun c => snd (carrier_run c) = None) pre ->
  carriers_loop (pre ++ x :: post)%list
  = ((flat_map (fun c => fst (carrier_run c)) pre
      ++ fst (then_run (carrier_run x) (carriers_loop post)))%list,
     snd (then_run (carrier_run x) (carriers_loop post))).
Proof.
  induction 1 as [|c pre Hc _ IH]; cbn [app flat_map carriers_loop].
  - now destruct (then_run (carrier_run x) (carriers_loop post)).
  - rewrite IH. destruct (carrier_run c) as [es fail]. simpl in Hc. subst fail.
    cbn [then_run fst snd]. now rewrite app_assoc.
Qed.

(** A loop that nothing stops before the group [x] goes on with [x]. *)
Lemma groups_loop_reaches (pre post : list pyval) (x : pyval) :
  Forall (fun g => snd (group_run g) = None) pre ->
  groups_loop (pre ++ x :: post)%list
  = ((flat_map (fun g => fst (group_run g)) pre
      ++ fst (then_run (group_run x) (groups_loop post)))%list,
     snd (then_run (group_run x) (groups_loop post))).
Proof.
  induction 1 as [|g pre Hg _ IH]; cbn [app flat_map groups_loop].
  - now destruct (then_run (group_run x) (groups_loop post)).
  - rewrite IH. destruct (group_run g) as [es fail]. simpl in Hg. subst fail.
    cbn [then_run fst snd]. now rewrite app_assoc.
Qed.

(** C9, as amended.  Take a response and a carrier entry in it that the
    loops reach: no carrier group before its group, and no carrier before
    it in its group, raises an exception.  Let its rates be empty and its
    [error], if it has one, be an object.  When its prevent rules or its
    error message (the internal message of the error object, else the
    external one) is non-empty, the normaliser emits exactly one method
    entry for it, after the entries of the carriers before it and before
    those of the carriers after it, which carries those prevent rules as
    [blocked_reasons] and that message as [error_message].  When both are
    empty, and so when the carrier has no prevent rules and no error object,
    it emits no entry for it. *)
Theorem carrier_without_rates (d g c : Dict.t) (gpre gpost cpre cpost : list pyval) :
  get_or d "carrierGroups" (PList []) = PList (gpre ++ PDict g :: gpost)%list ->
  get_or g "carrierRates" (PList []) = PList (cpre ++ PDict c :: cpost)%list ->
  Forall (fun x => snd (group_run x) = None) gpre ->
  Forall (fun x => snd (carrier_run x) = None) cpre ->
  truthy (get_or c "rates" PNone) = false ->
  truthy (get_or c "error" PNone) = false \/ is_dict (get_or c "error" PNone) = true ->
  let prevent := get_or c "preventRulesApplied" PNone in
  let message := claimed_error_message c in
  let before := (flat_map (fun x => fst (group_run x)) gpre
                 ++ flat_map (fun x => fst (carrier_run x)) cpre)%list in
  let after := fst (then_run (carriers_loop cpost) (groups_loop gpost)) in
  (truthy prevent || truthy message = true ->
   exists e, extract_methods (PDict d) = (before ++ e :: after)%list
             /\ blocked_reasons e = py_or prevent (PList [])
             /\ error_message e = message)
  /\ (truthy prevent || truthy message = false ->
      extract_methods (PDict d) = (before ++ after)%list)
  /\ (truthy prevent = false -> Dict.get "error" c = None ->
      extract_methods (PDict d) = (before ++ after)%list).
Proof.
  intros Hd Hg Hgpre Hcpre Hrates Herr prevent message before after.
  assert (Hm : extract_methods (PDict d)
               = (before
                  ++ fst (carrier_run (PDict c)) ++ after)%list).
  { unfold extract_methods, py_get. fold (get_or d "carrierGroups" (PList [])).
    rewrite Hd. cbn [bind py_iter].
    rewrite (groups_loop_reaches gpre gpost (PDict g) Hgpre). cbn [fst].
    unfold group_run at 2. rewrite Hg. cbn [py_iter].
    rewrite (carriers_loop_reaches cpre cpost (PDict c) Hcpre).
    rewrite (carrier_run_without_rates c Hrates Herr).
    subst before after.
    destruct (truthy (get_or c "preventRulesApplied" PNone)
              || truthy (claimed_error_message c));
      destruct (carriers_loop cpost) as [ec [xc|]];
      destruct (groups_loop gpost) as [eg fg];
      cbn [then_run fst snd app]; rewrite <- ?app_assoc; cbn [app];
      rewrite ?app_nil_r; reflexivity. }
  rewrite Hm, (carrier_run_without_rates c Hrates Herr).
  fold prevent. fold message. split; [|split].
  - intros H. rewrite H. eexists. split; [reflexivity|]. split; reflexivity.
  - intros H. now rewrite H.
  - intros Hp Hnone. rewrite Hp. subst message.
    unfold claimed_error_message, get_or. now rewrite Hnone.
Qed.

Lemma carrier_without_rates_witness :
  let response := response_of_carriers
                    [PDict silent_carrier; PDict blocked_carrier; PDict silent_carrier] in
  (exists e, extract_methods response = [e]
             /\ blocked_reasons e = PList [PStr "No PO boxes"]
             /\ error_message e = PStr "Service unavailable")
  /\ extract_methods (response_of_carriers [PDict silent_carrier]) = [].
Proof.
  intros response.
  assert (Hc : Forall (fun x => snd (carrier_run x) = None) [PDict silent_carrier])
    by (repeat constructor).
  split.
  - apply (proj1 (carrier_without_rates
                    [("carrierGroups",
                      PList [PDict [("carrierRates",
                                     PList [PDict silent_carrier; PDict blocked_carrier;
                                            PDict silent_carrier])]])]
                    [("carrierRates",
                      PList [PDict silent_carrier; PDict blocked_carrier;
                             PDict silent_carrier])]
                    blocked_carrier [] [] [PDict silent_carrier] [PDict silent_carrier]
                    eq_refl eq_refl (Forall_nil _) Hc eq_refl (or_intror eq_refl))).
    reflexivity.
  - apply (proj2 (proj2 (carrier_without_rates
                           [("carrierGroups",
                             PList [PDict [("carrierRates",
                                            PList [PDict silent_carrier])]])]
                           [("carrierRates", PList [PDict silent_carrier])]
                           silent_carrier [] [] [] []
                           eq_refl eq_refl (Forall_nil _) (Forall_nil _)
                           eq_refl (or_introl eq_refl)))); reflexivity.
Defined.

(** C9, as stated, fails after an exception and on an error that is no
    object: [blocked_carrier] has empty rates and a prevent rule, yet it
    gets no entry when the carrier before it has a number for its rates,
    which stops the extraction; and [text_error_carrier], with empty rates
    and a prevent rule, gets no entry because its error is a text. *)
Lemma carrier_after_failure_omitted :
  truthy (get_or blocked_carrier "rates" PNone) = false
  /\ truthy (get_or blocked_carrier "preventRulesApplied" PNone) = true
  /\ extract_methods (response_of_carriers [PDict failing_carrier; PDict blocked_carrier])
     = []
  /\ truthy (get_or text_error_carrier "rates" PNone) = false
  /\ truthy (get_or text_error_carrier "preventRulesApplied" PNone) = true
  /\ extract_methods (response_of_carriers [PDict text_error_carrier]) = [].
Proof. repeat split; vm_compute; reflexivity. Qed.

(** The example of the specification: the request and the response
    normalise to one cart item with dimensions 10x5x3 and one method entry
    for UPS Ground with final price 12.5, shipped from Boise to Reno. *)
Example specification_example (repr_other : pyval -> string) :
  exists request_json response_json m,
    Json.loads example_request = Some request_json
    /\ Json.loads example_response = Some response_json
    /\ extract_fields repr_other request_json response_json
       = Summary (PDict [("city", PStr "Boise")]) (PDict [("city", PStr "Reno")])
           [CartItem (PStr "A1") (PInt 2) PNone PNone (PStr "N/A") (PStr "N/A") "10x5x3"]
           [m]
    /\ carrier m = PStr "UPS" /\ service_name m = PStr "Ground"
    /\ final m = PFloat (FDec false 125 (-1)).
Proof. do 3 eexists. repeat split; vm_compute; reflexivity. Qed.

(** * Further properties of the code *)

(** ** Strings *)

Lemma prefix_spec (a b : string) :
  String.prefix a b = true <-> exists post, b = a ++ post.
Proof.
  revert b. induction a as [|c a IH]; intros b.
  - split; [intros _; now exists b | intros _; now destruct b].
  - destruct b as [|d b]; simpl;
      [split; [discriminate | intros [post H]; discriminate H]|].
    destruct (ascii_dec c d) as [->|Hne].
    + rewrite IH. split; intros [post H]; exists post; [now rewrite H | now injection H].
    + split; [discriminate|]. intros [post H]. injection H as H _. congruence.
Qed.

(** [contains] is the substring test. *)
Lemma contains_spec (needle hay : string) :
  contains needle hay = true <-> exists pre post, hay = pre ++ needle ++ post.
Proof.
  induction hay as [|c hay IH]; cbn [contains].
  - rewrite orb_false_r, prefix_spec. split.
    + intros [post H]. exists EmptyString, post. exact H.
    + intros [pre [post H]]. destruct pre; [now exists post | discriminate H].
  - rewrite orb_true_iff, prefix_spec, IH. split.
    + intros [[post H] | [pre [post H]]].
      * exists EmptyString, post. exact H.
      * exists (String c pre), post. simpl. now rewrite H.
    + intros [pre [post H]]. destruct pre as [|d pre].
      * left. now exists post.
      * right. injection H as _ H. now exists pre, post.
Qed.

(** ** Sanitizer *)

Lemma scan_step_changes (st st' : scan_state) (ch : ascii) (out : string) :
  scan_step st ch = (st', out) ->
  out = str1 ch
  \/ (is_control ch = true
      /\ (out = EmptyString \/ out = String BACKSLASH (str1 "n")
          \/ out = String BACKSLASH (str1 "r") \/ out = str1 SPACE)).
Proof.
  destruct st as [ins esc]. unfold scan_step. simpl.
  destruct esc; [intros [= <- <-]; now left|].
  destruct (Ascii.eqb ch BACKSLASH); [intros [= <- <-]; now left|].
  destruct (Ascii.eqb ch DQUOTE); [intros [= <- <-]; now left|].
  destruct ins.
  - destruct (Ascii.eqb ch LF) eqn:E1;
      [apply Ascii.eqb_eq in E1; subst ch; intros [= <- <-]; right; auto|].
    destruct (Ascii.eqb ch CR) eqn:E2;
      [apply Ascii.eqb_eq in E2; subst ch; intros [= <- <-]; right; auto 6|].
    destruct (is_control ch); intros [= <- <-]; [right; auto 6 | now left].
  - destruct (Ascii.eqb ch CR) eqn:E2;
      [apply Ascii.eqb_eq in E2; subst ch; intros [= <- <-]; right; auto|].
    destruct (is_control ch) eqn:C; simpl.
    + destruct (Ascii.eqb ch LF || Ascii.eqb ch TAB); simpl; intros [= <- <-];
        [now left | right; auto].
    + intros [= <- <-]. now left.
Qed.

Lemma scan_preserves_count (c : ascii) (s : string) : forall st,
  is_control c = false -> c <> BACKSLASH -> c <> "n"%char -> c <> "r"%char ->
  c <> SPACE ->
  count_char c (scan st s) = count_char c s.
Proof.
  intros st Hc Hb Hn Hr Hs. revert st.
  induction s as [|ch s IH]; intros st; simpl; [reflexivity|].
  destruct (scan_step st ch) as [st' out] eqn:E.
  rewrite count_char_app, IH.
  f_equal.
  assert (Hne : forall d, c <> d -> (if Ascii.eqb d c then 1 else 0) = 0).
  { intros d Hd. destruct (Ascii.eqb d c) eqn:Q; [|reflexivity].
    apply Ascii.eqb_eq in Q. congruence. }
  destruct (scan_step_changes _ _ _ _ E) as [-> | [Hctl Hout]].
  - unfold str1. cbn [count_char]. lia.
  - assert (Hch : c <> ch) by (intros ->; congruence).
    rewrite (Hne ch Hch).
    destruct Hout as [-> | [-> | [-> | ->]]]; unfold str1; cbn [count_char];
      rewrite ?(Hne BACKSLASH Hb), ?(Hne "n"%char Hn), ?(Hne "r"%char Hr),
        ?(Hne SPACE Hs); reflexivity.
Qed.

(** X1. The sanitizer keeps every occurrence of every printable character
    other than backslash, n, r and the space that the ANSI substitution
    leaves: braces, brackets, quotes, colons and commas are neither added
    nor removed by the scan; on a text without ESC they are those of the
    input. *)
Theorem sanitize_keeps_structure (block : string) (c : ascii) :
  is_control c = false -> c <> BACKSLASH -> c <> "n"%char -> c <> "r"%char ->
  c <> SPACE ->
  count_char c (sanitize_json_block block) = count_char c (strip_ansi block)
  /\ (has_char ESC block = false ->
      count_char c (sanitize_json_block block) = count_char c block).
Proof.
  intros Hc Hb Hn Hr Hs. unfold sanitize_json_block. split.
  - now apply scan_preserves_count.
  - intros He. rewrite (ansi_free_strip block He). now apply scan_preserves_count.
Qed.

Lemma sanitize_keeps_structure_witness :
  count_char LBRACE (sanitize_json_block sample_block) = 1
  /\ count_char DQUOTE (sanitize_json_block sample_block) = 6.
Proof.
  split.
  - rewrite (proj2 (sanitize_keeps_structure sample_block LBRACE eq_refl
                      ltac:(discriminate) ltac:(discriminate) ltac:(discriminate)
                      ltac:(discriminate)) eq_refl).
    reflexivity.
  - rewrite (proj2 (sanitize_keeps_structure sample_block DQUOTE eq_refl
                      ltac:(discriminate) ltac:(discriminate) ltac:(discriminate)
                      ltac:(discriminate)) eq_refl).
    reflexivity.
Defined.

Lemma json_safe_app (a b : string) : forall st,
  json_safe st (a ++ b) = json_safe st a && json_safe (scan_flags st a) b.
Proof.
  induction a as [|c a IH]; intros st; simpl; [reflexivity|].
  now rewrite IH, andb_assoc.
Qed.

Lemma scan_step_safe (st st' : scan_state) (ch : ascii) (out : string) :
  scan_step st ch = (st', out) ->
  json_safe st out = true /\ scan_flags st out = st'.
Proof.
  destruct st as [ins esc]. unfold scan_step. simpl.
  destruct esc; [intros [= <- <-]; now split|].
  destruct (Ascii.eqb ch BACKSLASH) eqn:Eb.
  { apply Ascii.eqb_eq in Eb. subst ch. intros [= <- <-]. now split. }
  destruct (Ascii.eqb ch DQUOTE) eqn:Eq.
  { apply Ascii.eqb_eq in Eq. subst ch. intros [= <- <-]. now split. }
  destruct ins.
  - destruct (Ascii.eqb ch LF); [intros [= <- <-]; now split|].
    destruct (Ascii.eqb ch CR); [intros [= <- <-]; now split|].
    destruct (is_control ch) eqn:C; intros [= <- <-]; [now split|].
    simpl. unfold scan_step. simpl. rewrite Eb, Eq, C. simpl.
    destruct (Ascii.eqb ch LF), (Ascii.eqb ch CR); now split.
  - destruct (Ascii.eqb ch CR) eqn:Er; [intros [= <- <-]; now split|].
    destruct (is_control ch) eqn:C; simpl.
    + destruct (Ascii.eqb ch LF || Ascii.eqb ch TAB) eqn:W; simpl; intros [= <- <-];
        [|now split].
      simpl. unfold scan_step. simpl. rewrite Eb, Eq, Er, C, W. now split.
    + intros [= <- <-]. simpl. unfold scan_step. simpl. rewrite Eb, Eq, Er, C.
      now split.
Qed.

Lemma scan_safe (s : string) : forall st, json_safe st (scan st s) = true.
Proof.
  induction s as [|c s IH]; intros st; simpl; [reflexivity|].
  destruct (scan_step st c) as [st' out] eqn:E.
  destruct (scan_step_safe _ _ _ _ E) as [H1 H2].
  now rewrite json_safe_app, H1, H2, IH.
Qed.

(** X2. In the text the sanitizer returns, a control character (code point
    below 32) only stands directly after a backslash, or is a newline or a
    tab outside a string literal. *)
Theorem sanitize_output_safe (block : string) :
  json_safe scan_init (sanitize_json_block block) = true.
Proof. apply scan_safe. Qed.

Lemma has_char_cons_false (c d : ascii) (s : string) :
  has_char c (String d s) = false -> d <> c /\ has_char c s = false.
Proof.
  simpl. intros H. apply orb_false_iff in H as [H1 H2].
  apply Ascii.eqb_neq in H1. now split.
Qed.

(** Inside a string literal, the lexer reads what the scan loop wrote for
    [s] as the characters of [s], softened. *)
Lemma lex_scanned_literal (s : string) : forall acc toks rest,
  has_char DQUOTE s = false -> has_char BACKSLASH s = false ->
  Json.lex_from (Json.LStr acc None) toks (scan (ScanState true false) s ++ rest)
  = Json.lex_from (Json.LStr (acc ++ map_chars soften s) None) toks rest
  /\ scan_flags (ScanState true false) s = ScanState true false.
Proof.
  induction s as [|ch s IH]; intros acc toks rest Hq Hb.
  - simpl. now rewrite append_nil_r.
  - apply has_char_cons_false in Hq as [Hq1 Hq2].
    apply has_char_cons_false in Hb as [Hb1 Hb2].
    apply Ascii.eqb_neq in Hq1, Hb1.
    assert (Hstep : exists out,
               scan_step (ScanState true false) ch = (ScanState true false, out)
               /\ forall acc toks rest,
                    Json.lex_from (Json.LStr acc None) toks (out ++ rest)
                    = Json.lex_from (Json.LStr (acc ++ str1 (soften ch)) None) toks rest).
    { unfold scan_step, soften. simpl. rewrite Hb1, Hq1.
      destruct (Ascii.eqb ch LF) eqn:E1.
      { apply Ascii.eqb_eq in E1. subst ch. eexists. split; [reflexivity|].
        intros. reflexivity. }
      destruct (Ascii.eqb ch CR) eqn:E2.
      { apply Ascii.eqb_eq in E2. subst ch. eexists. split; [reflexivity|].
        intros. reflexivity. }
      simpl. destruct (is_control ch) eqn:C.
      - eexists. split; [reflexivity|]. intros. reflexivity.
      - eexists. split; [reflexivity|]. intros. simpl.
        now rewrite Hq1, Hb1, C. }
    destruct Hstep as (out & Hs & Hl).
    simpl scan. simpl scan_flags. rewrite Hs. simpl fst.
    rewrite append_assoc, Hl.
    destruct (IH (acc ++ str1 (soften ch)) toks rest Hq2 Hb2) as [I1 I2].
    rewrite I1, I2. split; [|reflexivity].
    simpl map_chars. now rewrite append_assoc.
Qed.

(** X3. Round trip of a string literal: when the characters between the
    quotes hold no quote, no backslash and no ESC, the sanitized literal
    decodes to those characters, with every newline and carriage return
    kept as it is and every other control character read as a space. *)
Theorem sanitized_literal_decodes (s : string) :
  has_char DQUOTE s = false -> has_char BACKSLASH s = false ->
  has_char ESC s = false ->
  Json.loads (sanitize_json_block (String DQUOTE (s ++ str1 DQUOTE)))
  = Some (PStr (map_chars soften s)).
Proof.
  intros Hq Hb He. unfold sanitize_json_block.
  rewrite ansi_free_strip
    by (simpl; rewrite has_char_app, He; reflexivity).
  change (scan scan_init (String DQUOTE (s ++ str1 DQUOTE)))
    with (String DQUOTE (scan (ScanState true false) (s ++ str1 DQUOTE))).
  rewrite scan_app.
  destruct (lex_scanned_literal s EmptyString []
              (scan (scan_flags (ScanState true false) s) (str1 DQUOTE)) Hq Hb)
    as [Hl Hf].
  unfold Json.loads, Json.lex.
  change (Json.lex_from Json.LDefault [] (String DQUOTE ?x))
    with (Json.lex_from (Json.LStr EmptyString None) [] x).
  rewrite Hl, Hf. reflexivity.
Qed.

Lemma sanitized_literal_decodes_witness :
  let s := "a" ++ String LF ("b" ++ String TAB ("c" ++ String CR "d")) in
  Json.loads (sanitize_json_block (String DQUOTE (s ++ str1 DQUOTE)))
  = Some (PStr ("a" ++ String LF ("b c" ++ String CR "d"))).
Proof.
  intros s. exact (sanitized_literal_decodes s eq_refl eq_refl eq_refl).
Defined.

Lemma strip_ansi_from_skip (a b : string) :
  strip_ansi_from (String.length a) (a ++ b) = strip_ansi_from 0 b.
Proof.
  induction a as [|c a IH]; simpl; [reflexivity|]. exact IH.
Qed.

Lemma strip_ansi_esc_free_prefix (pre rest : string) :
  has_char ESC pre = false ->
  strip_ansi (pre ++ rest) = pre ++ strip_ansi rest.
Proof.
  unfold strip_ansi. induction pre as [|c pre IH]; simpl; [reflexivity|].
  intros H. apply orb_false_iff in H as [Hc Hp]. rewrite Hc. now rewrite IH.
Qed.

Lemma string_length_app (a b : string) :
  String.length (a ++ b) = String.length a + String.length b.
Proof. induction a as [|c a IH]; simpl; [reflexivity | now rewrite IH]. Qed.

Lemma strip_ansi_at_esc (rest : string) :
  strip_ansi_from 0 (String ESC rest)
  = match ansi_tail rest with
    | Some n => strip_ansi_from n rest
    | None => String ESC (strip_ansi_from 0 rest)
    end.
Proof. reflexivity. Qed.

(** X4. An ANSI sequence (ESC, a character from @ to _, parameter
    characters from 0 to ?, intermediate characters from space to /, a final
    character from @ to ~) that follows a text without ESC is removed in
    full, whatever follows it, and nothing of the text before it is. *)
Theorem ansi_sequence_removed (pre params inters post : string) (c1 f : ascii) :
  has_char ESC pre = false ->
  in_range 64 95 c1 = true ->
  all_chars (in_range 48 63) params = true ->
  all_chars (in_range 32 47) inters = true ->
  in_range 64 126 f = true ->
  strip_ansi (pre ++ String ESC (String c1 (params ++ inters ++ String f post)))
  = pre ++ strip_ansi post.
Proof.
  intros Hp H1 Hps His Hf. rewrite (strip_ansi_esc_free_prefix _ _ Hp). f_equal.
  unfold strip_ansi. rewrite strip_ansi_at_esc.
  rewrite (ansi_tail_any_match c1 f params inters post H1 Hps His Hf).
  replace (String c1 (params ++ inters ++ String f post))
    with ((String c1 (params ++ inters ++ str1 f)) ++ post)
    by (unfold str1; simpl; rewrite !append_assoc; reflexivity).
  replace (1 + String.length params + String.length inters + 1)
    with (String.length (String c1 (params ++ inters ++ str1 f)))
    by (simpl; rewrite !string_length_app; simpl; lia).
  apply strip_ansi_from_skip.
Qed.

Lemma ansi_sequence_removed_witness :
  strip_ansi ("{" ++ String ESC "[1;31m" ++ "}") = "{}".
Proof.
  exact (ansi_sequence_removed "{" "1;31" "" "}" "[" "m"
           eq_refl eq_refl eq_refl eq_refl eq_refl).
Defined.

(** ** Collector *)

Lemma find_json_start_some (ls : list string) (first : string) (rest : list string) :
  find_json_start ls = Some (first, rest) ->
  exists skipped l,
    ls = (skipped ++ l :: rest)%list
    /\ Forall no_json_start skipped
    /\ starts_with_char LBRACE (lstrip l) = true
    /\ first = lstrip l.
Proof.
  induction ls as [|x ls' IH]; simpl; [discriminate|].
  destruct (starts_with_char LBRACE (lstrip x)) eqn:E.
  - intros [= <- <-]. exists [], x. repeat split; auto.
  - intros H. destruct (IH H) as (skipped & l & -> & Hs & Hl & Hf).
    exists (x :: skipped), l. repeat split; auto.
Qed.

Lemma find_json_start_none (ls : list string) :
  find_json_start ls = None <-> Forall no_json_start ls.
Proof.
  induction ls as [|x ls' IH]; simpl; [split; auto|].
  destruct (starts_with_char LBRACE (lstrip x)) eqn:E.
  - split; [discriminate|]. intros H. inversion H. unfold no_json_start in *. congruence.
  - rewrite IH. split; [intros H; constructor; auto|]. intros H. now inversion H.
Qed.

Lemma brace_balance_join (l : list string) :
  brace_balance (join (str1 LF) l)
  = (Z.of_nat (list_sum (map (count_char LBRACE) l))
     - Z.of_nat (list_sum (map (count_char RBRACE) l)))%Z.
Proof. unfold brace_balance. now rewrite !count_char_join by reflexivity. Qed.

(** The second loop once a brace has been seen: it stops at the first
    line where the balance of what is collected is zero. *)
Lemma accumulate_started (ls : list string) : forall bc collected,
  bc = brace_balance (join (str1 LF) collected) ->
  match accumulate bc collected true ls with
  | Some b =>
      exists k, k < List.length ls
        /\ b = join (str1 LF) (collected ++ firstn (S k) ls)%list
        /\ brace_balance b = 0%Z
        /\ forall j, j < k ->
             brace_balance (join (str1 LF) (collected ++ firstn (S j) ls)%list) <> 0%Z
  | None =>
      forall j, j < List.length ls ->
        brace_balance (join (str1 LF) (collected ++ firstn (S j) ls)%list) <> 0%Z
  end.
Proof.
  induction ls as [|line rest IH]; intros bc collected Hbc.
  - simpl. intros j Hj. lia.
  - cbn [accumulate]. cbv zeta. cbn [orb andb].
    set (bc' := (bc + Z.of_nat (count_char LBRACE line)
                 - Z.of_nat (count_char RBRACE line))%Z).
    assert (Hbc' : bc' = brace_balance (join (str1 LF) (collected ++ [line])%list)).
    { subst bc' bc. rewrite !brace_balance_join, !map_app, !list_sum_app. simpl. lia. }
    destruct (bc' =? 0)%Z eqn:E.
    + apply Z.eqb_eq in E. exists 0. simpl firstn.
      repeat split; [simpl; lia | congruence | intros j Hj; lia].
    + apply Z.eqb_neq in E. specialize (IH bc' (collected ++ [line])%list Hbc').
      destruct (accumulate bc' (collected ++ [line]) true rest) as [b|].
      * destruct IH as (k & Hk & Hb & Hz & Hmin). exists (S k).
        repeat split; [simpl; lia | | exact Hz |].
        -- rewrite Hb, <- app_assoc. reflexivity.
        -- intros j Hj. destruct j as [|j].
           ++ simpl firstn. congruence.
           ++ specialize (Hmin j ltac:(lia)). rewrite <- app_assoc in Hmin. exact Hmin.
      * intros j Hj. destruct j as [|j].
        -- simpl firstn. congruence.
        -- specialize (IH j ltac:(simpl in Hj; lia)). rewrite <- app_assoc in IH.
           exact IH.
Qed.

(** The same for the whole second loop, entered with a first line that
    starts with a brace. *)
Lemma accumulate_from_start (t : string) (rest : list string) :
  match accumulate 0 [] false (String LBRACE t :: rest) with
  | Some b =>
      exists k, k <= List.length rest
        /\ b = join (str1 LF) (String LBRACE t :: firstn k rest)
        /\ brace_balance b = 0%Z
        /\ forall j, j < k ->
             brace_balance (join (str1 LF) (String LBRACE t :: firstn j rest)) <> 0%Z
  | None =>
      forall j, j <= List.length rest ->
        brace_balance (join (str1 LF) (String LBRACE t :: firstn j rest)) <> 0%Z
  end.
Proof.
  pose proof (accumulate_started (String LBRACE t :: rest) 0%Z [] eq_refl) as H.
  assert (E : accumulate 0 [] false (String LBRACE t :: rest)
              = accumulate 0 [] true (String LBRACE t :: rest)).
  { cbn [accumulate]. cbv zeta. cbn [has_char]. rewrite Ascii.eqb_refl. reflexivity. }
  rewrite E. destruct (accumulate 0 [] true (String LBRACE t :: rest)) as [b|].
  - destruct H as (k & Hk & Hb & Hz & Hmin). exists k.
    repeat split; [simpl in Hk; lia | exact Hb | exact Hz |].
    intros j Hj. destruct j as [|j].
    + (* the empty prefix is excluded: j < k, and prefix j means j further lines *)
      destruct k as [|k]; [lia|]. exact (Hmin 0 ltac:(lia)).
    + destruct k as [|k]; [lia|]. exact (Hmin (S j) ltac:(lia)).
  - intros j Hj. exact (H j ltac:(simpl; lia)).
Qed.

(** X5. A block the collector assembles is made of the first line, from
    the start index on, that begins with a brace once stripped, and of the
    lines that follow it, up to the first line at which the brace balance
    is zero: no shorter run of lines is balanced, and no line skipped
    before the first begins with a brace. *)
Theorem collect_block_shortest (lines : list string) (start_index : nat) (b : string) :
  collect_block lines start_index = Some b ->
  exists skipped l rest k,
    skipn start_index lines = (skipped ++ l :: rest)%list
    /\ Forall no_json_start skipped
    /\ starts_with_char LBRACE (lstrip l) = true
    /\ k <= List.length rest
    /\ b = block_of l rest k
    /\ forall j, j < k -> brace_balance (block_of l rest j) <> 0%Z.
Proof.
  unfold collect_block.
  destruct (find_json_start (skipn start_index lines)) as [[first rest]|] eqn:F;
    [|discriminate].
  destruct (find_json_start_some _ _ _ F) as (skipped & l & Hs & Hsk & Hl & ->).
  destruct (find_json_start_head _ _ _ F) as [t Ht].
  intros H. pose proof (accumulate_from_start t rest) as A.
  rewrite <- Ht, H in A. destruct A as (k & Hk & Hb & _ & Hmin).
  exists skipped, l, rest, k. unfold block_of.
  split; [exact Hs|]. split; [exact Hsk|]. split; [exact Hl|].
  split; [exact Hk|]. split; [exact Hb | exact Hmin].
Qed.

Lemma collect_block_shortest_witness :
  exists b,
    collect_block sample_log 1 = Some b
    /\ exists skipped l rest k,
         skipn 1 sample_log = (skipped ++ l :: rest)%list
         /\ Forall no_json_start skipped
         /\ starts_with_char LBRACE (lstrip l) = true
         /\ k <= List.length rest
         /\ b = block_of l rest k
         /\ forall j, j < k -> brace_balance (block_of l rest j) <> 0%Z.
Proof.
  eexists. split; [vm_compute; reflexivity|].
  apply (collect_block_shortest sample_log 1). vm_compute. reflexivity.
Defined.

(** X6. The collector assembles no block exactly when no line from the
    start index on begins with a brace once stripped (so also when the start
    index is past the last line), or when no run of lines from the first
    such line on has brace balance zero. *)
Theorem collect_block_none (lines : list string) (start_index : nat) :
  collect_block lines start_index = None <->
  Forall no_json_start (skipn start_index lines)
  \/ exists skipped l rest,
       skipn start_index lines = (skipped ++ l :: rest)%list
       /\ Forall no_json_start skipped
       /\ starts_with_char LBRACE (lstrip l) = true
       /\ forall j, j <= List.length rest -> brace_balance (block_of l rest j) <> 0%Z.
Proof.
  unfold collect_block.
  destruct (find_json_start (skipn start_index lines)) as [[first rest]|] eqn:F.
  - destruct (find_json_start_some _ _ _ F) as (skipped & l & Hs & Hsk & Hl & ->).
    destruct (find_json_start_head _ _ _ F) as [t Ht].
    pose proof (accumulate_from_start t rest) as A. rewrite <- Ht in A.
    split.
    + intros H. rewrite H in A. right. exists skipped, l, rest.
      unfold block_of.
      split; [exact Hs|]. split; [exact Hsk|]. split; [exact Hl | exact A].
    + intros [H | (skipped' & l' & rest' & Hs' & Hsk' & Hl' & Hnz)].
      * apply find_json_start_none in H. congruence.
      * destruct (accumulate 0 [] false (lstrip l :: rest)) as [b|]; [|reflexivity].
        exfalso. destruct A as (k & Hk & Hb & Hz & _).
        (* the two decompositions of the lines agree *)
        assert (Hsame : skipped' = skipped /\ l' = l /\ rest' = rest).
        { rewrite Hs in Hs'. clear - Hs' Hsk Hsk' Hl Hl'. revert skipped' Hs' Hsk'.
          induction skipped as [|x sk IH]; intros [|y sk'] Hs' Hsk'.
          - injection Hs' as -> ->. auto.
          - injection Hs' as -> _. inversion Hsk'. unfold no_json_start in *. congruence.
          - injection Hs' as -> _. inversion Hsk. unfold no_json_start in *. congruence.
          - injection Hs' as -> Hs'. inversion Hsk. inversion Hsk'. subst.
            destruct (IH ltac:(assumption) sk' Hs' ltac:(assumption)) as (-> & -> & ->).
            auto. }
        destruct Hsame as (-> & -> & ->).
        apply (Hnz k Hk). unfold block_of. now rewrite <- Hb.
  - split; [|reflexivity]. intros _. left. now apply find_json_start_none.
Qed.

(** ** Extractor *)

Lemma indices_from_spec (p : string -> bool) (lines : list string) : forall base i,
  In i (indices_from p base lines) <->
  exists line, base <= i /\ nth_error lines (i - base) = Some line /\ p line = true.
Proof.
  induction lines as [|l rest IH]; intros base i; simpl.
  - split; [contradiction|]. intros (line & _ & H & _). now destruct (i - base).
  - assert (Hrest : In i (indices_from p (S base) rest) <->
              exists line, S base <= i /\ nth_error rest (i - S base) = Some line
                           /\ p line = true) by apply IH.
    assert (Hcase : forall line, base <= i ->
              (nth_error (l :: rest) (i - base) = Some line <->
               (i = base /\ line = l)
               \/ (S base <= i /\ nth_error rest (i - S base) = Some line))).
    { intros line Hle. destruct (Nat.eq_dec i base) as [->|Hne].
      - rewrite Nat.sub_diag. simpl. split.
        + intros [= <-]. now left.
        + intros [[_ ->] | [H _]]; [reflexivity | lia].
      - replace (i - base) with (S (i - S base)) by lia. simpl. split.
        + intros H. right. split; [lia | exact H].
        + intros [[H _] | [_ H]]; [lia | exact H]. }
    destruct (p l) eqn:E; simpl; rewrite ?Hrest; split.
    + intros [<- | (line & Hle & Hn & Hp)].
      * exists l. split; [lia|]. split; [|exact E]. apply Hcase; auto.
      * exists line. split; [lia|]. split; [|exact Hp]. apply Hcase; [lia|]. auto.
    + intros (line & Hle & Hn & Hp). apply Hcase in Hn as [[-> _] | [H1 H2]]; auto.
      right. now exists line.
    + intros (line & Hle & Hn & Hp). exists line. split; [lia|]. split; [|exact Hp].
      apply Hcase; [lia|]. auto.
    + intros (line & Hle & Hn & Hp). apply Hcase in Hn as [[-> ->] | [H1 H2]]; auto.
      * congruence.
      * now exists line.
Qed.

Lemma indices_from_sorted (p : string -> bool) (lines : list string) : forall base,
  StronglySorted lt (indices_from p base lines).
Proof.
  induction lines as [|l rest IH]; intros base; simpl; [constructor|].
  destruct (p l); [|apply IH].
  constructor; [apply IH|]. apply Forall_forall. intros i Hi.
  apply indices_from_spec in Hi as (line & Hle & _). lia.
Qed.

(** X7. The marker locator lists exactly the indices of the lines that
    hold the marker as a substring, in increasing order. *)
Theorem marker_locator_exact (marker : string) (lines : list string) :
  (forall i, In i (matching_indices (contains marker) lines) <->
             exists line pre post,
               nth_error lines i = Some line /\ line = pre ++ marker ++ post)
  /\ StronglySorted lt (matching_indices (contains marker) lines).
Proof.
  unfold matching_indices. split; [|apply indices_from_sorted].
  intros i. rewrite indices_from_spec. rewrite Nat.sub_0_r. split.
  - intros (line & _ & Hn & Hc). apply contains_spec in Hc as (pre & post & Hc).
    now exists line, pre, post.
  - intros (line & pre & post & Hn & Hc). exists line.
    split; [lia|]. split; [exact Hn|]. apply contains_spec. now exists pre, post.
Qed.

Lemma has_keys_nil_decoded (lines : list string) (i : nat) :
  has_keys [] (object_at lines i) = negb (is_none (object_at lines i)).
Proof.
  destruct (dict_or_none_cases _ (object_at_none_or_dict lines i)) as [-> | [d ->]];
    reflexivity.
Qed.

Lemma pick_ext (a1 a2 : pyval -> bool) (lines : list string) (indices : list nat) :
  (forall i, a1 (object_at lines i) = a2 (object_at lines i)) ->
  pick a1 lines indices = pick a2 lines indices.
Proof.
  intros H. induction indices as [|i rest IH]; simpl; [reflexivity|].
  now rewrite H, IH.
Qed.

(** The extractor, with or without required keys and in either order,
    never raises and returns the first acceptable object in its order. *)
Lemma extract_pick (lines : list string) (marker : string) (keys : list string)
    (first : bool) :
  extract_json_after_marker lines marker keys first
  = Ok (pick (has_keys keys) lines
          (if first then matching_indices (contains marker) lines
           else rev (matching_indices (contains marker) lines))).
Proof.
  destruct keys as [|k ks].
  - rewrite extract_without_keys. f_equal. apply pick_ext. intros i.
    now rewrite has_keys_nil_decoded.
  - apply extract_with_keys. discriminate.
Qed.

Lemma pick_cases (accept : pyval -> bool) (lines : list string) (indices : list nat) :
  (pick accept lines indices = PNone
   /\ forall i, In i indices -> accept (object_at lines i) = false)
  \/ exists pre i post,
       indices = (pre ++ i :: post)%list
       /\ (forall j, In j pre -> accept (object_at lines j) = false)
       /\ accept (object_at lines i) = true
       /\ pick accept lines indices = object_at lines i.
Proof.
  induction indices as [|i rest IH]; simpl.
  - left. split; [reflexivity | contradiction].
  - destruct (accept (object_at lines i)) eqn:E.
    + right. exists [], i, rest. repeat split; auto. contradiction.
    + destruct IH as [[Hn Hall] | (pre & k & post & -> & Hpre & Hk & Hp)].
      * left. split; [exact Hn|]. intros j [<- | Hj]; auto.
      * right. exists (i :: pre), k, post. repeat split; auto.
        intros j [<- | Hj]; auto.
Qed.

Lemma sorted_split (a b : list nat) (i : nat) :
  StronglySorted lt (a ++ i :: b)%list ->
  (forall x, In x a -> x < i) /\ (forall y, In y b -> i < y).
Proof.
  induction a as [|x a IH]; simpl; intros H.
  - apply StronglySorted_inv in H as [_ H]. split; [contradiction|].
    intros y Hy. now apply (proj1 (Forall_forall _ _) H).
  - apply StronglySorted_inv in H as [Hs Hx]. destruct (IH Hs) as [H1 H2].
    split; [|exact H2]. intros z [<- | Hz]; [|auto].
    apply (proj1 (Forall_forall _ _) Hx). apply in_or_app. right. now left.
Qed.

Lemma matching_line (marker : string) (lines : list string) (i : nat) :
  In i (matching_indices (contains marker) lines) <->
  exists line, nth_error lines i = Some line /\ contains marker line = true.
Proof.
  unfold matching_indices. rewrite indices_from_spec, Nat.sub_0_r. split.
  - intros (line & _ & H1 & H2). now exists line.
  - intros (line & H1 & H2). exists line. repeat split; auto. lia.
Qed.

(** X8. An object the extractor returns stands after a line that holds the
    marker and is a mapping with every required key; among the matches with
    such an object it is the one of the earliest line when [first] is set
    and the one of the latest line otherwise. *)
Theorem extract_selects_match (lines : list string) (marker : string)
    (keys : list string) (first : bool) (v : pyval) :
  extract_json_after_marker lines marker keys first = Ok v ->
  v <> PNone ->
  exists i line,
    nth_error lines i = Some line
    /\ contains marker line = true
    /\ object_at lines i = v
    /\ has_keys keys v = true
    /\ forall j line',
         nth_error lines j = Some line' -> contains marker line' = true ->
         has_keys keys (object_at lines j) = true ->
         if first then i <= j else j <= i.
Proof.
  rewrite extract_pick. intros [= <-] Hv.
  set (idx := matching_indices (contains marker) lines) in *.
  assert (Hsorted : StronglySorted lt idx) by apply indices_from_sorted.
  destruct (pick_cases (has_keys keys) lines (if first then idx else rev idx))
    as [[Hn _] | (pre & i & post & Hsplit & Hpre & Hi & Hp)]; [contradiction|].
  assert (Hin : In i idx).
  { destruct first.
    - rewrite Hsplit. apply in_or_app. right. now left.
    - apply in_rev. rewrite Hsplit. apply in_or_app. right. now left. }
  destruct (proj1 (matching_line marker lines i) Hin) as (line & Hl & Hc).
  exists i, line. rewrite Hp. repeat split; auto.
  intros j line' Hj Hcj Hkj.
  assert (Hjin : In j idx) by (apply matching_line; now exists line').
  destruct first.
  - rewrite Hsplit in Hsorted, Hjin. destruct (sorted_split _ _ _ Hsorted) as [_ Hpost].
    apply in_app_or in Hjin as [Hj' | [<- | Hj']].
    + rewrite (Hpre j Hj') in Hkj. discriminate.
    + lia.
    + specialize (Hpost j Hj'). lia.
  - assert (Hidx : idx = (rev post ++ i :: rev pre)%list).
    { rewrite <- (rev_involutive idx), Hsplit, rev_app_distr. simpl.
      now rewrite <- app_assoc. }
    rewrite Hidx in Hsorted, Hjin. destruct (sorted_split _ _ _ Hsorted) as [Hlow _].
    apply in_app_or in Hjin as [Hj' | [<- | Hj']].
    + specialize (Hlow j Hj'). lia.
    + lia.
    + apply in_rev in Hj'. rewrite (Hpre j Hj') in Hkj. discriminate.
Qed.

Lemma extract_selects_match_witness :
  exists i line,
    nth_error sample_log i = Some line
    /\ contains "[REQUEST]:" line = true
    /\ object_at sample_log i = PDict [("cart", PDict [("items", PList [])])]
    /\ has_keys ["cart"] (PDict [("cart", PDict [("items", PList [])])]) = true
    /\ forall j line',
         nth_error sample_log j = Some line' -> contains "[REQUEST]:" line' = true ->
         has_keys ["cart"] (object_at sample_log j) = true ->
         i <= j.
Proof.
  apply (extract_selects_match sample_log "[REQUEST]:" ["cart"] true
           (PDict [("cart", PDict [("items", PList [])])])).
  - vm_compute. reflexivity.
  - discriminate.
Defined.

(** X9. The extractor returns [None] exactly when no line that holds the
    marker is followed by an object that decodes to a mapping with every
    required key; in particular when no line holds the marker. *)
Theorem extract_none_iff (lines : list string) (marker : string)
    (keys : list string) (first : bool) :
  extract_json_after_marker lines marker keys first = Ok PNone <->
  forall i line,
    nth_error lines i = Some line -> contains marker line = true ->
    has_keys keys (object_at lines i) = false.
Proof.
  rewrite extract_pick.
  set (idx := matching_indices (contains marker) lines).
  assert (Hmem : forall i, In i (if first then idx else rev idx) <-> In i idx).
  { intros i. destruct first; [reflexivity|]. symmetry. apply in_rev. }
  destruct (pick_cases (has_keys keys) lines (if first then idx else rev idx))
    as [[Hn Hall] | (pre & i & post & Hsplit & Hpre & Hi & Hp)].
  - rewrite Hn. split; [|reflexivity]. intros _ i line Hl Hc.
    apply Hall, Hmem, matching_line. now exists line.
  - rewrite Hp. split.
    + intros [= E]. rewrite E in Hi. destruct keys; discriminate Hi.
    + intros H. exfalso.
      assert (Hin : In i idx)
        by (apply Hmem; rewrite Hsplit; apply in_or_app; right; now left).
      destruct (proj1 (matching_line marker lines i) Hin) as (line & Hl & Hc).
      rewrite (H i line Hl Hc) in Hi. discriminate.
Qed.

Lemma from_first_split (c : ascii) (line : string) :
  has_char c line = true ->
  exists pre t, line = pre ++ String c t
                /\ has_char c pre = false
                /\ from_first c line = String c t.
Proof.
  induction line as [|d line IH]; simpl; [discriminate|].
  destruct (Ascii.eqb d c) eqn:E.
  - apply Ascii.eqb_eq in E. subst d. intros _. exists EmptyString, line. auto.
  - simpl. intros H. destruct (IH H) as (pre & t & -> & Hp & Hf).
    exists (String d pre), t. simpl. rewrite E. auto.
Qed.

(** X10. When the line of a match holds a brace, the object is collected
    from the first brace of that very line: the text before the brace is
    dropped, the search for a start line skips nothing, and a block that is
    assembled is the rest of the line followed by a run of the next
    lines. *)
Theorem object_on_marker_line (lines : list string) (i : nat) (line : string) :
  nth_error lines i = Some line ->
  has_char LBRACE line = true ->
  exists pre t,
    line = pre ++ String LBRACE t
    /\ has_char LBRACE pre = false
    /\ object_at lines i
       = collect_json_from_line_list (String LBRACE t :: skipn (S i) lines) 0
    /\ forall b,
         collect_block (String LBRACE t :: skipn (S i) lines) 0 = Some b ->
         exists k, b = join (str1 LF) (String LBRACE t :: firstn k (skipn (S i) lines)).
Proof.
  intros Hn Hb. destruct (from_first_split LBRACE line Hb) as (pre & t & Hl & Hp & Hf).
  exists pre, t. split; [exact Hl|]. split; [exact Hp|]. split.
  - unfold object_at. now rewrite Hn, Hb, Hf.
  - intros b H. unfold collect_block in H. cbn [skipn find_json_start] in H.
    rewrite lstrip_brace in H. cbn [starts_with_char] in H.
    rewrite Ascii.eqb_refl in H.
    apply accumulate_sound in H as ([k Hk] & _); [|reflexivity..].
    exists k. exact Hk.
Qed.

Lemma object_on_marker_line_witness :
  exists pre t,
    dquoted "12:00:01 [REQUEST]: {'cart': {'items': []}}" = pre ++ String LBRACE t
    /\ has_char LBRACE pre = false
    /\ object_at sample_log 0
       = collect_json_from_line_list (String LBRACE t :: skipn 1 sample_log) 0
    /\ forall b,
         collect_block (String LBRACE t :: skipn 1 sample_log) 0 = Some b ->
         exists k, b = join (str1 LF) (String LBRACE t :: firstn k (skipn 1 sample_log)).
Proof.
  exact (object_on_marker_line sample_log 0 _ eq_refl eq_refl).
Defined.

(** ** Deep search for the carrier groups *)

(** Induction on values that goes through the items of a list and the
    values of a dictionary. *)
Lemma pyval_nested_ind (P : pyval -> Prop) :
  P PNone -> (forall b, P (PBool b)) -> (forall z, P (PInt z)) ->
  (forall f, P (PFloat f)) -> (forall s, P (PStr s)) ->
  (forall l, Forall P l -> P (PList l)) ->
  (forall d, Forall (fun kv => P (snd kv)) d -> P (PDict d)) ->
  forall v, P v.
Proof.
  intros Hn Hb Hi Hf Hs Hl Hd.
  fix IH 1. intros [| b | z | f | s | l | d].
  - exact Hn.
  - apply Hb.
  - apply Hi.
  - apply Hf.
  - apply Hs.
  - apply Hl. induction l as [|x l IHl]; constructor; [apply IH | exact IHl].
  - apply Hd. induction d as [|[k x] d IHd]; constructor; [apply IH | exact IHd].
Qed.

Lemma contains_groups_dict (d : Dict.t) :
  json_contains_carrier_groups (PDict d)
  = Dict.mem "carrierGroups" d
    || existsb (fun kv => json_contains_carrier_groups (snd kv)) d.
Proof.
  cbn [json_contains_carrier_groups]. f_equal.
  induction d as [|[k v] d IH]; simpl; [reflexivity|]. now rewrite IH.
Qed.

Lemma contains_groups_list (l : list pyval) :
  json_contains_carrier_groups (PList l) = existsb json_contains_carrier_groups l.
Proof.
  cbn [json_contains_carrier_groups].
  induction l as [|v l IH]; simpl; [reflexivity|]. now rewrite IH.
Qed.

(** X11. [json_contains_carrier_groups] answers true exactly for the values
    in which a [carrierGroups] key is reachable through dictionary values
    and list items, at any depth; a key inside a string or a scalar does
    not count. *)
Theorem contains_carrier_groups_iff (v : pyval) :
  json_contains_carrier_groups v = true <-> reaches_carrier_groups v.
Proof.
  split.
  - induction v as [| b | z | f | s | l IH | d IH] using pyval_nested_ind;
      try discriminate.
    + rewrite contains_groups_list. intros H.
      apply existsb_exists in H as (x & Hin & Hx).
      apply (ReachItem l x Hin). exact (proj1 (Forall_forall _ _) IH x Hin Hx).
    + rewrite contains_groups_dict. intros H. apply orb_true_iff in H as [H | H].
      * now apply ReachHere.
      * apply existsb_exists in H as ([k x] & Hin & Hx).
        apply (ReachValue d k x Hin).
        exact (proj1 (Forall_forall _ _) IH (k, x) Hin Hx).
  - induction 1 as [d H | d k v Hin _ IH | l v Hin _ IH].
    + rewrite contains_groups_dict, H. reflexivity.
    + rewrite contains_groups_dict. apply orb_true_iff. right.
      apply existsb_exists. now exists (k, v).
    + rewrite contains_groups_list. apply existsb_exists. now exists v.
Qed.

(** ** Resolver *)

Lemma lower_app (a b : string) : lower (a ++ b) = lower a ++ lower b.
Proof. induction a as [|c a IH]; simpl; [reflexivity | now rewrite IH]. Qed.

(** A line that holds [m] holds, once lowered, every part of the lowered
    [m]. *)
Lemma contains_lower_part (m w a b line : string) :
  lower m = a ++ w ++ b ->
  contains m line = true -> contains w (lower line) = true.
Proof.
  intros Hm H. apply contains_spec in H as (pre & post & ->).
  apply contains_spec. exists (lower pre ++ a), (b ++ lower post).
  rewrite !lower_app, Hm, !append_assoc. reflexivity.
Qed.

(** X12. The generic strategies leave the lines of the vendor strategies
    alone: a line the generic request strategy considers holds neither the
    shopify nor the bigcommerce request marker, and a line the generic
    response strategy considers holds neither of the two response
    markers. *)
Theorem generic_lines_exclude_vendor_markers (line : string) :
  (generic_request_line line = true ->
   contains "Converted shopify request to" line = false
   /\ contains "Converted bigcommerce request to" line = false)
  /\ (generic_response_line line = true ->
      contains shopify_response_marker line = false
      /\ contains "Adapting the following rate response to bigcommerce response" line
         = false).
Proof.
  split.
  - unfold generic_request_line. intros H.
    apply andb_true_iff in H as [H Hb]. apply andb_true_iff in H as [_ Hs].
    apply negb_true_iff in Hs, Hb. split.
    + destruct (contains "Converted shopify request to" line) eqn:E; [|reflexivity].
      rewrite (contains_lower_part "Converted shopify request to" "shopify" "converted "
                 " request to" line eq_refl E)
        in Hs. discriminate.
    + destruct (contains "Converted bigcommerce request to" line) eqn:E; [|reflexivity].
      rewrite (contains_lower_part "Converted bigcommerce request to" "bigcommerce"
                 "converted " " request to" line eq_refl E) in Hb. discriminate.
  - unfold generic_response_line. intros H.
    apply andb_true_iff in H as [_ H]. apply negb_true_iff, orb_false_iff in H as [Hs Hb].
    split.
    + destruct (contains shopify_response_marker line) eqn:E; [|reflexivity].
      rewrite (contains_lower_part shopify_response_marker "shopify response"
                 "adapting the following rate response to " "" line eq_refl E) in Hs.
      discriminate.
    + destruct (contains "Adapting the following rate response to bigcommerce response"
                  line) eqn:E; [|reflexivity].
      rewrite (contains_lower_part
                 "Adapting the following rate response to bigcommerce response"
                 "bigcommerce response"
                 "adapting the following rate response to " "" line eq_refl E) in Hb.
      discriminate.
Qed.

Lemma generic_lines_exclude_vendor_markers_witness :
  generic_request_line "12:00 Converted magento request to" = true
  /\ contains "Converted shopify request to" "12:00 Converted magento request to" = false
  /\ contains "Converted bigcommerce request to" "12:00 Converted magento request to"
     = false.
Proof.
  split; [reflexivity|].
  exact (proj1 (generic_lines_exclude_vendor_markers "12:00 Converted magento request to")
           eq_refl).
Defined.

Lemma try_in_order_skips (pre rest : list (exc pyval)) (v : pyval) :
  Forall (fun s => s = Ok PNone) pre -> is_none v = false ->
  try_in_order PNone (pre ++ Ok v :: rest) = Ok v.
Proof.
  intros Hpre Hv. induction Hpre as [|s pre -> _ IH]; simpl.
  - now apply try_in_order_found.
  - exact IH.
Qed.

(** X13. The response side takes the first strategy, in its fixed order,
    whose outcome is not [None]: when a tier yields a value and every tier
    of higher priority yields [None], that value is the response payload,
    whatever the tiers of lower priority would yield. *)
Theorem response_resolver_prefers_highest_tier (lines : list string)
    (t : response_tier) (v : pyval) :
  response_strategy t lines = Ok v ->
  v <> PNone ->
  (forall t', response_rank t' < response_rank t ->
              response_strategy t' lines = Ok PNone) ->
  resolve_response lines = Ok v.
Proof.
  intros Ht Hv Hhi.
  assert (Hn : is_none v = false) by (destruct v; [contradiction | reflexivity..]).
  unfold resolve_response, response_tiers. cbn [map].
  destruct t;
    rewrite ?(Hhi RespShopify), ?(Hhi RespBigCommerce), ?(Hhi RespGraphQL),
      ?(Hhi RespTag) by (simpl; lia);
    rewrite Ht, ?try_in_order_none_head, (try_in_order_first v _ Hn);
    cbn [bind]; now rewrite Hn.
Qed.

Lemma response_resolver_prefers_highest_tier_witness :
  let v := PDict [("carrierGroups", PList [PDict [("carrierRates", PList [])]])] in
  response_strategy RespTag sample_log = Ok v /\ resolve_response sample_log = Ok v.
Proof.
  intros v. split; [vm_compute; reflexivity|].
  apply (response_resolver_prefers_highest_tier sample_log RespTag v).
  - vm_compute. reflexivity.
  - discriminate.
  - intros t' Ht'. destruct t'; simpl in Ht'; try lia; vm_compute; reflexivity.
Defined.

(** X14. When both payloads are resolved, the request is a dictionary
    with the key cart, and the response is the empty object or holds the
    key carrierGroups at some depth. *)
Theorem resolved_payloads_shape (lines : list string) (request response : pyval) :
  resolve_payloads lines = Ok (request, response) ->
  has_keys ["cart"] request = true
  /\ (response = PDict [] \/ json_contains_carrier_groups response = true).
Proof.
  unfold resolve_payloads.
  destruct (resolve_request lines) as [rq|] eqn:Hq; [|discriminate]. cbn [bind].
  destruct (resolve_response lines) as [rs|] eqn:Hs; [|discriminate]. cbn [bind].
  intros [= <- <-]. split.
  - exact (resolved_request_has_cart lines rq Hq).
  - exact (resolved_response_shape lines rs Hs).
Qed.

Lemma resolved_payloads_shape_witness :
  let request := PDict [("cart", PDict [("items", PList [PDict [("sku", PStr "A1")]])]);
                        ("destination", PDict [("city", PStr "Reno")])] in
  let response := PDict [("carrierGroups", PList [PDict [("carrierRates", PList [])]])] in
  resolve_payloads sample_log = Ok (request, response)
  /\ has_keys ["cart"] request = true
  /\ (response = PDict [] \/ json_contains_carrier_groups response = true).
Proof.
  intros request response.
  assert (H : resolve_payloads sample_log = Ok (request, response))
    by (vm_compute; reflexivity).
  split; [exact H|]. exact (resolved_payloads_shape sample_log request response H).
Defined.

(** ** Field normaliser *)

Lemma pick_shipments_list (sources : list pyval) :
  exists l, pick_shipments sources = PList l.
Proof.
  induction sources as [|src rest IH]; simpl; [now exists []|].
  destruct src; try exact IH.
  destruct (Dict.get "shipments" entries) as [[| | | | |[|x l]|]|]; try exact IH.
  now eexists.
Qed.

Lemma py_or_truthy (a b : pyval) : truthy b = true -> truthy (py_or a b) = true.
Proof. intros H. unfold py_or. now destruct (truthy a) eqn:E. Qed.

Lemma carrier_display_name_truthy (c : Dict.t) :
  truthy (carrier_display_name c) = true.
Proof. unfold carrier_display_name. apply py_or_truthy, py_or_truthy. reflexivity. Qed.

Lemma rates_loop_entries (cj name : pyval) (rs : list pyval) (e : method_entry) :
  In e (fst (rates_loop cj name rs)) ->
  carrier e = name /\ (exists l, packing e = PList l)
  /\ blocked_reasons e = PList [] /\ error_message e = PStr "".
Proof.
  induction rs as [|r rs IH]; simpl; [contradiction|].
  destruct r; try exact IH.
  destruct (rate_entry cj name entries) as [e0|x] eqn:E; [|contradiction].
  unfold then_run. simpl. intros [<- | H]; [|exact (IH H)].
  unfold rate_entry in E.
  destruct (py_get _ "options" PNone) as [o|]; [|discriminate]. cbn [bind] in E.
  match type of E with
  | (addr <- ?m ;; _) = _ => destruct m as [addr|]; [|discriminate]
  end.
  cbn [bind] in E. injection E as <-.
  cbn [carrier packing blocked_reasons error_message].
  repeat split; auto. exact (pick_shipments_list [PDict entries; cj]).
Qed.

Lemma rates_loop_length (cj name : pyval) (rs : list pyval) :
  List.length (fst (rates_loop cj name rs)) <= count_dicts rs
  /\ (snd (rates_loop cj name rs) = None ->
      List.length (fst (rates_loop cj name rs)) = count_dicts rs).
Proof.
  unfold count_dicts. induction rs as [|r rs [IH1 IH2]]; simpl; [split; auto|].
  destruct r; try (split; assumption).
  simpl. destruct (rate_entry cj name entries) as [e0|x].
  - unfold then_run. simpl. split; [lia|]. intros H. rewrite IH2 by exact H. reflexivity.
  - simpl. split; [lia | discriminate].
Qed.

(** X15. Every method entry of a carrier bears the display name of the
    carrier, which is never empty (the carrier name, else the carrier title,
    else Unknown Carrier), and its packing is a list. *)
Theorem carrier_entries_named (c : Dict.t) (e : method_entry) :
  In e (fst (carrier_run (PDict c))) ->
  carrier e = carrier_display_name c
  /\ truthy (carrier e) = true
  /\ exists l, packing e = PList l.
Proof.
  unfold carrier_run.
  destruct (py_iter (py_or (get_or c "rates" PNone) (PList []))) as [rs|x];
    [|contradiction].
  set (name := carrier_display_name c).
  assert (Hloop : forall e0, In e0 (fst (rates_loop (PDict c) name rs)) ->
            carrier e0 = name /\ truthy (carrier e0) = true
            /\ exists l, packing e0 = PList l).
  { intros e0 H. destruct (rates_loop_entries _ _ _ _ H) as (Hn & Hp & _).
    rewrite Hn. repeat split; auto. apply carrier_display_name_truthy. }
  destruct (rates_loop (PDict c) name rs) as [es [x|]]; simpl in *; [exact (Hloop e)|].
  intros H. apply in_app_or in H as [H | H]; [exact (Hloop e H)|].
  destruct (truthy (py_or (get_or c "rates" PNone) (PList []))); [contradiction|].
  unfold no_rates_run in H. destruct (carrier_error_message c) as [msg|]; [|contradiction].
  destruct (truthy (prevent_rules c) || truthy msg); [|contradiction].
  destruct H as [<- | []]. unfold blocked_entry. cbn [carrier packing].
  repeat split; auto;
    [apply carrier_display_name_truthy | exact (pick_shipments_list [PDict c])].
Qed.

Lemma carrier_entries_named_witness :
  exists e, In e (fst (carrier_run (PDict blocked_carrier)))
            /\ carrier e = PStr "UPS"
            /\ truthy (carrier e) = true
            /\ exists l, packing e = PList l.
Proof.
  eexists. assert (H : In _ (fst (carrier_run (PDict blocked_carrier))))
    by (vm_compute; left; reflexivity).
  split; [exact H|].
  exact (carrier_entries_named blocked_carrier _ H).
Defined.

(** X16. A carrier whose rates are a non-empty list gets one method entry
    for each rate that is a dictionary, in a run that no exception stops,
    and at most that many otherwise; none of these entries carries blocking
    reasons or an error message, and no entry is added for the carrier
    itself. *)
Theorem carrier_with_rates (c : Dict.t) (r : pyval) (rs : list pyval) :
  get_or c "rates" PNone = PList (r :: rs) ->
  List.length (fst (carrier_run (PDict c))) <= count_dicts (r :: rs)
  /\ (snd (carrier_run (PDict c)) = None ->
      List.length (fst (carrier_run (PDict c))) = count_dicts (r :: rs))
  /\ forall e, In e (fst (carrier_run (PDict c))) ->
               blocked_reasons e = PList [] /\ error_message e = PStr "".
Proof.
  intros Hr. unfold carrier_run. rewrite Hr.
  change (py_or (PList (r :: rs)) (PList [])) with (PList (r :: rs)).
  change (py_iter (PList (r :: rs))) with (Ok (r :: rs)).
  change (truthy (PList (r :: rs))) with true. cbv beta iota zeta.
  set (name := carrier_display_name c). generalize (r :: rs) as rates. intros rates.
  destruct (rates_loop_length (PDict c) name rates) as [H1 H2].
  pose proof (rates_loop_entries (PDict c) name rates) as H3.
  destruct (rates_loop (PDict c) name rates) as [es [x|]]; simpl in *.
  - split; [exact H1|]. split; [intros Hn; discriminate Hn|]. intros e He. now apply H3.
  - rewrite app_nil_r. split; [exact H1|]. split; [exact H2|].
    intros e He. now apply H3.
Qed.

Lemma carrier_with_rates_witness :
  let c := [("carrierName", PStr "UPS");
            ("rates", PList [PDict [("name", PStr "Ground")]; PStr "noise";
                             PDict [("name", PStr "Air")]])] in
  List.length (fst (carrier_run (PDict c))) = 2.
Proof.
  intros c.
  exact (proj1 (proj2 (carrier_with_rates c _ _ eq_refl)) eq_refl).
Defined.

Lemma cart_loop_stops (repr_other : pyval -> string) (good rest : list pyval)
    (bad : pyval) (x : pyexn) :
  normalize_item repr_other bad = Raise x ->
  cart_loop repr_other (good ++ bad :: rest)%list = cart_loop repr_other good.
Proof.
  intros Hbad. induction good as [|g good IH]; simpl.
  - now rewrite Hbad.
  - destruct (normalize_item repr_other g); [now rewrite IH | reflexivity].
Qed.

Lemma cart_loop_length (repr_other : pyval -> string) (items : list pyval) :
  List.length (cart_loop repr_other items) <= List.length items.
Proof.
  induction items as [|i items IH]; simpl; [lia|].
  destruct (normalize_item repr_other i); simpl; lia.
Qed.

(** X17. An item of the cart that is not a dictionary ends the cart: the
    items before it are normalised as if the list ended there, and the
    items after it are dropped, without any error. *)
Theorem cart_stops_at_bad_item (repr_other : pyval -> string) (d c : Dict.t)
    (good rest : list pyval) (bad : pyval) :
  Dict.get "cart" d = Some (PDict c) ->
  Dict.get "items" c = Some (PList (good ++ bad :: rest)%list) ->
  is_dict bad = false ->
  extract_cart repr_other (PDict d) = cart_loop repr_other good
  /\ List.length (extract_cart repr_other (PDict d)) <= List.length good.
Proof.
  intros Hc Hi Hbad.
  assert (E : extract_cart repr_other (PDict d) = cart_loop repr_other good).
  { unfold extract_cart, py_get. rewrite Hc. cbn [bind]. rewrite Hi. cbn [bind py_iter].
    apply (cart_loop_stops repr_other good rest bad AttributeError).
    destruct bad; try reflexivity. discriminate Hbad. }
  rewrite E. split; [reflexivity | apply cart_loop_length].
Qed.

Lemma cart_stops_at_bad_item_witness :
  let item := PDict [("sku", PStr "A1")] in
  let request := [("cart", PDict [("items", PList [item; PStr "noise"; item])])] in
  extract_cart (fun _ => EmptyString) (PDict request)
  = cart_loop (fun _ => EmptyString) [item]
  /\ List.length (extract_cart (fun _ => EmptyString) (PDict request)) <= 1.
Proof.
  intros item request.
  exact (cart_stops_at_bad_item (fun _ => EmptyString) request
           [("items", PList [item; PStr "noise"; item])] [item] [item] (PStr "noise")
           eq_refl eq_refl eq_refl).
Defined.

Lemma attr_step_groups (repr_other : pyval -> string) (st st' : attr_vars) (attr : pyval) :
  attr_step repr_other st attr = Ok st' ->
  truthy (v_shipping_group st) = true /\ truthy (v_dim_group st) = true ->
  truthy (v_shipping_group st') = true /\ truthy (v_dim_group st') = true.
Proof.
  unfold attr_step. intros H [H1 H2].
  destruct (py_get attr "name" PNone) as [n|]; [|discriminate]. cbn [bind] in H.
  destruct (py_lower (py_or n (PStr ""))) as [name|]; [|discriminate]. cbn [bind] in H.
  destruct (py_get attr "values" PNone) as [vals|]; [|discriminate]. cbn [bind] in H.
  destruct (py_get attr "value" PNone) as [val0|]; [|discriminate]. cbn [bind] in H.
  injection H as <-.
  repeat match goal with
         | |- context [if ?b then _ else _] => destruct b
         end; cbn [v_shipping_group v_dim_group]; split;
    try assumption; now apply py_or_truthy.
Qed.

Lemma attr_loop_groups (repr_other : pyval -> string) (attrs : list pyval)
    (st st' : attr_vars) :
  attr_loop repr_other st attrs = Ok st' ->
  truthy (v_shipping_group st) = true /\ truthy (v_dim_group st) = true ->
  truthy (v_shipping_group st') = true /\ truthy (v_dim_group st') = true.
Proof.
  revert st. induction attrs as [|a attrs IH]; simpl; intros st H Hst.
  - now injection H as <-.
  - destruct (attr_step repr_other st a) as [st1|] eqn:E; [|discriminate].
    cbn [bind] in H. apply (IH st1 H). exact (attr_step_groups _ _ _ _ E Hst).
Qed.

(** X18. In every cart item the normaliser produces, the shipping group and
    the dimensional group are never empty (an attribute with an empty or
    missing value gives the sentinel N/A), and the dimensions are never
    the empty text. *)
Theorem cart_groups_never_empty (repr_other : pyval -> string) (request_json : pyval)
    (ci : cart_item) :
  In ci (extract_cart repr_other request_json) ->
  truthy (shipping_group ci) = true /\ truthy (dim_group ci) = true
  /\ dimensions ci <> "".
Proof.
  unfold extract_cart. intros H.
  destruct (c <- py_get request_json "cart" (PDict []) ;;
            items <- py_get c "items" (PList []) ;; py_iter items) as [items|];
    [|contradiction].
  apply cart_loop_in in H as (item & _ & Hn).
  unfold normalize_item in Hn.
  destruct (resolve_attributes repr_other item) as [st|] eqn:Hst; [|discriminate].
  cbn [bind] in Hn. destruct item; simpl in Hn; try discriminate.
  injection Hn as <-. cbn [shipping_group dim_group dimensions].
  unfold resolve_attributes in Hst.
  destruct (py_get (PDict entries) "attributes" (PList [])) as [attrs|]; [|discriminate].
  cbn [bind] in Hst. destruct (py_iter attrs) as [l|]; [|discriminate].
  cbn [bind] in Hst.
  destruct (attr_loop_groups _ _ _ _ Hst (conj eq_refl eq_refl)) as [H1 H2].
  split; [exact H1|]. split; [exact H2|].
  unfold render_dimensions.
  destruct (truthy (v_length st) && truthy (v_width st) && truthy (v_height st));
    [|discriminate].
  intros E.
  assert (X : has_char "x" (py_str repr_other (v_length st) ++ "x"
                            ++ py_str repr_other (v_width st) ++ "x"
                            ++ py_str repr_other (v_height st)) = true).
  { rewrite has_char_app. simpl. now rewrite orb_true_r. }
  rewrite E in X. discriminate X.
Qed.

Lemma cart_groups_never_empty_witness :
  let attr := PDict [("name", PStr "ShipperHQ_Shipping_Group"); ("value", PStr "")] in
  let request := PDict [("cart", PDict [("items",
                   PList [PDict [("sku", PStr "A1"); ("attributes", PList [attr])]])])] in
  let ci := CartItem (PStr "A1") PNone PNone PNone (PStr "N/A") (PStr "N/A") "N/A" in
  extract_cart (fun _ => EmptyString) request = [ci]
  /\ truthy (shipping_group ci) = true /\ truthy (dim_group ci) = true
  /\ dimensions ci <> "".
Proof.
  intros attr request ci. split; [reflexivity|].
  apply (cart_groups_never_empty (fun _ => EmptyString) request ci).
  left. reflexivity.
Defined.

(** ** Report tables *)

Lemma py_len_app (a b : string) : py_len (a ++ b) = py_len a + py_len b.
Proof. induction a as [|c a IH]; simpl; [reflexivity|]. rewrite IH. lia. Qed.

Lemma py_len_repeat (c : ascii) (n : nat) :
  in_range 128 191 c = false -> py_len (repeat_char c n) = n.
Proof. intros H. induction n as [|n IH]; simpl; [reflexivity|]. now rewrite H, IH. Qed.

Lemma py_len_ljust (s : string) (w : nat) :
  py_len s <= w -> py_len (ljust s w) = w.
Proof.
  intros H. unfold ljust. rewrite py_len_app, py_len_repeat by reflexivity. lia.
Qed.

Lemma py_len_join (sep : string) (parts : list string) :
  py_len (join sep parts)
  = list_sum (map py_len parts) + py_len sep * pred (List.length parts).
Proof.
  induction parts as [|p rest IH]; [simpl; lia|].
  destruct rest as [|p' rest'].
  - simpl. lia.
  - change (join sep (p :: p' :: rest')) with (p ++ sep ++ join sep (p' :: rest')).
    rewrite !py_len_app, IH. simpl. lia.
Qed.

Lemma widen_at (pre ws : list nat) (w n : nat) :
  widen (pre ++ w :: ws)%list (List.length pre) n = Ok (pre ++ Nat.max w n :: ws)%list.
Proof. induction pre as [|p pre IH]; simpl; [reflexivity|]. now rewrite IH. Qed.

Lemma widen_out (ws : list nat) (i n : nat) :
  List.length ws <= i -> widen ws i n = Raise IndexError.
Proof.
  revert i. induction ws as [|w ws IH]; intros i H; [reflexivity|].
  destruct i as [|j]; simpl in *; [lia|]. rewrite IH by lia. reflexivity.
Qed.

Lemma zip_max_length (ws ns : list nat) : List.length (zip_max ws ns) = List.length ws.
Proof.
  revert ns. induction ws as [|w ws IH]; intros [|n ns]; simpl; auto.
Qed.

Section TableProofs.

Variable repr_other : pyval -> string.

Lemma widen_row_fits (pre ws : list nat) (cells : list pyval) :
  List.length cells <= List.length ws ->
  widen_row repr_other (pre ++ ws)%list (List.length pre) cells
  = Ok (pre ++ zip_max ws (cell_lengths repr_other cells))%list.
Proof.
  revert pre ws. induction cells as [|c cells IH]; intros pre ws H.
  - simpl. now destruct ws.
  - destruct ws as [|w ws]; simpl in H; [lia|].
    cbn [widen_row]. rewrite widen_at. cbn [bind].
    replace (pre ++ Nat.max w (py_len (py_str repr_other c)) :: ws)%list
      with ((pre ++ [Nat.max w (py_len (py_str repr_other c))]) ++ ws)%list
      by now rewrite <- app_assoc.
    replace (S (List.length pre))
      with (List.length (pre ++ [Nat.max w (py_len (py_str repr_other c))])%list)
      by (rewrite length_app; simpl; lia).
    rewrite IH by lia. now rewrite <- app_assoc.
Qed.

Lemma widen_row_overflow (pre ws : list nat) (cells : list pyval) :
  List.length ws < List.length cells ->
  widen_row repr_other (pre ++ ws)%list (List.length pre) cells = Raise IndexError.
Proof.
  revert pre ws. induction cells as [|c cells IH]; intros pre ws H; simpl in H; [lia|].
  destruct ws as [|w ws].
  - cbn [widen_row]. rewrite widen_out by (rewrite app_nil_r; lia). reflexivity.
  - cbn [widen_row]. rewrite widen_at. cbn [bind].
    replace (pre ++ Nat.max w (py_len (py_str repr_other c)) :: ws)%list
      with ((pre ++ [Nat.max w (py_len (py_str repr_other c))]) ++ ws)%list
      by now rewrite <- app_assoc.
    replace (S (List.length pre))
      with (List.length (pre ++ [Nat.max w (py_len (py_str repr_other c))])%list)
      by (rewrite length_app; simpl; lia).
    apply IH. simpl in H. lia.
Qed.

Lemma column_widths_length (ws : list nat) (rows : list (list pyval)) :
  List.length (column_widths repr_other ws rows) = List.length ws.
Proof.
  revert ws. induction rows as [|r rows IH]; intros ws; simpl; [reflexivity|].
  now rewrite IH, zip_max_length.
Qed.

Lemma widen_rows_fit (ws : list nat) (rows : list (list pyval)) :
  Forall (fun r => List.length r <= List.length ws) rows ->
  widen_rows repr_other ws rows = Ok (column_widths repr_other ws rows).
Proof.
  revert ws. induction rows as [|r rows IH]; intros ws H; [reflexivity|].
  inversion H as [|? ? Hr Hrest]; subst. cbn [widen_rows column_widths].
  pose proof (widen_row_fits [] ws r Hr) as E. cbn [app List.length] in E.
  rewrite E. cbn [bind]. apply IH.
  now rewrite zip_max_length.
Qed.

Lemma widen_rows_overflow (ws : list nat) (before after : list (list pyval))
    (r : list pyval) :
  Forall (fun r => List.length r <= List.length ws) before ->
  List.length ws < List.length r ->
  widen_rows repr_other ws (before ++ r :: after)%list = Raise IndexError.
Proof.
  revert ws. induction before as [|b before IH]; intros ws H Hr.
  - cbn [app widen_rows]. pose proof (widen_row_overflow [] ws r Hr) as E.
    cbn [app List.length] in E. now rewrite E.
  - inversion H as [|? ? Hb Hrest]; subst. cbn [app widen_rows].
    pose proof (widen_row_fits [] ws b Hb) as E. cbn [app List.length] in E.
    rewrite E. cbn [bind]. apply IH.
    + now rewrite zip_max_length.
    + now rewrite zip_max_length.
Qed.

Lemma le_refl_forall2 (ws : list nat) : Forall2 (fun w v => w <= v) ws ws.
Proof. induction ws; constructor; auto. Qed.

Lemma le_trans_forall2 (a b c : list nat) :
  Forall2 (fun x y => x <= y) a b -> Forall2 (fun x y => x <= y) b c ->
  Forall2 (fun x y => x <= y) a c.
Proof.
  intros H. revert c. induction H; intros c H2; inversion H2; subst; constructor;
    [lia | auto].
Qed.

Lemma zip_max_ge (ws ns : list nat) :
  Forall2 (fun w v => w <= v) ws (zip_max ws ns).
Proof.
  revert ns. induction ws as [|w ws IH]; intros [|n ns]; simpl.
  - constructor.
  - constructor.
  - apply le_refl_forall2.
  - constructor; [lia | apply IH].
Qed.

Lemma zip_max_covers (ws ns : list nat) :
  List.length ns = List.length ws ->
  Forall2 (fun n v => n <= v) ns (zip_max ws ns).
Proof.
  revert ns. induction ws as [|w ws IH]; intros [|n ns] H; simpl in *;
    try discriminate; constructor; [lia | apply IH; lia].
Qed.

Lemma column_widths_ge (ws : list nat) (rows : list (list pyval)) :
  Forall2 (fun w v => w <= v) ws (column_widths repr_other ws rows).
Proof.
  revert ws. induction rows as [|r rows IH]; intros ws; simpl.
  - apply le_refl_forall2.
  - exact (le_trans_forall2 _ _ _ (zip_max_ge ws (cell_lengths repr_other r)) (IH _)).
Qed.

Lemma column_widths_cover (ws : list nat) (rows : list (list pyval)) (r : list pyval) :
  Forall (fun r => List.length r = List.length ws) rows ->
  In r rows ->
  Forall2 (fun n v => n <= v) (cell_lengths repr_other r) (column_widths repr_other ws rows).
Proof.
  revert ws. induction rows as [|r0 rows IH]; intros ws H Hin; [contradiction|].
  inversion H as [|? ? H0 Hrest]; subst. simpl. destruct Hin as [-> | Hin].
  - apply (le_trans_forall2 _ (zip_max ws (cell_lengths repr_other r))).
    + apply zip_max_covers. unfold cell_lengths. now rewrite length_map.
    + apply column_widths_ge.
  - apply IH; [|exact Hin].
    rewrite zip_max_length. exact Hrest.
Qed.

Lemma pad_cells_fit (pre ws : list nat) (cells : list string) :
  Forall2 (fun n w => n <= w) (map py_len cells) ws ->
  exists padded, pad_cells (pre ++ ws)%list (List.length pre) cells = Ok padded
                 /\ map py_len padded = ws.
Proof.
  revert pre ws. induction cells as [|s cells IH]; intros pre ws H.
  - inversion H; subst. exists []. auto.
  - inversion H as [|? w ? ws' Hs Hrest]; subst. cbn [pad_cells].
    replace (nth_error (pre ++ w :: ws')%list (List.length pre)) with (Some w)
      by (symmetry; rewrite nth_error_app2 by lia; now rewrite Nat.sub_diag).
    replace (pre ++ w :: ws')%list with ((pre ++ [w]) ++ ws')%list
      by now rewrite <- app_assoc.
    replace (S (List.length pre)) with (List.length (pre ++ [w])%list)
      by (rewrite length_app; simpl; lia).
    destruct (IH (pre ++ [w])%list ws' Hrest) as (padded & -> & Hp).
    cbn [bind]. eexists. split; [reflexivity|]. simpl.
    now rewrite py_len_ljust, Hp.
Qed.

Lemma row_lines_fit (ws : list nat) (rows : list (list pyval)) :
  (forall r, In r rows -> Forall2 (fun n w => n <= w) (cell_lengths repr_other r) ws) ->
  exists lines, row_lines repr_other ws rows = Ok lines
                /\ List.length lines = List.length rows
                /\ Forall (fun l => py_len l = line_length ws) lines.
Proof.
  induction rows as [|r rows IH]; intros H.
  - exists []. simpl. auto.
  - cbn [row_lines].
    destruct (pad_cells_fit [] ws (map (py_str repr_other) r)) as (cells & Hc & Hl).
    { rewrite map_map. apply H. now left. }
    cbn [app List.length] in Hc. rewrite Hc. cbn [bind].
    destruct IH as (lines & -> & Hn & Hall); [intros r' Hr'; apply H; now right|].
    cbn [bind]. eexists. split; [reflexivity|]. split; [simpl; now rewrite Hn|].
    constructor; [|exact Hall].
    assert (Hlen : List.length cells = List.length ws)
      by (rewrite <- Hl; now rewrite length_map).
    rewrite py_len_join, Hl, Hlen. reflexivity.
Qed.

End TableProofs.

Lemma py_len_dashes (ws : list nat) : map py_len (map (repeat_char "-") ws) = ws.
Proof.
  induction ws as [|w ws IH]; simpl; [reflexivity|].
  now rewrite IH, py_len_repeat.
Qed.

(** X19. When every row has as many cells as there are headers, the table
    is built without error: it has the header line, the separator and one
    line for each row, and all these lines have the same length in
    characters, the sum of the column widths and three for each column
    boundary, the width of a column being the largest length among its
    header and its cells. *)
Theorem build_table_aligned (repr_other : pyval -> string) (headers : list string)
    (r : list pyval) (rows : list (list pyval)) :
  Forall (fun row => List.length row = List.length headers) (r :: rows) ->
  exists lines,
    build_table repr_other headers (r :: rows) = Ok (join (str1 LF) lines)
    /\ List.length lines = 2 + List.length (r :: rows)
    /\ Forall (fun l => py_len l
                        = line_length (column_widths repr_other (map py_len headers)
                                         (r :: rows)))
              lines.
Proof.
  intros H. unfold build_table, table_lines.
  set (all := r :: rows) in *.
  set (ws := column_widths repr_other (map py_len headers) all).
  assert (Hw : widen_rows repr_other (map py_len headers) all = Ok ws).
  { apply widen_rows_fit. rewrite length_map.
    eapply Forall_impl; [|exact H]. intros row E. simpl in E. lia. }
  rewrite Hw. cbn [bind].
  destruct (pad_cells_fit [] ws headers) as (hcells & Hh & Hl).
  { apply column_widths_ge. }
  cbn [app List.length] in Hh. rewrite Hh. cbn [bind].
  destruct (row_lines_fit repr_other ws all) as (lines & Hlines & Hn & Hall).
  { intros row Hrow. apply column_widths_cover; [|exact Hrow].
    rewrite length_map. exact H. }
  rewrite Hlines. cbn [bind]. eexists. split; [reflexivity|].
  split; [simpl; now rewrite Hn|].
  assert (Hlen : List.length hcells = List.length ws)
    by (rewrite <- Hl; now rewrite length_map).
  constructor; [|constructor; [|exact Hall]].
  - rewrite py_len_join, Hl, Hlen. reflexivity.
  - rewrite py_len_join, py_len_dashes, !length_map. reflexivity.
Qed.

Lemma build_table_aligned_witness :
  exists lines,
    build_table (fun _ => EmptyString) ["Product"; "Qty"]
      [[PStr "A1"; PInt 2]; [PStr "Long-name"; PInt 10]]
    = Ok (join (str1 LF) lines)
    /\ List.length lines = 4
    /\ Forall (fun l => py_len l = 15) lines.
Proof.
  apply (build_table_aligned (fun _ => EmptyString) ["Product"; "Qty"]
           [PStr "A1"; PInt 2] [[PStr "Long-name"; PInt 10]]).
  repeat constructor.
Defined.

(** X20. A row with more cells than there are headers stops the table with
    an IndexError, whatever the rows after it are, when no row before it
    has more cells than headers. *)
Theorem build_table_overflow (repr_other : pyval -> string) (headers : list string)
    (before after : list (list pyval)) (r : list pyval) :
  Forall (fun row => List.length row <= List.length headers) before ->
  List.length headers < List.length r ->
  build_table repr_other headers (before ++ r :: after)%list = Raise IndexError.
Proof.
  intros Hb Hr.
  assert (E : widen_rows repr_other (map py_len headers) (before ++ r :: after)%list
              = Raise IndexError).
  { apply widen_rows_overflow; rewrite length_map; assumption. }
  unfold build_table, table_lines. rewrite E.
  now destruct before.
Qed.

Lemma build_table_overflow_witness :
  build_table (fun _ => EmptyString) ["Product"]
    [[PStr "A1"]; [PStr "A2"; PInt 2]; []]
  = Raise IndexError.
Proof.
  apply (build_table_overflow (fun _ => EmptyString) ["Product"]
           [[PStr "A1"]] [[]] [PStr "A2"; PInt 2]); [|simpl; lia].
  repeat constructor.
Defined.

(** ** Log search *)

Lemma ends_with_spec (suffix s : string) :
  ends_with suffix s = true <-> exists pre, s = pre ++ suffix.
Proof.
  split.
  - induction s as [|c s IH]; simpl.
    + rewrite orb_false_r. intros H. apply String.eqb_eq in H. subst. now exists "".
    + intros H. apply orb_true_iff in H as [H | H].
      * apply String.eqb_eq in H. subst. now exists "".
      * destruct (IH H) as [pre ->]. now exists (String c pre).
  - intros [pre ->]. induction pre as [|c pre IH]; simpl.
    + destruct suffix; simpl; [reflexivity|]. now rewrite Ascii.eqb_refl, String.eqb_refl.
    + rewrite IH. apply orb_true_r.
Qed.

Lemma ends_with_app (suffix a b : string) :
  ends_with suffix b = true -> ends_with suffix (a ++ b) = true.
Proof.
  intros H. apply ends_with_spec in H as [pre ->]. apply ends_with_spec.
  exists (a ++ pre). now rewrite append_assoc.
Qed.

Lemma path_join_ends (suffix root name : string) :
  ends_with suffix name = true -> ends_with suffix (path_join root name) = true.
Proof.
  intros H. unfold path_join.
  destruct (String.prefix "/" name); [exact H|].
  destruct (String.eqb root "" || ends_with "/" root).
  - now apply ends_with_app.
  - apply ends_with_app. now apply (ends_with_app suffix "/").
Qed.

Section LogSearchProofs.

Variable os_walk : string -> list (string * list string).

Variable getmtime : string -> option Z.

Variable token : string.

Lemma scan_file_entries (root name : string) (b : bucket * bucket) :
  scan_file getmtime token root b name
  = ((fst b ++ file_entries getmtime token true root name)%list,
     (snd b ++ file_entries getmtime token false root name)%list).
Proof.
  unfold scan_file, file_entries. destruct b as [pf fb]. cbn [fst snd].
  destruct (contains token name), (contains "shipperws" name), (ends_with ".log" name);
    cbn [negb orb andb]; rewrite ?app_nil_r; try reflexivity.
  cbv zeta. destruct (getmtime (path_join root name));
    [|destruct (ends_with ".shipperws.log" name); cbn [Bool.eqb];
      now rewrite ?app_nil_r].
  destruct (ends_with ".shipperws.log" name); cbn [Bool.eqb]; now rewrite app_nil_r.
Qed.

Lemma scan_dir_entries (entry : string * list string) (b : bucket * bucket) :
  scan_dir getmtime token b entry
  = ((fst b ++ flat_map (file_entries getmtime token true (fst entry)) (snd entry))%list,
     (snd b ++ flat_map (file_entries getmtime token false (fst entry)) (snd entry))%list).
Proof.
  unfold scan_dir. destruct entry as [root files]. cbn [fst snd]. revert b.
  induction files as [|name files IH]; intros b; simpl.
  - rewrite !app_nil_r. now destruct b.
  - rewrite IH, scan_file_entries. cbn [fst snd]. now rewrite <- !app_assoc.
Qed.

Lemma scan_walk_entries (walk : list (string * list string)) (b : bucket * bucket) :
  fold_left (scan_dir getmtime token) walk b
  = ((fst b ++ walk_entries getmtime token true walk)%list,
     (snd b ++ walk_entries getmtime token false walk)%list).
Proof.
  revert b. induction walk as [|entry walk IH]; intros b; simpl.
  - rewrite !app_nil_r. now destruct b.
  - rewrite IH, scan_dir_entries. cbn [fst snd]. now rewrite <- !app_assoc.
Qed.

Lemma find_latest_entries (base_dir : string) :
  find_latest_shipperws_log os_walk getmtime token base_dir
  = first_bucket
      [walk_entries getmtime token true (os_walk (path_join base_dir "logs"));
       walk_entries getmtime token false (os_walk (path_join base_dir "logs"))].
Proof.
  unfold find_latest_shipperws_log. cbv zeta. now rewrite scan_walk_entries.
Qed.

End LogSearchProofs.

Lemma insert_desc_head (x : Z * string) (l : bucket) :
  exists y rest, insert_desc x l = y :: rest.
Proof.
  destruct l as [|y l]; simpl; [now eexists; eexists|].
  destruct (fst x <? fst y)%Z; now eexists; eexists.
Qed.

(** The head of the sorted bucket is the first of its newest pairs. *)
Lemma sort_desc_head (pre post : bucket) (t : Z) (p : string) :
  Forall (fun x => (fst x < t)%Z) pre ->
  Forall (fun x => (fst x <= t)%Z) post ->
  hd_error (sort_desc (pre ++ (t, p) :: post)%list) = Some (t, p).
Proof.
  intros Hpre Hpost. induction Hpre as [|x pre Hx _ IH]; simpl.
  - clear - Hpost. fold (sort_desc post).
    assert (H : Forall (fun x => (fst x <= t)%Z) (sort_desc post)).
    { induction Hpost as [|y post Hy _ IH]; simpl; [constructor|].
      fold (sort_desc post). revert IH. generalize (sort_desc post) as s.
      induction s as [|z s IHs]; intros Hs; simpl; [now repeat constructor|].
      inversion Hs; subst.
      destruct (fst y <? fst z)%Z; constructor; auto. }
    destruct (sort_desc post) as [|y s]; [reflexivity|]. simpl.
    inversion H; subst.
    destruct (t <? fst y)%Z eqn:E; [apply Z.ltb_lt in E; lia | reflexivity].
  - fold (sort_desc (pre ++ (t, p) :: post)%list).
    destruct (sort_desc (pre ++ (t, p) :: post)%list) as [|y s]; [discriminate IH|].
    simpl in IH. injection IH as ->. simpl.
    destruct (fst x <? t)%Z eqn:E; [reflexivity | apply Z.ltb_ge in E; lia].
Qed.

(** Every bucket that is not empty has a first newest pair. *)
Lemma first_newest (l : bucket) :
  l <> [] ->
  exists pre t p post,
    l = (pre ++ (t, p) :: post)%list
    /\ Forall (fun x => (fst x < t)%Z) pre
    /\ Forall (fun x => (fst x <= t)%Z) post.
Proof.
  induction l as [|[t0 p0] l IH]; [congruence|]. intros _.
  destruct l as [|y l'].
  - exists [], t0, p0, []. repeat split; constructor.
  - destruct IH as (pre & t & p & post & E & Hpre & Hpost); [discriminate|].
    rewrite E. destruct (t0 <? t)%Z eqn:C.
    + apply Z.ltb_lt in C. exists ((t0, p0) :: pre), t, p, post.
      repeat split; auto.
    + apply Z.ltb_ge in C. exists [], t0, p0, (pre ++ (t, p) :: post)%list.
      repeat split; [constructor|]. apply Forall_app. split.
      * eapply Forall_impl; [|exact Hpre]. simpl. intros; lia.
      * constructor; [simpl; lia|]. eapply Forall_impl; [|exact Hpost]. simpl. intros; lia.
Qed.

Lemma walk_entries_in (getmtime : string -> option Z) (token : string) (pref : bool)
    (walk : list (string * list string)) (t : Z) (p : string) :
  In (t, p) (walk_entries getmtime token pref walk) <->
  exists root files name,
    In (root, files) walk /\ In name files
    /\ contains token name = true /\ contains "shipperws" name = true
    /\ ends_with ".log" name = true
    /\ ends_with ".shipperws.log" name = pref
    /\ p = path_join root name /\ getmtime p = Some t.
Proof.
  unfold walk_entries. rewrite in_flat_map. split.
  - intros ([root files] & Hw & H). cbn [fst snd] in H.
    apply in_flat_map in H as (name & Hn & H). unfold file_entries in H.
    destruct (contains token name) eqn:E1; [|contradiction].
    destruct (contains "shipperws" name) eqn:E2; [|contradiction].
    destruct (ends_with ".log" name) eqn:E3; [|contradiction].
    destruct (Bool.eqb (ends_with ".shipperws.log" name) pref) eqn:E4; [|contradiction].
    simpl in H. destruct (getmtime (path_join root name)) as [t'|] eqn:E5; [|contradiction].
    destruct H as [[= <- <-] | []].
    exists root, files, name. apply eqb_prop in E4. repeat split; auto.
  - intros (root & files & name & Hw & Hn & E1 & E2 & E3 & E4 & -> & E5).
    exists (root, files). split; [exact Hw|]. cbn [fst snd].
    apply in_flat_map. exists name. split; [exact Hn|].
    unfold file_entries. rewrite E1, E2, E3, E4, eqb_reflx, E5. now left.
Qed.

Lemma first_bucket_none (a b : bucket) :
  first_bucket [a; b] = None <-> a = [] /\ b = [].
Proof.
  assert (H : forall x l, option_map snd (hd_error (sort_desc (x :: l))) <> None).
  { intros x l. unfold sort_desc. cbn [fold_right].
    destruct (insert_desc_head x (fold_right insert_desc [] l)) as (y & rest & ->).
    discriminate. }
  split.
  - destruct a as [|x a]; [destruct b as [|y b]|]; cbn [first_bucket]; intros E;
      [now split | now apply H in E | now apply H in E].
  - intros [-> ->]. reflexivity.
Qed.

Lemma suffix_is_log (name : string) :
  ends_with ".shipperws.log" name = true ->
  contains "shipperws" name = true /\ ends_with ".log" name = true.
Proof.
  intros H. apply ends_with_spec in H as [pre ->]. split.
  - apply contains_spec. exists (pre ++ "."), ".log". now rewrite append_assoc.
  - apply ends_with_spec. exists (pre ++ ".shipperws"). now rewrite append_assoc.
Qed.

(** X21. The search returns nothing exactly when no file under the logs
    directory whose name holds the token and shipperws, and ends with .log,
    has a readable modification time. *)
Theorem latest_log_none_iff (os_walk : string -> list (string * list string))
    (getmtime : string -> option Z) (token base_dir : string) :
  find_latest_shipperws_log os_walk getmtime token base_dir = None
  <-> forall root files name,
        In (root, files) (os_walk (path_join base_dir "logs")) -> In name files ->
        contains token name = true -> contains "shipperws" name = true ->
        ends_with ".log" name = true ->
        getmtime (path_join root name) = None.
Proof.
  rewrite find_latest_entries, first_bucket_none.
  set (walk := os_walk (path_join base_dir "logs")). split.
  - intros [Ht Hf] root files name Hw Hn E1 E2 E3.
    destruct (getmtime (path_join root name)) as [t|] eqn:E; [|reflexivity].
    assert (H : In (t, path_join root name)
                  (walk_entries getmtime token (ends_with ".shipperws.log" name) walk)).
    { apply walk_entries_in. exists root, files, name. repeat split; auto. }
    destruct (ends_with ".shipperws.log" name); [rewrite Ht in H | rewrite Hf in H];
      contradiction.
  - intros H.
    assert (Hnone : forall pref, walk_entries getmtime token pref walk = []).
    { intros pref. destruct (walk_entries getmtime token pref walk) as [|[t p] l] eqn:E;
        [reflexivity|].
      assert (Hin : In (t, p) (walk_entries getmtime token pref walk))
        by (rewrite E; now left).
      apply walk_entries_in in Hin
        as (root & files & name & Hw & Hn & E1 & E2 & E3 & _ & -> & E5).
      rewrite (H root files name Hw Hn E1 E2 E3) in E5. discriminate E5. }
    split; apply Hnone.
Qed.

(** X22. When some file whose name holds the token and ends with
    .shipperws.log has a readable time, the search returns the path of such
    a file, at least as new as that one, whatever the other logs are and
    however new they are. *)
Theorem latest_log_prefers_suffix (os_walk : string -> list (string * list string))
    (getmtime : string -> option Z) (token base_dir root name : string)
    (files : list string) (t : Z) :
  In (root, files) (os_walk (path_join base_dir "logs")) -> In name files ->
  contains token name = true ->
  ends_with ".shipperws.log" name = true ->
  getmtime (path_join root name) = Some t ->
  exists p t',
    find_latest_shipperws_log os_walk getmtime token base_dir = Some p
    /\ ends_with ".shipperws.log" p = true
    /\ getmtime p = Some t' /\ (t <= t')%Z.
Proof.
  intros Hw Hn E1 E4 E5. rewrite find_latest_entries.
  set (walk := os_walk (path_join base_dir "logs")) in *.
  destruct (suffix_is_log name E4) as [E2 E3].
  assert (Hin : In (t, path_join root name) (walk_entries getmtime token true walk)).
  { apply walk_entries_in. exists root, files, name. repeat split; auto. }
  destruct (first_newest (walk_entries getmtime token true walk))
    as (pre & t' & p & post & E & Hpre & Hpost).
  { intros Hnil. rewrite Hnil in Hin. contradiction. }
  assert (Hp : In (t', p) (walk_entries getmtime token true walk)).
  { rewrite E. apply in_or_app. right. now left. }
  apply walk_entries_in in Hp
    as (root' & files' & name' & _ & _ & _ & _ & _ & E4' & -> & E5').
  exists (path_join root' name'), t'. split; [|split; [|split]].
  - cbn [first_bucket].
    destruct (walk_entries getmtime token true walk) as [|x l] eqn:El;
      [now destruct pre|].
    rewrite E, (sort_desc_head pre post t' _ Hpre Hpost). reflexivity.
  - now apply path_join_ends.
  - exact E5'.
  - rewrite E in Hin. apply in_app_or in Hin as [Hin | [Hin | Hin]].
    + rewrite Forall_forall in Hpre. specialize (Hpre _ Hin). simpl in Hpre. lia.
    + injection Hin as <- _. lia.
    + rewrite Forall_forall in Hpost. exact (Hpost _ Hin).
Qed.

Lemma latest_log_prefers_suffix_witness :
  exists p t',
    find_latest_shipperws_log sample_walk sample_mtime "tok1" "/srv"
    = Some p
    /\ ends_with ".shipperws.log" p = true
    /\ sample_mtime p = Some t' /\ (10 <= t')%Z.
Proof.
  apply (latest_log_prefers_suffix sample_walk sample_mtime "tok1" "/srv"
           "/srv/logs/old" "tok1.shipperws.log" ["tok1.shipperws.log"] 10);
    try reflexivity.
  - right. left. reflexivity.
  - left. reflexivity.
Defined.

(** X23. Within the bucket the search answers from (the logs with the
    vendor suffix when there is one, the other logs otherwise), it returns
    the newest log, and among equally new ones the first in the order of
    the walk. *)
Theorem latest_log_newest_first (os_walk : string -> list (string * list string))
    (getmtime : string -> option Z) (token base_dir : string) (pref : bool)
    (pre post : bucket) (t : Z) (p : string) :
  let walk := os_walk (path_join base_dir "logs") in
  (pref = false -> walk_entries getmtime token true walk = []) ->
  walk_entries getmtime token pref walk = (pre ++ (t, p) :: post)%list ->
  Forall (fun x => (fst x < t)%Z) pre ->
  Forall (fun x => (fst x <= t)%Z) post ->
  find_latest_shipperws_log os_walk getmtime token base_dir = Some p.
Proof.
  intros walk Hpref E Hpre Hpost. rewrite find_latest_entries. fold walk.
  assert (Hhead : option_map snd (hd_error (sort_desc (pre ++ (t, p) :: post)%list))
                  = Some p)
    by now rewrite (sort_desc_head pre post t p Hpre Hpost).
  destruct pref.
  - rewrite E. cbn [first_bucket]. destruct pre; exact Hhead.
  - rewrite (Hpref eq_refl), E. cbn [first_bucket]. destruct pre; exact Hhead.
Qed.

Lemma latest_log_newest_first_witness :
  find_latest_shipperws_log sample_walk sample_mtime "tok1" "/srv"
  = Some "/srv/logs/tok1.shipperws.log".
Proof.
  apply (latest_log_newest_first sample_walk sample_mtime "tok1" "/srv" true
           [] [(10%Z, "/srv/logs/old/tok1.shipperws.log")] 10%Z).
  - discriminate.
  - reflexivity.
  - constructor.
  - repeat constructor. simpl. lia.
Defined.
